(** * The Referee: the AI-orchestration pipeline, embedded in Rocq

    A shallow embedding of the backend pipeline of the comparison tool:

    - [buildComparisonPrompt]   (backend/src/utils/promptBuilder.ts)
    - [callGrokWithRetry]       (backend/src/services/grokService.ts)
    - [normalizeGrokResponse]   (backend/src/utils/responseNormalizer.ts)
    - [executeComparison]       (backend/src/services/comparisonService.ts)

    JavaScript strings are sequences of UTF-16 code units and are modelled
    as [list N]; values produced by [JSON.parse] are modelled by the
    inductive type [value]; exceptions are modelled by the [completion]
    type; the outside world (completion endpoint, database, clock) is
    modelled by an environment of answers and an explicit state that
    records every call made. *)

From Stdlib Require Import DecimalString Ascii String QArith.
From stdpp Require Import base option list numbers strings gmap.

(** ** Strings *)

Abbreviation jsstring := (list N).

(** A literal: the code units of an ASCII text. *)
Definition js (s : string) : jsstring := N_of_ascii <$> list_ascii_of_string s.

Definition chr (a : ascii) : N := N_of_ascii a.

Definition QUOTE : N := 34.
Definition BACKSLASH : N := 92.

(** A literal in which every apostrophe stands for a double quote. *)
Definition jsq (s : string) : jsstring :=
  (λ c, if (c =? chr "'")%N then QUOTE else c) <$> js s.

(** Decimal rendering of an array index or a counter, as template
    literals render integers. *)
Definition decimal (n : nat) : jsstring := js (NilZero.string_of_uint (Nat.to_uint n)).

Definition decimalZ (z : Z) : jsstring := js (NilZero.string_of_int (Z.to_int z)).

Arguments js : simpl never.
Arguments jsq : simpl never.
Arguments decimal : simpl never.
Arguments decimalZ : simpl never.

(** ECMAScript WhiteSpace and LineTerminator code units: what
    [String.prototype.trim] strips and what [\s] matches. *)
Definition isWhiteSpace (c : N) : bool :=
  ((c =? 9) || (c =? 10) || (c =? 11) || (c =? 12) || (c =? 13) || (c =? 32)
   || (c =? 160) || (c =? 5760) || ((8192 <=? c) && (c <=? 8202))
   || (c =? 8232) || (c =? 8233) || (c =? 8239) || (c =? 8287)
   || (c =? 12288) || (c =? 65279))%N.

Fixpoint trimStart (s : jsstring) : jsstring :=
  match s with
  | c :: s' => if isWhiteSpace c then trimStart s' else s
  | [] => []
  end.

Definition trimEnd (s : jsstring) : jsstring := reverse (trimStart (reverse s)).

Definition trim (s : jsstring) : jsstring := trimEnd (trimStart s).

Definition isEmpty (s : jsstring) : bool :=
  match s with [] => true | _ => false end.

Fixpoint startsWith (p s : jsstring) : bool :=
  match p, s with
  | [], _ => true
  | c :: p', d :: s' => (c =? d)%N && startsWith p' s'
  | _ :: _, [] => false
  end.

(** [Array.prototype.join]. *)
Fixpoint join (sep : jsstring) (parts : list jsstring) : jsstring :=
  match parts with
  | [] => []
  | [p] => p
  | p :: rest => p ++ sep ++ join sep rest
  end.

(** ** Regular expressions of [extractJson]

    Both patterns are matched the way a backtracking engine does: the
    leftmost start position that allows a match wins, greedy quantifiers
    try the longest repetition first and lazy ones the shortest. *)

Definition FENCE : jsstring := js "```".

(** [[\s\S]*?```]: the shortest run of code units before a closing fence;
    the run is capture group 1. *)
Fixpoint lazyUntilFence (s : jsstring) : option jsstring :=
  if startsWith FENCE s then Some []
  else match s with
       | [] => None
       | c :: s' => (c ::.) <$> lazyUntilFence s'
       end.

(** [\s*] followed by [k]: as many white-space code units as possible,
    giving them back one at a time while [k] fails. *)
Fixpoint wsStar (k : jsstring → option jsstring) (s : jsstring) : option jsstring :=
  match s with
  | c :: s' =>
      if isWhiteSpace c
      then match wsStar k s' with
           | Some m => Some m
           | None => k s
           end
      else k s
  | [] => k []
  end.

(** [(?:json)?] followed by [k]. *)
Definition optJson (k : jsstring → option jsstring) (s : jsstring) : option jsstring :=
  match (if startsWith (js "json") s then k (drop 4 s) else None) with
  | Some m => Some m
  | None => k s
  end.

Definition fenceAt (s : jsstring) : option jsstring :=
  if startsWith FENCE s then optJson (wsStar lazyUntilFence) (drop 3 s) else None.

(** [raw.match(/```(?:json)?\s*([\s\S]*?)```/)], capture group 1. *)
Fixpoint matchFence (s : jsstring) : option jsstring :=
  match fenceAt s with
  | Some m => Some m
  | None => match s with
            | [] => None
            | _ :: s' => matchFence s'
            end
  end.

(** [[\s\S]*\}]: the longest run of code units that ends in a closing
    brace. *)
Fixpoint greedyThroughBrace (s : jsstring) : option jsstring :=
  match s with
  | [] => None
  | c :: s' =>
      match greedyThroughBrace s' with
      | Some m => Some (c :: m)
      | None => if (c =? chr "}")%N then Some [c] else None
      end
  end.

(** [raw.match(/\{[\s\S]*\}/)], the whole match. *)
Fixpoint matchObject (s : jsstring) : option jsstring :=
  match s with
  | [] => None
  | c :: s' =>
      match (if (c =? chr "{")%N then greedyThroughBrace s' else None) with
      | Some m => Some (c :: m)
      | None => matchObject s'
      end
  end.

Definition extractJson (raw : jsstring) : jsstring :=
  match matchFence raw with
  | Some m => trim m
  | None =>
      match matchObject raw with
      | Some m => m
      | None => trim raw
      end
  end.

(** ** JSON values and [JSON.parse] *)

(** The values [JSON.parse] builds. A number keeps the literal it was
    read from; an object keeps its own properties in creation order, each
    key once. *)
#[warnings="-register-all"]
Inductive value :=
| VNull
| VBool (b : bool)
| VNum (literal : jsstring)
| VStr (s : jsstring)
| VArr (elements : list value)
| VObj (properties : list (jsstring * value)).

(** What the embedding leaves to the JavaScript engine: the conversion of
    Number values (IEEE doubles) and the wording of built-in error
    messages. *)
Class Engine := {
  (** [String(x)] for the Number [x] a JSON numeric literal denotes *)
  numberToString : jsstring → jsstring;
  (** whether that Number is [+0] or [-0], the falsy Numbers JSON can denote *)
  numberIsZero : jsstring → bool;
  (** message of the [SyntaxError] that [JSON.parse] throws on a text *)
  syntaxErrorMessage : jsstring → jsstring;
  (** message of the [TypeError] thrown when a property of [null] is read *)
  nullReadMessage : jsstring;
  (** message of the [TypeError] thrown when an object has no primitive value *)
  toPrimitiveMessage : jsstring
}.

Definition isJsonWhiteSpace (c : N) : bool :=
  ((c =? 32) || (c =? 9) || (c =? 10) || (c =? 13))%N.

Fixpoint skipWs (s : jsstring) : jsstring :=
  match s with
  | c :: s' => if isJsonWhiteSpace c then skipWs s' else s
  | [] => []
  end.

Definition isDigit (c : N) : bool := ((48 <=? c) && (c <=? 57))%N.

Definition hexDigit (c : N) : option N :=
  (if (48 <=? c) && (c <=? 57) then Some (c - 48)
   else if (97 <=? c) && (c <=? 102) then Some (c - 87)
   else if (65 <=? c) && (c <=? 70) then Some (c - 55)
   else None)%N.

(** The code unit a single-character escape stands for. *)
Definition unescape (c : N) : option N :=
  (if c =? QUOTE then Some QUOTE
   else if c =? BACKSLASH then Some BACKSLASH
   else if c =? chr "/" then Some (chr "/")
   else if c =? chr "b" then Some 8
   else if c =? chr "f" then Some 12
   else if c =? chr "n" then Some 10
   else if c =? chr "r" then Some 13
   else if c =? chr "t" then Some 9
   else None)%N.

(** The characters of a string literal after its opening quote, through
    the closing quote. *)
Fixpoint parseChars (s : jsstring) : option (jsstring * jsstring) :=
  match s with
  | [] => None
  | c :: s1 =>
      if (c =? QUOTE)%N then Some ([], s1)
      else if (c =? BACKSLASH)%N then
        match s1 with
        | [] => None
        | e :: s2 =>
            if (e =? chr "u")%N then
              match s2 with
              | h1 :: h2 :: h3 :: h4 :: s3 =>
                  match hexDigit h1, hexDigit h2, hexDigit h3, hexDigit h4 with
                  | Some d1, Some d2, Some d3, Some d4 =>
                      match parseChars s3 with
                      | Some (cs, r) => Some ((d1 * 4096 + d2 * 256 + d3 * 16 + d4)%N :: cs, r)
                      | None => None
                      end
                  | _, _, _, _ => None
                  end
              | _ => None
              end
            else
              match unescape e with
              | Some d =>
                  match parseChars s2 with
                  | Some (cs, r) => Some (d :: cs, r)
                  | None => None
                  end
              | None => None
              end
        end
      else if (c <? 32)%N then None
      else
        match parseChars s1 with
        | Some (cs, r) => Some (c :: cs, r)
        | None => None
        end
  end.

Fixpoint takeDigits (s : jsstring) : jsstring * jsstring :=
  match s with
  | c :: s' =>
      if isDigit c then let '(ds, r) := takeDigits s' in (c :: ds, r) else ([], s)
  | [] => ([], [])
  end.

(** Optional fraction: a dot and at least one digit. *)
Definition parseFraction (s : jsstring) : option (jsstring * jsstring) :=
  match s with
  | c :: s' =>
      if (c =? chr ".")%N then
        let '(ds, r) := takeDigits s' in
        if isEmpty ds then None else Some (c :: ds, r)
      else Some ([], s)
  | [] => Some ([], [])
  end.

(** Optional exponent: [e] or [E], an optional sign and at least one digit. *)
Definition parseExponent (s : jsstring) : option (jsstring * jsstring) :=
  match s with
  | c :: s' =>
      if ((c =? chr "e") || (c =? chr "E"))%N then
        let '(sign, s'') :=
          match s' with
          | d :: t => if ((d =? chr "+") || (d =? chr "-"))%N then ([d], t) else ([], s')
          | [] => ([], s')
          end in
        let '(ds, r) := takeDigits s'' in
        if isEmpty ds then None else Some (c :: sign ++ ds, r)
      else Some ([], s)
  | [] => Some ([], [])
  end.

(** A JSON number; yields its literal. *)
Definition parseNumber (s : jsstring) : option (jsstring * jsstring) :=
  let '(sign, s1) :=
    match s with
    | c :: s' => if (c =? chr "-")%N then ([c], s') else ([], s)
    | [] => ([], s)
    end in
  match s1 with
  | c :: s2 =>
      if isDigit c then
        let '(int, s3) :=
          if (c =? chr "0")%N then ([c], s2)
          else let '(ds, r) := takeDigits s2 in (c :: ds, r) in
        match parseFraction s3 with
        | Some (frac, s4) =>
            match parseExponent s4 with
            | Some (exp, s5) => Some (sign ++ int ++ frac ++ exp, s5)
            | None => None
            end
        | None => None
        end
      else None
  | [] => None
  end.

Fixpoint hasKey (k : jsstring) (props : list (jsstring * value)) : bool :=
  match props with
  | [] => false
  | (k', _) :: rest => if decide (k' = k) then true else hasKey k rest
  end.

(** [CreateDataProperty]: an existing key keeps its place and takes the
    new value, a new key goes last. *)
Fixpoint setProperty (props : list (jsstring * value)) (k : jsstring) (v : value)
  : list (jsstring * value) :=
  match props with
  | [] => [(k, v)]
  | (k', v') :: rest =>
      if decide (k' = k) then (k, v) :: rest else (k', v') :: setProperty rest k v
  end.

Definition createProperties (members : list (jsstring * value)) : list (jsstring * value) :=
  foldl (λ props '(k, v), setProperty props k v) [] members.

(** Recursive descent over the JSON grammar. [fuel] bounds the nesting of
    calls; [JSON_parse] supplies enough of it for any text. *)
Fixpoint parseValue (fuel : nat) (s : jsstring) : option (value * jsstring) :=
  match fuel with
  | 0 => None
  | S fuel =>
      match skipWs s with
      | [] => None
      | c :: s1 =>
          if (c =? chr "{")%N then
            match skipWs s1 with
            | c' :: s2 =>
                if (c' =? chr "}")%N then Some (VObj [], s2)
                else match parseMembers fuel s1 with
                     | Some (members, r) => Some (VObj (createProperties members), r)
                     | None => None
                     end
            | [] => None
            end
          else if (c =? chr "[")%N then
            match skipWs s1 with
            | c' :: s2 =>
                if (c' =? chr "]")%N then Some (VArr [], s2)
                else match parseElements fuel s1 with
                     | Some (elements, r) => Some (VArr elements, r)
                     | None => None
                     end
            | [] => None
            end
          else if (c =? QUOTE)%N then
            match parseChars s1 with
            | Some (cs, r) => Some (VStr cs, r)
            | None => None
            end
          else if startsWith (js "true") (c :: s1) then Some (VBool true, drop 4 (c :: s1))
          else if startsWith (js "false") (c :: s1) then Some (VBool false, drop 5 (c :: s1))
          else if startsWith (js "null") (c :: s1) then Some (VNull, drop 4 (c :: s1))
          else match parseNumber (c :: s1) with
               | Some (literal, r) => Some (VNum literal, r)
               | None => None
               end
      end
  end
(** One or more elements, through the closing bracket. *)
with parseElements (fuel : nat) (s : jsstring) : option (list value * jsstring) :=
  match fuel with
  | 0 => None
  | S fuel =>
      match parseValue fuel s with
      | Some (v, r) =>
          match skipWs r with
          | c :: r1 =>
              if (c =? chr ",")%N then
                match parseElements fuel r1 with
                | Some (vs, r2) => Some (v :: vs, r2)
                | None => None
                end
              else if (c =? chr "]")%N then Some ([v], r1)
              else None
          | [] => None
          end
      | None => None
      end
  end
(** One or more members, through the closing brace. *)
with parseMembers (fuel : nat) (s : jsstring) : option (list (jsstring * value) * jsstring) :=
  match fuel with
  | 0 => None
  | S fuel =>
      match skipWs s with
      | c :: s1 =>
          if (c =? QUOTE)%N then
            match parseChars s1 with
            | Some (k, r) =>
                match skipWs r with
                | c' :: r1 =>
                    if (c' =? chr ":")%N then
                      match parseValue fuel r1 with
                      | Some (v, r2) =>
                          match skipWs r2 with
                          | c'' :: r3 =>
                              if (c'' =? chr ",")%N then
                                match parseMembers fuel r3 with
                                | Some (ms, r4) => Some ((k, v) :: ms, r4)
                                | None => None
                                end
                              else if (c'' =? chr "}")%N then Some ([(k, v)], r3)
                              else None
                          | [] => None
                          end
                      | None => None
                      end
                    else None
                | [] => None
                end
            | None => None
            end
          else None
      | [] => None
      end
  end.

(** [JSON.parse(text)]; [None] stands for the [SyntaxError]. *)
Definition JSON_parse (text : jsstring) : option value :=
  match parseValue (2 * length text + 2) text with
  | Some (v, r) => if isEmpty (skipWs r) then Some v else None
  | None => None
  end.

(** ** Exceptions *)

Inductive exn :=
| TypeError (message : jsstring)
| SyntaxError (message : jsstring)
(** the rejection of [fetch]: a network-level failure *)
| FetchError (message : jsstring)
| NormalizationError (message : jsstring)
| GrokApiError (message : jsstring) (statusCode : option Z) (isRetryable : bool)
| ComparisonServiceError (message : jsstring) (code : jsstring) (statusCode : Z).

Definition message (e : exn) : jsstring :=
  match e with
  | TypeError m | SyntaxError m | FetchError m | NormalizationError m => m
  | GrokApiError m _ _ => m
  | ComparisonServiceError m _ _ => m
  end.

(** The outcome of running a piece of code: it returns or it throws. *)
Inductive completion (A : Type) :=
| Return (a : A)
| Throw (e : exn).

Arguments Return {A} a.
Arguments Throw {A} e.

#[global] Instance completion_ret : MRet completion := @Return.

#[global] Instance completion_bind : MBind completion :=
  λ A B k c,
    match c with
    | Return a => k a
    | Throw e => Throw e
    end.

(** [xs.map((x, i) => f(x, i))] for an [f] that may throw: elements
    are visited in order, from index [i] on. *)
Fixpoint mapIndexed {A B : Type} (f : A → nat → completion B) (i : nat) (xs : list A)
  : completion (list B) :=
  match xs with
  | [] => Return []
  | x :: rest =>
      y ← f x i;
      ys ← mapIndexed f (S i) rest;
      Return (y :: ys)
  end.

(** ** Values at run time *)

Section Values.
Context `{Engine}.

(** [ToBoolean]. *)
Definition truthy (v : value) : bool :=
  match v with
  | VNull => false
  | VBool b => b
  | VNum literal => negb (numberIsZero literal)
  | VStr s => negb (isEmpty s)
  | VArr _ | VObj _ => true
  end.

(** [typeof v === 'object']. *)
Definition typeofObject (v : value) : bool :=
  match v with
  | VNull | VArr _ | VObj _ => true
  | _ => false
  end.

Fixpoint lookupProperty (k : jsstring) (props : list (jsstring * value)) : option value :=
  match props with
  | [] => None
  | (k', v) :: rest => if decide (k' = k) then Some v else lookupProperty k rest
  end.

(** [v.k] for a non-null [v] and a name [k] that is neither an array
    index, nor [length], nor a name defined on a built-in prototype;
    [None] is [undefined]. *)
Definition getField (v : value) (k : jsstring) : option value :=
  match v with
  | VObj props => lookupProperty k props
  | _ => None
  end.

(** [v[i]] for a non-null [v]. *)
Definition getIndex (v : value) (i : nat) : option value :=
  match v with
  | VObj props => lookupProperty (decimal i) props
  | VArr elements => elements !! i
  | VStr s => (λ c, VStr [c]) <$> s !! i
  | _ => None
  end.

(** [String(v)]. Arrays go through [Array.prototype.join]. An ordinary
    object goes through [OrdinaryToPrimitive]: an own [toString]
    property of a parsed object is never callable, and the inherited
    [valueOf] gives back the object itself, so the conversion throws;
    without an own [toString] the inherited one answers. *)
Fixpoint toString (v : value) : completion jsstring :=
  match v with
  | VNull => Return (js "null")
  | VBool b => Return (if b then js "true" else js "false")
  | VNum literal => Return (numberToString literal)
  | VStr s => Return s
  | VArr elements =>
      (fix joinElements (vs : list value) : completion jsstring :=
         match vs with
         | [] => Return []
         | v :: rest =>
             s ← match v with
                 | VNull => Return []
                 | _ => toString v
                 end;
             match rest with
             | [] => Return s
             | _ :: _ => r ← joinElements rest; Return (s ++ js "," ++ r)
             end
         end) elements
  | VObj props =>
      if hasKey (js "toString") props
      then Throw (TypeError toPrimitiveMessage)
      else Return (js "[object Object]")
  end.

(** [Object.entries(v)] for an object or an array. Engines list
    array-index keys first; here that order cannot be observed: the
    keys are distinct, each step of the reduction below writes its own
    key, and every conversion that throws throws the same error. *)
Definition entries (v : value) : list (jsstring * value) :=
  match v with
  | VObj props => props
  | VArr elements => imap (λ i x, (decimal i, x)) elements
  | _ => []
  end.
End Values.

(** ** Response normalizer (responseNormalizer.ts) *)

Module OptionAnalysis.
Record t := mk {
  name : jsstring;
  pros : list jsstring;
  cons : list jsstring;
  scores : gmap jsstring jsstring
}.
End OptionAnalysis.
Abbreviation OptionAnalysis := OptionAnalysis.t.

Module TradeOff.
Record t := mk {
  scenario : jsstring;
  recommendation : jsstring
}.
End TradeOff.
Abbreviation TradeOff := TradeOff.t.

Module NormalizedComparisonResult.
Record t := mk {
  options : list OptionAnalysis;
  tradeOffs : list TradeOff
}.
End NormalizedComparisonResult.
Abbreviation NormalizedComparisonResult := NormalizedComparisonResult.t.

Section Normalizer.
Context `{Engine}.

(** [typeof p === 'string' && p.trim() !== ''], as a filter that keeps
    the element itself. *)
Definition nonBlankString (v : value) : option jsstring :=
  match v with
  | VStr s => if isEmpty (trim s) then None else Some s
  | _ => None
  end.

(** [acc[key] = s] on an ordinary object: the key [__proto__] reaches
    the setter inherited from [Object.prototype], which ignores a string
    and creates no property. *)
Definition assign (acc : gmap jsstring jsstring) (key s : jsstring) : gmap jsstring jsstring :=
  if decide (key = js "__proto__") then acc else <[key := s]> acc.

(** The reducer over [Object.entries(opt.scores)]. *)
Fixpoint reduceScores (acc : gmap jsstring jsstring) (es : list (jsstring * value))
  : completion (gmap jsstring jsstring) :=
  match es with
  | [] => Return acc
  | (key, v) :: rest =>
      acc' ← match v with
             | VStr s => Return (assign acc key s)
             | VNull => Return acc
             | _ => s ← toString v; Return (assign acc key s)
             end;
      reduceScores acc' rest
  end.

Definition validateOption (option : value) (index : nat) : completion OptionAnalysis :=
  if negb (truthy option) || negb (typeofObject option) then
    Throw (NormalizationError
             (js "Option at index " ++ decimal index ++ js " is not a valid object"))
  else
    match getField option (js "name") with
    | Some (VStr name) =>
        if isEmpty (trim name) then
          Throw (NormalizationError
                   (js "Option at index " ++ decimal index
                      ++ js " is missing a valid 'name' field"))
        else
          match getField option (js "pros") with
          | Some (VArr pros') =>
              match getField option (js "cons") with
              | Some (VArr cons') =>
                  scores ← match getField option (js "scores") with
                           | Some scores =>
                               if truthy scores && typeofObject scores
                               then reduceScores ∅ (entries scores)
                               else Return ∅
                           | None => Return ∅
                           end;
                  Return (OptionAnalysis.mk (trim name)
                            (omap nonBlankString pros')
                            (omap nonBlankString cons')
                            scores)
              | _ =>
                  Throw (NormalizationError
                           (js "Option '" ++ name ++ js "' is missing 'cons' array"))
              end
          | _ =>
              Throw (NormalizationError
                       (js "Option '" ++ name ++ js "' is missing 'pros' array"))
          end
    | _ =>
        Throw (NormalizationError
                 (js "Option at index " ++ decimal index
                    ++ js " is missing a valid 'name' field"))
    end.

(** [None] is the [null] the source returns after its warning. *)
Definition validateTradeOff (tradeOff : value) (index : nat) : option TradeOff :=
  if negb (truthy tradeOff) || negb (typeofObject tradeOff) then None
  else
    match getField tradeOff (js "scenario") with
    | Some (VStr scenario) =>
        if isEmpty (trim scenario) then None
        else
          match getField tradeOff (js "recommendation") with
          | Some (VStr recommendation) =>
              if isEmpty (trim recommendation) then None
              else Some (TradeOff.mk (trim scenario) (trim recommendation))
          | _ => None
          end
    | _ => None
    end.

(** The part of [normalizeGrokResponse] that follows [JSON.parse]. *)
Definition normalizeParsed (parsed : value) : completion NormalizedComparisonResult :=
  if negb (truthy parsed) || negb (typeofObject parsed) then
    Throw (NormalizationError (js "Parsed response is not a valid object"))
  else
    match getField parsed (js "options") with
    | Some (VArr []) =>
        Throw (NormalizationError (jsq "Response 'options' array is empty"))
    | Some (VArr options) =>
        options' ← mapIndexed validateOption 0 options;
        let tradeOffs :=
          match getField parsed (js "tradeOffs") with
          | Some (VArr tradeOffs) =>
              omap id (imap (λ index to, validateTradeOff to index) tradeOffs)
          | _ => []
          end in
        Return (NormalizedComparisonResult.mk options' tradeOffs)
    | _ =>
        Throw (NormalizationError (jsq "Response is missing required 'options' array"))
    end.

(** The argument is typed [string] in the source and checked again at
    run time, so any value is accepted here. *)
Definition normalizeGrokResponse (raw : value) : completion NormalizedComparisonResult :=
  match raw with
  | VStr raw =>
      if isEmpty raw then
        Throw (NormalizationError (js "Response is empty or not a string"))
      else
        let jsonString := extractJson raw in
        match JSON_parse jsonString with
        | Some parsed => normalizeParsed parsed
        | None =>
            Throw (NormalizationError
                     (js "Failed to parse JSON response: " ++ syntaxErrorMessage jsonString))
        end
  | _ => Throw (NormalizationError (js "Response is empty or not a string"))
  end.
End Normalizer.

(** ** Prompt builder (promptBuilder.ts) *)

Definition NEWLINE : jsstring := [10%N].

(** The three fixed pieces of the template literal, around
    [${optionsList}] and [${constraintsList}]. *)
Definition promptHead : jsstring :=
  jsq "You are a neutral technical referee. Compare the following options without declaring a winner.

OPTIONS TO COMPARE:
".

Definition promptMiddle : jsstring :=
  jsq "

CONSTRAINTS TO EVALUATE:
".

Definition promptTail : jsstring :=
  jsq "

INSTRUCTIONS:
1. Analyze each option against ALL constraints
2. List specific pros and cons for each option
3. DO NOT declare a 'best' or 'winner' - remain completely neutral
4. Provide trade-off scenarios: 'If you prioritize X, consider Y because...'
5. Be factual and balanced in your analysis
6. Score each option against each constraint with a brief explanation

OUTPUT FORMAT (respond with valid JSON only, no markdown code blocks):
{
  'options': [
    {
      'name': 'option name',
      'pros': ['pro 1', 'pro 2'],
      'cons': ['con 1', 'con 2'],
      'scores': {
        'constraint1': 'rating/explanation',
        'constraint2': 'rating/explanation'
      }
    }
  ],
  'tradeOffs': [
    {
      'scenario': 'When you need...',
      'recommendation': 'Consider X because...'
    }
  ]
}

IMPORTANT: 
- Return ONLY valid JSON, no additional text or markdown formatting
- Include ALL options provided in your analysis
- Include scores for ALL constraints for each option
- Trade-offs should present balanced scenarios, not recommendations for a single option".

Definition numbered (i : nat) (text : jsstring) : jsstring :=
  decimal (i + 1) ++ js ". " ++ text.

Definition buildComparisonPrompt (options constraints : list jsstring) : jsstring :=
  let optionsList := join NEWLINE (imap numbered options) in
  let constraintsList := join NEWLINE (imap numbered constraints) in
  promptHead ++ optionsList ++ promptMiddle ++ constraintsList ++ promptTail.

(** ** The outside world *)

Module GrokCompletionOptions.
Record t := mk {
  prompt : jsstring;
  maxTokens : option Z;
  temperature : option Q
}.
End GrokCompletionOptions.
Abbreviation GrokCompletionOptions := GrokCompletionOptions.t.

Module ComparisonInput.
Record t := mk {
  options : list jsstring;
  constraints : list jsstring
}.
End ComparisonInput.
Abbreviation ComparisonInput := ComparisonInput.t.

Module ComparisonResponse.
Record t := mk {
  id : jsstring;
  options : list OptionAnalysis;
  tradeOffs : list TradeOff;
  createdAt : jsstring
}.
End ComparisonResponse.
Abbreviation ComparisonResponse := ComparisonResponse.t.

(** The POST to [/chat/completions]: the bearer credential and the fields
    of the body that vary. *)
Record request := {
  authorization : jsstring;
  content : jsstring;
  max_tokens : Z;
  request_temperature : Q
}.

(** How one call of the completion endpoint ends: the promise of [fetch]
    (or of reading the body) rejects, or a response arrives with a status
    and a body text. *)
Inductive outcome :=
| Rejected (reason : jsstring)
| Response (status : Z) (body : jsstring).

(** The two statements the service sends to the database. *)
Inductive query :=
| InsertComparison (options constraints : list jsstring)
| InsertResult (comparison_id : jsstring) (result : jsstring).

(** The answer to a statement: it is rejected, or the row is inserted
    (for [InsertComparison], [RETURNING id] yields the generated id). *)
Inductive reply :=
| QueryRejected
| Inserted (id : jsstring).

Inductive event :=
| Fetch (r : request)
| Delay (ms : Z)
| Query (q : query).

(** What the environment answers: process configuration, the outcome of
    the n-th call of the endpoint, the reply to the n-th statement, and
    the clock. *)
Record Env := {
  GROQ_API_KEY : option jsstring;
  endpoint : nat → outcome;
  database : nat → reply;
  now : jsstring
}.

(** The state: every call made so far, oldest first, and the two tables. *)
Record World := {
  trace : list event;
  comparisons : list (jsstring * (list jsstring * list jsstring));
  comparison_results : list (jsstring * jsstring)
}.

Definition isFetch (e : event) : bool :=
  match e with Fetch _ => true | _ => false end.

Definition isDelay (e : event) : bool :=
  match e with Delay _ => true | _ => false end.

Definition isQuery (e : event) : bool :=
  match e with Query _ => true | _ => false end.

Definition count (p : event → bool) (events : list event) : nat :=
  length (List.filter p events).

Definition fetchCount (w : World) : nat := count isFetch (trace w).

Definition queryCount (w : World) : nat := count isQuery (trace w).

Definition record (e : event) (w : World) : World :=
  {| trace := trace w ++ [e];
     comparisons := comparisons w;
     comparison_results := comparison_results w |}.

Definition emptyWorld : World :=
  {| trace := []; comparisons := []; comparison_results := [] |}.

(** ** Completion client (grokService.ts) *)

Definition MAX_RETRIES : Z := 3.
Definition BASE_DELAY_MS : Z := 1000.

Definition createGrokError (message : jsstring) (statusCode : option Z) : exn :=
  GrokApiError message statusCode
    match statusCode with
    | Some statusCode => ((statusCode =? 429) || (statusCode >=? 500))%Z
    | None => false
    end.

(** [response.ok]. *)
Definition ok (status : Z) : bool := ((200 <=? status) && (status <=? 299))%Z.

Definition backoff (attempt : Z) : Z := (BASE_DELAY_MS * 2 ^ (attempt - 1))%Z.

(** How the [try] block of one iteration ends without throwing. *)
Inductive tried :=
| Returned (v : value)
| Continue.

Section Client.
Context `{Engine} (env : Env).

Definition getApiKey : completion jsstring :=
  match GROQ_API_KEY env with
  | Some apiKey =>
      if isEmpty apiKey
      then Throw (createGrokError
                    (js "GROQ_API_KEY environment variable is not configured") None)
      else Return apiKey
  | None =>
      Throw (createGrokError
               (js "GROQ_API_KEY environment variable is not configured") None)
  end.

Definition buildRequest (apiKey : jsstring) (options : GrokCompletionOptions) : request :=
  {| authorization := js "Bearer " ++ apiKey;
     content := GrokCompletionOptions.prompt options;
     max_tokens :=
       match GrokCompletionOptions.maxTokens options with
       | Some n => if (n =? 0)%Z then 4096%Z else n
       | None => 4096%Z
       end;
     request_temperature :=
       match GrokCompletionOptions.temperature options with
       | Some t => if Qeq_bool t 0 then (7 # 10)%Q else t
       | None => (7 # 10)%Q
       end |}.

(** The body of the [try] block once the awaited [fetch] has settled. *)
Definition tryBlock (maxRetries attempt : Z) (o : outcome) (w : World)
  : completion tried * World :=
  match o with
  | Rejected reason => (Throw (FetchError reason), w)
  | Response status body =>
      if negb (ok status) then
        let error :=
          createGrokError
            (js "Groq API error: " ++ decimalZ status ++ js " - " ++ body)
            (Some status) in
        let retryable :=
          match error with GrokApiError _ _ isRetryable => isRetryable | _ => false end in
        if negb retryable || (attempt =? maxRetries)%Z then (Throw error, w)
        else (Return Continue, record (Delay (backoff attempt)) w)
      else
        match JSON_parse body with
        | None => (Throw (SyntaxError (syntaxErrorMessage body)), w)
        | Some VNull => (Throw (TypeError nullReadMessage), w)
        | Some data =>
            match getField data (js "choices") with
            | Some choices =>
                if truthy choices then
                  match getIndex choices 0 with
                  | Some choice =>
                      if truthy choice then
                        match getField choice (js "message") with
                        | Some message =>
                            if truthy message then
                              match getField message (js "content") with
                              | Some content =>
                                  if truthy content
                                  then (Return (Returned content), w)
                                  else (Return (Returned (VStr [])), w)
                              | None => (Return (Returned (VStr [])), w)
                              end
                            else (Throw (createGrokError (js "Invalid response structure from Groq API") None), w)
                        | None => (Throw (createGrokError (js "Invalid response structure from Groq API") None), w)
                        end
                      else (Throw (createGrokError (js "Invalid response structure from Groq API") None), w)
                  | None => (Throw (createGrokError (js "Invalid response structure from Groq API") None), w)
                  end
                else (Throw (createGrokError (js "Invalid response structure from Groq API") None), w)
            | None => (Throw (createGrokError (js "Invalid response structure from Groq API") None), w)
            end
        end
  end.

(** The [for] loop from iteration [attempt] on; [n] counts the
    iterations left, [maxRetries - attempt + 1]. *)
Fixpoint attempts (r : request) (maxRetries : Z) (n : nat) (attempt : Z) (w : World)
  : completion value * World :=
  match n with
  | 0 => (Throw (createGrokError (js "Unexpected error in retry logic") None), w)
  | S n' =>
      let o := endpoint env (fetchCount w) in
      match tryBlock maxRetries attempt o (record (Fetch r) w) with
      | (Return (Returned v), w') => (Return v, w')
      | (Return Continue, w') => attempts r maxRetries n' (attempt + 1)%Z w'
      | (Throw error, w') =>
          match error with
          | GrokApiError _ _ isRetryable =>
              if negb isRetryable || (attempt =? maxRetries)%Z then (Throw error, w')
              else attempts r maxRetries n' (attempt + 1)%Z
                     (record (Delay (backoff attempt)) w')
          | _ =>
              if (attempt =? maxRetries)%Z then
                (Throw (createGrokError
                          (js "Groq API request failed after " ++ decimalZ maxRetries
                             ++ js " attempts: " ++ message error) None), w')
              else attempts r maxRetries n' (attempt + 1)%Z
                     (record (Delay (backoff attempt)) w')
          end
      end
  end.

Definition callGrokWithRetry (options : GrokCompletionOptions) (maxRetries : Z) (w : World)
  : completion value * World :=
  match getApiKey with
  | Return apiKey =>
      attempts (buildRequest apiKey options) maxRetries (Z.to_nat maxRetries) 1%Z w
  | Throw e => (Throw e, w)
  end.
End Client.

(** ** [JSON.stringify] *)

Definition hexChar (d : N) : N := (if d <? 10 then 48 + d else 87 + d)%N.

(** [\uXXXX], lower-case digits. *)
Definition unicodeEscape (c : N) : jsstring :=
  [BACKSLASH; chr "u";
   hexChar (c / 4096 mod 16); hexChar (c / 256 mod 16);
   hexChar (c / 16 mod 16); hexChar (c mod 16)]%N.

Definition isHighSurrogate (c : N) : bool := ((55296 <=? c) && (c <=? 56319))%N.
Definition isLowSurrogate (c : N) : bool := ((56320 <=? c) && (c <=? 57343))%N.

(** The characters of [QuoteJSONString]. [paired] tells that the code
    unit at the head is the low half of a surrogate pair whose high half
    was just written. *)
Fixpoint quoteChars (paired : bool) (s : jsstring) : jsstring :=
  match s with
  | [] => []
  | c :: s' =>
      if paired then c :: quoteChars false s'
      else if (c =? 8)%N then js "\b" ++ quoteChars false s'
      else if (c =? 9)%N then js "\t" ++ quoteChars false s'
      else if (c =? 10)%N then js "\n" ++ quoteChars false s'
      else if (c =? 12)%N then js "\f" ++ quoteChars false s'
      else if (c =? 13)%N then js "\r" ++ quoteChars false s'
      else if (c =? QUOTE)%N then [BACKSLASH; QUOTE] ++ quoteChars false s'
      else if (c =? BACKSLASH)%N then [BACKSLASH; BACKSLASH] ++ quoteChars false s'
      else if (c <? 32)%N then unicodeEscape c ++ quoteChars false s'
      else if isHighSurrogate c then
        match s' with
        | d :: _ =>
            if isLowSurrogate d then c :: quoteChars true s'
            else unicodeEscape c ++ quoteChars false s'
        | [] => unicodeEscape c
        end
      else if isLowSurrogate c then unicodeEscape c ++ quoteChars false s'
      else c :: quoteChars false s'
  end.

Definition quoteJSONString (s : jsstring) : jsstring :=
  [QUOTE] ++ quoteChars false s ++ [QUOTE].

Section Stringify.
Context `{Engine}.

(** [JSON.stringify(v)] without indentation. *)
Fixpoint JSON_stringify (v : value) : jsstring :=
  match v with
  | VNull => js "null"
  | VBool b => if b then js "true" else js "false"
  | VNum literal => numberToString literal
  | VStr s => quoteJSONString s
  | VArr elements =>
      js "[" ++ join (js ",") (JSON_stringify <$> elements) ++ js "]"
  | VObj props =>
      js "{"
        ++ join (js ",")
             ((λ p, quoteJSONString p.1 ++ js ":" ++ JSON_stringify p.2) <$> props)
        ++ js "}"
  end.
End Stringify.

(** The objects the normalizer returns, as values. Score keys are written
    in the order the map lists them; any order denotes the same object. *)
Definition optionToValue (o : OptionAnalysis) : value :=
  VObj [(js "name", VStr (OptionAnalysis.name o));
        (js "pros", VArr (VStr <$> OptionAnalysis.pros o));
        (js "cons", VArr (VStr <$> OptionAnalysis.cons o));
        (js "scores",
         VObj ((λ p, (p.1, VStr p.2)) <$> map_to_list (OptionAnalysis.scores o)))].

Definition tradeOffToValue (t : TradeOff) : value :=
  VObj [(js "scenario", VStr (TradeOff.scenario t));
        (js "recommendation", VStr (TradeOff.recommendation t))].

Definition resultToValue (r : NormalizedComparisonResult) : value :=
  VObj [(js "options", VArr (optionToValue <$> NormalizedComparisonResult.options r));
        (js "tradeOffs", VArr (tradeOffToValue <$> NormalizedComparisonResult.tradeOffs r))].

(** ** Orchestrator (comparisonService.ts) *)

Section Orchestrator.
Context `{Engine} (env : Env).

(** [query(text, params)]: the statement is sent, and on success the row
    is in its table. *)
Definition runQuery (q : query) (w : World) : reply * World :=
  let r := database env (queryCount w) in
  let w' := record (Query q) w in
  match r with
  | QueryRejected => (r, w')
  | Inserted id =>
      (r,
       match q with
       | InsertComparison options constraints =>
           {| trace := trace w';
              comparisons := comparisons w' ++ [(id, (options, constraints))];
              comparison_results := comparison_results w' |}
       | InsertResult comparison_id result =>
           {| trace := trace w';
              comparisons := comparisons w';
              comparison_results := comparison_results w' ++ [(comparison_id, result)] |}
       end)
  end.

Definition storeComparisonRequest (input : ComparisonInput) (w : World)
  : completion jsstring * World :=
  match runQuery (InsertComparison (ComparisonInput.options input)
                    (ComparisonInput.constraints input)) w with
  | (Inserted id, w') => (Return id, w')
  | (QueryRejected, w') =>
      (Throw (ComparisonServiceError (js "Failed to store comparison request")
                (js "database_error") 500), w')
  end.

Definition storeComparisonResult (comparisonId : jsstring)
    (result : NormalizedComparisonResult) (w : World) : completion unit * World :=
  match runQuery (InsertResult comparisonId (JSON_stringify (resultToValue result))) w with
  | (Inserted _, w') => (Return (), w')
  | (QueryRejected, w') =>
      (Throw (ComparisonServiceError (js "Failed to store comparison result")
                (js "database_error") 500), w')
  end.

Definition executeComparison (input : ComparisonInput) (w : World)
  : completion ComparisonResponse * World :=
  (* Step 1: store the comparison request *)
  match storeComparisonRequest input w with
  | (Throw e, w1) => (Throw e, w1)
  | (Return comparisonId, w1) =>
      (* Step 2: build the prompt *)
      let prompt :=
        buildComparisonPrompt (ComparisonInput.options input)
          (ComparisonInput.constraints input) in
      (* Step 3: call the completion endpoint *)
      match callGrokWithRetry env (GrokCompletionOptions.mk prompt None None)
              MAX_RETRIES w1 with
      | (Throw error, w2) =>
          (Throw (ComparisonServiceError
                    (js "AI service is currently unavailable: " ++ message error)
                    (js "ai_service_error") 502), w2)
      | (Return rawResponse, w2) =>
          (* Step 4: normalize the response *)
          match normalizeGrokResponse rawResponse with
          | Throw (NormalizationError _) =>
              (Throw (ComparisonServiceError
                        (js "Failed to process AI response. Please try again.")
                        (js "normalization_error") 502), w2)
          | Throw error => (Throw error, w2)
          | Return normalizedResult =>
              (* Step 5: store the result *)
              match storeComparisonResult comparisonId normalizedResult w2 with
              | (Throw e, w3) => (Throw e, w3)
              | (Return _, w3) =>
                  (* Step 6 *)
                  (Return (ComparisonResponse.mk comparisonId
                             (NormalizedComparisonResult.options normalizedResult)
                             (NormalizedComparisonResult.tradeOffs normalizedResult)
                             (now env)), w3)
              end
          end
      end
  end.
End Orchestrator.

(** ** Auxiliary notions used to state the properties *)

Section Notions.
Context `{Engine}.

(** The score map of an option value, as [validateOption] computes it. *)
Definition scoresOf (option : value) : completion (gmap jsstring jsstring) :=
  match getField option (js "scores") with
  | Some scores =>
      if truthy scores && typeofObject scores
      then reduceScores ∅ (entries scores)
      else Return ∅
  | None => Return ∅
  end.

(** The [message] object of the first choice of a payload, when the
    payload, its [choices], the first choice and its [message] are all
    present and truthy. *)
Definition messageOf (data : value) : option value :=
choices ← getField data (js "choices");
if truthy choices then
  choice ← getIndex choices 0;
  if truthy choice then
    message ← getField choice (js "message");
    if truthy message then Some message else None
  else None
else None.

(** What a call returns for a [message]: its [content] when that is
    truthy, the empty string otherwise. *)
Definition contentOf (message : value) : value :=
match getField message (js "content") with
| Some content => if truthy content then content else VStr []
| None => VStr []
end.
End Notions.

(** [p] occurs in [s]. *)
Definition occursIn (p s : jsstring) : Prop := ∃ a b, s = a ++ p ++ b.

(** The number of positions of [s] at which [p] starts. *)
Fixpoint occurrences (p s : jsstring) : nat :=
  (if startsWith p s then 1 else 0)
  + match s with
    | [] => 0
    | _ :: s' => occurrences p s'
    end.

(** [block] lists [items] one per entry, separated by newlines, the
    entry of the item at index [i] being its ordinal [i + 1], a dot, a
    space and the item. *)
Definition enumerates (block : jsstring) (items : list jsstring) : Prop :=
  ∃ entries,
    block = join NEWLINE entries
    ∧ length entries = length items
    ∧ ∀ i item, items !! i = Some item →
                entries !! i = Some (decimal (i + 1) ++ js ". " ++ item).

(** [s] contains a fenced code block: two fences, one after the other. *)
Definition hasFencedBlock (s : jsstring) : Prop :=
  ∃ a b c, s = a ++ FENCE ++ b ++ FENCE ++ c.

(** [s] is [pre], a fence and [rest], and no fence starts earlier in [s]. *)
Definition firstFence (s pre rest : jsstring) : Prop :=
  s = pre ++ FENCE ++ rest ∧ ¬ occursIn FENCE (pre ++ take 2 FENCE).

(** The fenced code block of [raw]: [pre], the first fence of [raw], an
    optional [json] tag, the interior [body], the next fence and [post]. *)
Definition fencedBlock (raw pre tag body post : jsstring) : Prop :=
  ∃ rest,
    firstFence raw pre (tag ++ rest)
    ∧ (tag = js "json" ∨ (tag = [] ∧ startsWith (js "json") rest = false))
    ∧ firstFence rest body post.

(** [s] contains a span that opens with a brace and closes with one. *)
Definition hasBraceSpan (s : jsstring) : Prop :=
  ∃ a m c, s = a ++ [chr "{"] ++ m ++ [chr "}"] ++ c.

(** The first such span of [raw]: it opens at the first opening brace
    ([a] has none) and runs through the last closing brace ([c] has
    none). *)
Definition braceSpan (raw a m c : jsstring) : Prop :=
  raw = a ++ [chr "{"] ++ m ++ [chr "}"] ++ c ∧ (chr "{" ∉ a) ∧ (chr "}" ∉ c).

(** Values that [JSON.stringify] writes in a way [JSON.parse] reads
    back: no numbers (their text is the engine's), and distinct keys in
    every object. *)
#[warnings="-register-all"]
Inductive printable : value → Prop :=
| printable_null : printable VNull
| printable_bool b : printable (VBool b)
| printable_str s : printable (VStr s)
| printable_arr elements : Forall printable elements → printable (VArr elements)
| printable_obj props :
    NoDup props.*1 → Forall (λ p, printable p.2) props → printable (VObj props).

Fixpoint weights (ws : list nat) : nat :=
  match ws with
  | [] => 0
  | w :: ws' => S w + weights ws'
  end.

(** A bound on the nesting of calls that parsing the text of a value
    takes. *)
Fixpoint weight (v : value) : nat :=
  match v with
  | VArr elements => S (weights (weight <$> elements))
  | VObj props => S (weights ((λ p, weight p.2) <$> props))
  | _ => 1
  end.

(** Parsing the text of [v], with enough fuel and whatever follows the
    text, gives [v] back. *)
Definition parsesBack `{Engine} (v : value) : Prop :=
  ∀ fuel rest, weight v ≤ fuel → parseValue fuel (JSON_stringify v ++ rest) = Some (v, rest).

(** What [parse] yields with [fuel], it yields with twice the number of
    code units it read, having read at least one. *)
Definition adequate {A} (parse : nat → jsstring → option (A * jsstring)) (fuel : nat) : Prop :=
  ∀ s a r, parse fuel s = Some (a, r) →
    length r < length s ∧ ∀ m, 2 * (length s - length r) ≤ m → parse m s = Some (a, r).

(** The text of a result in the documented schema: an object with
    [options] and [tradeOffs], written as [JSON.stringify] writes it. *)
Definition serialize `{Engine} (r : NormalizedComparisonResult) : jsstring :=
  JSON_stringify (resultToValue r).

(** Well-formed results: at least one option; names, pros, cons,
    scenarios and recommendations trimmed and non-empty (scores are
    string-valued by their type). *)
Definition trimmedNonEmpty (s : jsstring) : Prop := trim s = s ∧ s ≠ [].

Definition wellFormedOption (o : OptionAnalysis) : Prop :=
  trimmedNonEmpty (OptionAnalysis.name o)
  ∧ Forall trimmedNonEmpty (OptionAnalysis.pros o)
  ∧ Forall trimmedNonEmpty (OptionAnalysis.cons o).

Definition wellFormedTradeOff (t : TradeOff) : Prop :=
  trimmedNonEmpty (TradeOff.scenario t) ∧ trimmedNonEmpty (TradeOff.recommendation t).

Definition wellFormed (r : NormalizedComparisonResult) : Prop :=
  NormalizedComparisonResult.options r ≠ []
  ∧ Forall wellFormedOption (NormalizedComparisonResult.options r)
  ∧ Forall wellFormedTradeOff (NormalizedComparisonResult.tradeOffs r).

(** An entry of [options] that passes: an object with a string [name]
    that is non-empty once trimmed, and with arrays [pros] and [cons]. *)
Definition acceptedOption (entry : value) : Prop :=
  ∃ props name pros' cons',
    entry = VObj props
    ∧ lookupProperty (js "name") props = Some (VStr name)
    ∧ trim name ≠ []
    ∧ lookupProperty (js "pros") props = Some (VArr pros')
    ∧ lookupProperty (js "cons") props = Some (VArr cons').

(** A raw text that passes: it is not empty, the text extracted from it
    parses as an object, and that object has a non-empty array [options]
    whose entries all pass. *)
Definition accepted (raw : jsstring) : Prop :=
  raw ≠ []
  ∧ ∃ props options,
      JSON_parse (extractJson raw) = Some (VObj props)
      ∧ lookupProperty (js "options") props = Some (VArr options)
      ∧ options ≠ []
      ∧ Forall acceptedOption options.

(** No conversion of a score of [raw] to a string throws. *)
Definition convertible `{Engine} (raw : jsstring) : Prop :=
  ∀ parsed options,
    JSON_parse (extractJson raw) = Some parsed →
    getField parsed (js "options") = Some (VArr options) →
    Forall (λ option, ∃ scores, scoresOf option = Return scores) options.

(** An entry of [tradeOffs] that survives, and what it becomes: an
    object whose [scenario] and [recommendation] are strings that are
    non-empty once trimmed. *)
Definition keptTradeOff (entry : value) (t : TradeOff) : Prop :=
  ∃ props scenario recommendation,
    entry = VObj props
    ∧ lookupProperty (js "scenario") props = Some (VStr scenario)
    ∧ lookupProperty (js "recommendation") props = Some (VStr recommendation)
    ∧ trim scenario ≠ []
    ∧ trim recommendation ≠ []
    ∧ t = TradeOff.mk (trim scenario) (trim recommendation).

(** [survivors entries ts]: [ts] are the surviving entries, in their
    original order; every other entry is dropped on its own. *)
Inductive survivors : list value → list TradeOff → Prop :=
| survivors_nil : survivors [] []
| survivors_keep entry t entries ts :
    keptTradeOff entry t → survivors entries ts → survivors (entry :: entries) (t :: ts)
| survivors_drop entry entries ts :
    (∀ t, ¬ keptTradeOff entry t) → survivors entries ts → survivors (entry :: entries) ts.

(** The world after further events. *)
Definition extend (w : World) (events : list event) : World :=
  {| trace := trace w ++ events;
     comparisons := comparisons w;
     comparison_results := comparison_results w |}.

(** Outcomes after which the client tries again: a network-level failure,
    status 429, or a status of 500 and above. *)
Definition retryable (o : outcome) : Prop :=
  match o with
  | Rejected _ => True
  | Response status _ => (status = 429 ∨ 500 ≤ status)%Z
  end.

(** [k] failed attempts numbered from [attempt], each followed by its
    wait of [1000 * 2^(attempt-1)] milliseconds. *)
Fixpoint retries (r : request) (k : nat) (attempt : Z) : list event :=
  match k with
  | 0 => []
  | S k' => Fetch r :: Delay (1000 * 2 ^ (attempt - 1))%Z :: retries r k' (attempt + 1)%Z
  end.

(** The calls of a run in which every one of [n] attempts fails and is
    retried while attempts remain: a wait after each attempt but the
    last. *)
Definition exhausted (r : request) (n : nat) : list event :=
  match n with
  | 0 => []
  | S k => retries r k 1%Z ++ [Fetch r]
  end.

(** The world once the database has accepted a comparison request and
    generated [id] for it. *)
Definition afterRequest (w : World) (input : ComparisonInput) (id : jsstring) : World :=
  {| trace :=
       trace w ++ [Query (InsertComparison (ComparisonInput.options input)
                            (ComparisonInput.constraints input))];
     comparisons :=
       comparisons w ++ [(id, (ComparisonInput.options input,
                               ComparisonInput.constraints input))];
     comparison_results := comparison_results w |}.

(** What remains in the database when the run stops after the request
    was stored: the request row is still there, no result row was added,
    and no statement was sent after the first. *)
Definition requestOnly (w : World) (input : ComparisonInput) (id : jsstring) (w2 : World)
  : Prop :=
  comparisons w2
  = comparisons w ++ [(id, (ComparisonInput.options input,
                            ComparisonInput.constraints input))]
  ∧ comparison_results w2 = comparison_results w
  ∧ ∃ events,
      trace w2
      = trace w
          ++ Query (InsertComparison (ComparisonInput.options input)
                      (ComparisonInput.constraints input)) :: events
      ∧ Forall (λ e, isQuery e = false) events.

(** The options [executeComparison] passes to the completion client. *)
Definition promptFor (input : ComparisonInput) : GrokCompletionOptions :=
  GrokCompletionOptions.mk
    (buildComparisonPrompt (ComparisonInput.options input)
       (ComparisonInput.constraints input))
    None None.

(** ** An engine for closed examples

    Exact on integer literals written without fraction or exponent and
    below 2^53; the messages are stand-ins for the wording of a real
    engine, which no property below depends on. *)
Definition sampleEngine : Engine := {|
  numberIsZero := λ literal, forallb (λ c, negb (isDigit c) || (c =? 48)%N) literal;
  numberToString := λ literal,
    if forallb (λ c, negb (isDigit c) || (c =? 48)%N) literal then js "0" else literal;
  syntaxErrorMessage := λ _, js "Unexpected token in JSON";
  nullReadMessage := js "Cannot read properties of null (reading 'choices')";
  toPrimitiveMessage := js "Cannot convert object to primitive value"
|}.

(** ** Inputs of the closed examples *)

(** A configured environment whose endpoint gives the same outcome to
    every call and whose database accepts every statement. *)
Definition constantEnv (o : outcome) : Env :=
  {| GROQ_API_KEY := Some (js "key");
     endpoint := λ _, o;
     database := λ _, Inserted (js "id-1");
     now := js "2024-01-01T00:00:00.000Z" |}.

(** The same with a database that rejects every statement from the
    [n]-th on. *)
Definition failingDatabaseEnv (o : outcome) (n : nat) : Env :=
  {| GROQ_API_KEY := Some (js "key");
     endpoint := λ _, o;
     database := λ k, if (k <? n)%nat then Inserted (js "id-1") else QueryRejected;
     now := js "2024-01-01T00:00:00.000Z" |}.

(** The body of a chat completion whose message carries [content]. *)
Definition completionBody (content : jsstring) : jsstring :=
  @JSON_stringify sampleEngine
    (VObj [(js "choices",
            VArr [VObj [(js "message", VObj [(js "content", VStr content)])]])]).

(** The fenced completion of the specification's examples. *)
Definition fencedExample : jsstring :=
  jsq "```json
{'options':[{'name':'A','pros':[],'cons':[],'scores':{}}]}
```".

Definition optionA : OptionAnalysis := OptionAnalysis.mk (js "A") [] [] ∅.

Definition twoOptions : ComparisonInput :=
  ComparisonInput.mk [js "A"; js "B"] [js "cost"].

Definition promptOnly (text : jsstring) : GrokCompletionOptions :=
  GrokCompletionOptions.mk text None None.

(** A success payload whose message carries no content. *)
Definition messageWithoutContent : jsstring :=
  jsq "{'choices':[{'message':{}}]}".

(** A response in which a score is an object with an own [toString]
    property. *)
Definition scoreWithToString : jsstring :=
  jsq "{'options':[{'name':'A','pros':[],'cons':[],'scores':{'cost':{'toString':null}}}]}".

(** The same, followed by an entry of [options] that is not an object. *)
Definition scoreWithToStringThenNumber : jsstring :=
  jsq "{'options':[{'name':'A','pros':[],'cons':[],'scores':{'cost':{'toString':null}}},7]}".

(** A response in which a score is filed under the key [__proto__]. *)
Definition scoreUnderProto : jsstring :=
  jsq "{'options':[{'name':'A','pros':[],'cons':[],'scores':{'__proto__':'high','cost':'low'}}]}".

(** A response without [options]. *)
Definition withoutOptions : jsstring := jsq "{'tradeOffs':[]}".

(** A response with a trade-off that lacks its recommendation. *)
Definition tradeOffWithoutRecommendation : jsstring :=
  jsq "{'options':[{'name':'A','pros':[],'cons':[],'scores':{}}],'tradeOffs':[{'scenario':'x'}]}".

(** A well-formed result whose option name contains two fences. *)
Definition fencesInName : NormalizedComparisonResult :=
  NormalizedComparisonResult.mk [OptionAnalysis.mk (js "a```b```c") [] [] ∅] [].

(** A well-formed result with a score filed under [__proto__]. *)
Definition protoScore : NormalizedComparisonResult :=
  NormalizedComparisonResult.mk
    [OptionAnalysis.mk (js "A") [] [] {[ js "__proto__" := js "high" ]}] [].

(** A well-formed result with everything in it. *)
Definition fullResult : NormalizedComparisonResult :=
  NormalizedComparisonResult.mk
    [OptionAnalysis.mk (js "A") [js "fast"] [js "costly"] {[ js "cost" := js "high" ]};
     OptionAnalysis.mk (js "B") [] [jsq "says 'no'"] ∅]
    [TradeOff.mk (js "tight budget") (js "consider B")].

(** A response whose only pro is padded with spaces. *)
Definition paddedPros : jsstring :=
  jsq "{'options':[{'name':'A','pros':[' fast '],'cons':[]}]}".

(** * The rest of the application

    The request validation, the controllers and the routes of the
    backend, its database module, and the form and the result table of
    the frontend. *)

(** ** HTTP responses

    What a handler passes to [res.status(...).json(...)]. *)

Inductive payload :=
| ComparisonPayload (result : ComparisonResponse)
| ErrorPayload (error message : jsstring)
| ValidationPayload (error message : jsstring) (details : list jsstring)
| HealthPayload (status database grokApi timestamp : jsstring).

Module HttpResponse.
Record t := mk {
  status : Z;
  body : payload
}.
End HttpResponse.
Abbreviation HttpResponse := HttpResponse.t.

(** Messages of two further [TypeError]s of the engine. *)
Class Host := {
  (** a property of [undefined] is read *)
  undefinedReadMessage : jsstring;
  (** a value that is not a function is called *)
  notAFunctionMessage : jsstring
}.

(** ** Request validation (middleware/validateComparison.ts) *)

Definition isNonEmptyString (value : value) : bool :=
  match value with
  | VStr s => 0 <? length (trim s)
  | _ => false
  end.

(** The [forEach] of [validateStringArray] from [index] on, [errors]
    being what was pushed so far. *)
Fixpoint pushErrors (fieldName : jsstring) (index : nat) (arr : list value)
    (errors : list jsstring) : list jsstring :=
  match arr with
  | [] => errors
  | item :: rest =>
      pushErrors fieldName (S index) rest
        (if negb (isNonEmptyString item)
         then errors ++ [fieldName ++ js "[" ++ decimal index
                           ++ js "] must be a non-empty string"]
         else errors)
  end.

Definition validateStringArray (arr : list value) (fieldName : jsstring) : list jsstring :=
  pushErrors fieldName 0 arr [].

(** How the middleware ends: it answers, or it replaces the body of the
    request and calls [next()]. *)
Inductive verdict :=
| Responded (response : HttpResponse)
| Next (body : ComparisonInput).

Section Middleware.
Context `{Engine} `{Host}.

(** [(field as string[]).map(s => s.trim())]. *)
Definition trimAll (field : option value) : completion (list jsstring) :=
  match field with
  | Some (VArr arr) =>
      mapIndexed (λ s _,
        match s with
        | VStr s => Return (trim s)
        | VNull => Throw (TypeError nullReadMessage)
        | _ => Throw (TypeError notAFunctionMessage)
        end) 0 arr
  | Some VNull => Throw (TypeError nullReadMessage)
  | Some _ => Throw (TypeError notAFunctionMessage)
  | None => Throw (TypeError undefinedReadMessage)
  end.

(** [body] is [req.body], a value that [express.json()] parsed;
    [undefined] fields are [None]. *)
Definition validateComparisonRequest (body : value) : completion verdict :=
  match body with
  | VNull => Throw (TypeError nullReadMessage)
  | _ =>
      let errors := [] in
      let errors :=
        match getField body (js "options") with
        | Some options =>
            if negb (truthy options) then errors ++ [js "options is required"]
            else
              match options with
              | VArr arr =>
                  let errors :=
                    if length arr <? 2
                    then errors ++ [js "At least 2 options are required"]
                    else errors in
                  errors ++ validateStringArray arr (js "options")
              | _ => errors ++ [js "options must be an array"]
              end
        | None => errors ++ [js "options is required"]
        end in
      let errors :=
        match getField body (js "constraints") with
        | Some constraints =>
            if negb (truthy constraints) then errors ++ [js "constraints is required"]
            else
              match constraints with
              | VArr arr =>
                  let errors :=
                    if length arr <? 1
                    then errors ++ [js "At least 1 constraint is required"]
                    else errors in
                  errors ++ validateStringArray arr (js "constraints")
              | _ => errors ++ [js "constraints must be an array"]
              end
        | None => errors ++ [js "constraints is required"]
        end in
      if 0 <? length errors then
        Return (Responded
                  (HttpResponse.mk 400
                     (ValidationPayload (js "validation_error")
                        (js "Invalid comparison request") errors)))
      else
        options ← trimAll (getField body (js "options"));
        constraints ← trimAll (getField body (js "constraints"));
        Return (Next (ComparisonInput.mk options constraints))
  end.
End Middleware.

(** ** Comparison controller and route (controllers/comparisonController.ts,
    routes/index.ts, app.ts) *)

Definition internalError : HttpResponse :=
  HttpResponse.mk 500
    (ErrorPayload (js "internal_error") (js "An unexpected error occurred")).

Section Controller.
Context `{Engine} `{Host} (env : Env).

(** [createComparison], [input] being the [options] and [constraints]
    of [req.body]. *)
Definition createComparison (input : ComparisonInput) (w : World) : HttpResponse * World :=
  match executeComparison env input w with
  | (Return result, w') => (HttpResponse.mk 200 (ComparisonPayload result), w')
  | (Throw (ComparisonServiceError message code statusCode), w') =>
      (HttpResponse.mk statusCode (ErrorPayload code message), w')
  | (Throw _, w') => (internalError, w')
  end.

(** [router.post('/compare', validateComparisonRequest, createComparison)]
    under the error-handling middleware of [app.ts], which answers for
    whatever a handler throws. *)
Definition compareRoute (body : value) (w : World) : HttpResponse * World :=
  match validateComparisonRequest body with
  | Return (Responded response) => (response, w)
  | Return (Next body) => createComparison body w
  | Throw _ => (internalError, w)
  end.
End Controller.

(** The body of a request, as the object [{ options, constraints }]. *)
Definition requestBody (input : ComparisonInput) : value :=
  VObj [(js "options", VArr (VStr <$> ComparisonInput.options input));
        (js "constraints", VArr (VStr <$> ComparisonInput.constraints input))].

(** The detail that reports the element at [index] of a field. *)
Definition elementError (fieldName : jsstring) (index : nat) : jsstring :=
  fieldName ++ js "[" ++ decimal index ++ js "] must be a non-empty string".

(** A request that may go on: at least two options and one constraint,
    all of them trimmed and non-empty. *)
Definition validInput (input : ComparisonInput) : Prop :=
  2 ≤ length (ComparisonInput.options input)
  ∧ 1 ≤ length (ComparisonInput.constraints input)
  ∧ Forall trimmedNonEmpty (ComparisonInput.options input)
  ∧ Forall trimmedNonEmpty (ComparisonInput.constraints input).

(** ** Inputs of further closed examples *)

Definition sampleHost : Host := {|
  undefinedReadMessage := js "Cannot read properties of undefined";
  notAFunctionMessage := js "is not a function"
|}.

(** A body with padded entries. *)
Definition paddedBody : value :=
  VObj [(js "options", VArr [VStr (js " AWS"); VStr (js "Azure ")]);
        (js "constraints", VArr [VStr (js " cost ")])].

(** A body with a blank option and a constraint that is not a string. *)
Definition faultyBody : value :=
  VObj [(js "options", VArr [VStr (js "AWS"); VStr (js "  ")]);
        (js "constraints", VArr [VNull])].

(** The world once the database has accepted the result of the
    comparison [id], written as [text]. *)
Definition afterResult (w : World) (id text : jsstring) : World :=
  {| trace := trace w ++ [Query (InsertResult id text)];
     comparisons := comparisons w;
     comparison_results := comparison_results w ++ [(id, text)] |}.

(** The milliseconds a sequence of calls spends waiting. *)
Fixpoint waited (events : list event) : Z :=
  match events with
  | [] => 0
  | Delay ms :: rest => ms + waited rest
  | _ :: rest => waited rest
  end.

(** A completion endpoint that answers every call with the fenced
    example, and a database that generates the ids [id-1], [id-2]. *)
Definition fencedEnv : Env :=
  {| GROQ_API_KEY := Some (js "key");
     endpoint := λ _, Response 200 (completionBody fencedExample);
     database := λ n, Inserted (if n is 0 then js "id-1" else js "id-2");
     now := js "2024-01-01T00:00:00.000Z" |}.

(** An endpoint that is busy for the first two calls and then answers
    with [content]. *)
Definition busyTwiceEnv (content : jsstring) : Env :=
  {| GROQ_API_KEY := Some (js "key");
     endpoint := λ n, if (n <? 2)%nat then Response 503 (js "busy")
                      else Response 200 (completionBody content);
     database := λ _, Inserted (js "id-1");
     now := js "2024-01-01T00:00:00.000Z" |}.

(** An environment without a credential. *)
Definition unconfiguredEnv : Env :=
  {| GROQ_API_KEY := None;
     endpoint := λ _, Response 200 (completionBody fencedExample);
     database := λ _, Inserted (js "id-1");
     now := js "2024-01-01T00:00:00.000Z" |}.

(** What a call made for the request [input] looks like: the statement
    that stores a request stores [input], and a call of the endpoint
    sends the prompt built from [input]. *)
Definition sentFor (input : ComparisonInput) (e : event) : Prop :=
  match e with
  | Fetch r =>
      content r = buildComparisonPrompt (ComparisonInput.options input)
                    (ComparisonInput.constraints input)
  | Query (InsertComparison options constraints) =>
      options = ComparisonInput.options input
      ∧ constraints = ComparisonInput.constraints input
  | Query (InsertResult _ _) | Delay _ => True
  end.

(** A response whose option is padded and whose scores hold a string, a
    number, [null] and [true]. *)
Definition mixedScores : jsstring :=
  jsq "{'options':[{'name':' A ','pros':[],'cons':[],'scores':{'cost':'low','speed':7,'risk':null,'open':true}},{'name':'B','pros':[],'cons':[]}]}".

(** The first entry of [mixedScores] and what it normalizes to. *)
Definition scoredEntry : value :=
  VObj [(js "name", VStr (js " A ")); (js "pros", VArr []); (js "cons", VArr []);
        (js "scores",
         VObj [(js "cost", VStr (js "low")); (js "speed", VNum (js "7"));
               (js "risk", VNull); (js "open", VBool true)])].

Definition scoredOption : OptionAnalysis :=
  OptionAnalysis.mk (js "A") [] []
    (<[js "cost" := js "low"]> (<[js "speed" := js "7"]> (<[js "open" := js "true"]> ∅))).

(** ** Database module (db/index.ts) *)

(** How an awaited call of the pool or of a client ends. *)
Inductive answer :=
| Done
| Failed (reason : jsstring).

(** The calls of the pool and of its clients, each with its answer. *)
Inductive poolEvent :=
| Connect (a : answer)
| ClientQuery (text : jsstring) (a : answer)
| Release.

(** What the database answers to the n-th [pool.connect()] and to the
    n-th [client.query(...)]. *)
Record PoolEnv := {
  connects : nat → answer;
  statements : nat → answer
}.

Definition isConnect (e : poolEvent) : bool :=
  match e with Connect _ => true | _ => false end.

Definition isClientQuery (e : poolEvent) : bool :=
  match e with ClientQuery _ _ => true | _ => false end.

Definition calls (p : poolEvent → bool) (log : list poolEvent) : nat :=
  length (List.filter p log).

Definition CREATE_COMPARISONS : jsstring :=
  js "
      CREATE TABLE IF NOT EXISTS comparisons (
        id UUID PRIMARY KEY DEFAULT gen_random_uuid(),
        options TEXT[] NOT NULL,
        constraints TEXT[] NOT NULL,
        created_at TIMESTAMP DEFAULT CURRENT_TIMESTAMP
      )
    ".

Definition CREATE_COMPARISON_RESULTS : jsstring :=
  js "
      CREATE TABLE IF NOT EXISTS comparison_results (
        id UUID PRIMARY KEY DEFAULT gen_random_uuid(),
        comparison_id UUID REFERENCES comparisons(id),
        result JSONB NOT NULL,
        created_at TIMESTAMP DEFAULT CURRENT_TIMESTAMP
      )
    ".

Section Pool.
Context (db : PoolEnv).

Definition connect (log : list poolEvent) : answer * list poolEvent :=
  let a := connects db (calls isConnect log) in (a, log ++ [Connect a]).

Definition clientQuery (text : jsstring) (log : list poolEvent) : answer * list poolEvent :=
  let a := statements db (calls isClientQuery log) in (a, log ++ [ClientQuery text a]).

Definition checkConnection (log : list poolEvent) : bool * list poolEvent :=
  match connect log with
  | (Done, log) =>
      match clientQuery (js "SELECT 1") log with
      | (Done, log) => (true, log ++ [Release])
      | (Failed _, log) => (false, log)
      end
  | (Failed _, log) => (false, log)
  end.

(** [Done] when the promise resolves, [Failed] with the reason it
    rejects with. *)
Definition initializeDatabase (log : list poolEvent) : answer * list poolEvent :=
  match connect log with
  | (Failed reason, log) => (Failed reason, log)
  | (Done, log) =>
      match clientQuery CREATE_COMPARISONS log with
      | (Failed reason, log) => (Failed reason, log ++ [Release])
      | (Done, log) =>
          match clientQuery CREATE_COMPARISON_RESULTS log with
          | (Failed reason, log) => (Failed reason, log ++ [Release])
          | (Done, log) => (Done, log ++ [Release])
          end
      end
  end.
End Pool.

(** The number of clients checked out of the pool and not released. *)
Fixpoint held (log : list poolEvent) : Z :=
  match log with
  | [] => 0
  | Connect Done :: rest => 1 + held rest
  | Release :: rest => held rest - 1
  | _ :: rest => held rest
  end.

(** ** Health check (services/grokService.ts, controllers/healthController.ts) *)

(** The environment of a health check: the process configuration and
    the clock, the outcome of the n-th [GET /models], and the
    database. *)
Record HealthEnv := {
  base : Env;
  models : nat → outcome;
  pool : PoolEnv
}.

(** The state: the [Authorization] header of every [GET /models] sent
    so far, and the calls of the pool. *)
Record HealthWorld := {
  probes : list jsstring;
  poolLog : list poolEvent
}.

Section Health.
Context `{Engine} (env : HealthEnv).

Definition checkGrokConnection (probes : list jsstring) : bool * list jsstring :=
  match getApiKey (base env) with
  | Return apiKey =>
      let o := models env (length probes) in
      let probes := probes ++ [js "Bearer " ++ apiKey] in
      match o with
      | Response status _ => (ok status, probes)
      | Rejected _ => (false, probes)
      end
  | Throw _ => (false, probes)
  end.

(** The two checks run under [Promise.all]; they share no state. *)
Definition healthCheck (w : HealthWorld) : HttpResponse * HealthWorld :=
  let '(dbConnected, poolLog) := checkConnection (pool env) (poolLog w) in
  let '(grokConnected, probes) := checkGrokConnection (probes w) in
  let status := if dbConnected && grokConnected then js "healthy" else js "unhealthy" in
  let response :=
    HealthPayload status
      (if dbConnected then js "connected" else js "disconnected")
      (if grokConnected then js "connected" else js "disconnected")
      (now (base env)) in
  let statusCode := if decide (status = js "healthy") then 200%Z else 503%Z in
  (HttpResponse.mk statusCode response, {| probes := probes; poolLog := poolLog |}).
End Health.

(** A database that accepts connections and rejects every statement. *)
Definition deafPool : PoolEnv :=
  {| connects := λ _, Done; statements := λ _, Failed (js "timeout") |}.

(** A database whose second statement fails. *)
Definition secondFailsPool : PoolEnv :=
  {| connects := λ _, Done;
     statements := λ n, if n is 1 then Failed (js "syntax error") else Done |}.

(** ** Comparison form (frontend, components/ComparisonForm.tsx) *)

(** The state of the component: the two lists of fields and the two
    optional error messages. *)
Module Form.
Record t := mk {
  options : list jsstring;
  constraints : list jsstring;
  optionsError : option jsstring;
  constraintsError : option jsstring
}.
End Form.
Abbreviation Form := Form.t.

(** [useState(['', ''])], [useState([''])], [useState({})]. *)
Definition initialForm : Form := Form.mk [[]; []] [[]] None None.

Definition addOption (f : Form) : Form :=
  Form.mk (Form.options f ++ [[]]) (Form.constraints f)
    (Form.optionsError f) (Form.constraintsError f).

(** [options.filter((_, i) => i !== index)] removes the element at
    [index], if there is one. *)
Definition removeOption (index : nat) (f : Form) : Form :=
  if 2 <? length (Form.options f) then
    Form.mk (delete index (Form.options f)) (Form.constraints f)
      (Form.optionsError f) (Form.constraintsError f)
  else f.

(** [index] is the position of a rendered field, hence within bounds,
    where the assignment replaces an element. *)
Definition updateOption (index : nat) (value : jsstring) (f : Form) : Form :=
  Form.mk (<[index := value]> (Form.options f)) (Form.constraints f)
    None (Form.constraintsError f).

Definition addConstraint (f : Form) : Form :=
  Form.mk (Form.options f) (Form.constraints f ++ [[]])
    (Form.optionsError f) (Form.constraintsError f).

Definition removeConstraint (index : nat) (f : Form) : Form :=
  if 1 <? length (Form.constraints f) then
    Form.mk (Form.options f) (delete index (Form.constraints f))
      (Form.optionsError f) (Form.constraintsError f)
  else f.

Definition updateConstraint (index : nat) (value : jsstring) (f : Form) : Form :=
  Form.mk (Form.options f) (<[index := value]> (Form.constraints f))
    (Form.optionsError f) None.

(** [opt.trim() !== ''] *)
Definition notBlank (s : jsstring) : bool := negb (isEmpty (trim s)).

(** [validate()]: the new state and what it returns. *)
Definition validate (f : Form) : Form * bool :=
  let validOptions := List.filter notBlank (Form.options f) in
  let optionsError :=
    if length validOptions <? 2
    then Some (js "Please provide at least 2 options to compare")
    else None in
  let validConstraints := List.filter notBlank (Form.constraints f) in
  let constraintsError :=
    if length validConstraints <? 1
    then Some (js "Please provide at least 1 constraint")
    else None in
  (Form.mk (Form.options f) (Form.constraints f) optionsError constraintsError,
   match optionsError, constraintsError with
   | None, None => true
   | _, _ => false
   end).

(** [handleSubmit]: the new state and the request passed to
    [onSubmit], if any. *)
Definition handleSubmit (f : Form) : Form * option ComparisonInput :=
  let '(f', valid) := validate f in
  if negb valid then (f', None)
  else
    let validOptions := List.filter notBlank (Form.options f) in
    let validConstraints := List.filter notBlank (Form.constraints f) in
    (f', Some (ComparisonInput.mk validOptions validConstraints)).

(** What the user can do with the rendered form. Every field has its
    input, so a field is updated at an index within bounds. *)
Inductive formStep : Form → Form → Prop :=
| step_addOption f : formStep f (addOption f)
| step_removeOption f index : formStep f (removeOption index f)
| step_updateOption f index value :
    index < length (Form.options f) → formStep f (updateOption index value f)
| step_addConstraint f : formStep f (addConstraint f)
| step_removeConstraint f index : formStep f (removeConstraint index f)
| step_updateConstraint f index value :
    index < length (Form.constraints f) → formStep f (updateConstraint index value f)
| step_submit f : formStep f (handleSubmit f).1.

(** The states the form can be in. *)
Inductive reachable : Form → Prop :=
| reachable_initial : reachable initialForm
| reachable_step f f' : reachable f → formStep f f' → reachable f'.

(** A form with a blank row among its options. *)
Definition filledForm : Form :=
  Form.mk [js " AWS"; js "  "; js "Azure "] [js " cost "] None None.

(** ** Result table (frontend, components/ComparisonResult.tsx) *)

(** [allConstraints.add(constraint)]: a [Set] keeps its elements in
    the order of their first insertion. *)
Definition setAdd (set : list jsstring) (constraint : jsstring) : list jsstring :=
  if decide (constraint ∈ set) then set else set ++ [constraint].

(** [Object.keys(option.scores)], in the order the map lists them. *)
Definition scoreKeys (o : OptionAnalysis) : list jsstring :=
  (map_to_list (OptionAnalysis.scores o)).*1.

Definition allConstraints (options : list OptionAnalysis) : list jsstring :=
  foldl (λ set o, foldl setAdd set (scoreKeys o)) [] options.

(** The names every object inherits from [Object.prototype]. *)
Definition objectPrototypeNames : list jsstring :=
  [js "constructor"; js "hasOwnProperty"; js "isPrototypeOf";
   js "propertyIsEnumerable"; js "toLocaleString"; js "toString"; js "valueOf";
   js "__proto__"; js "__defineGetter__"; js "__defineSetter__";
   js "__lookupGetter__"; js "__lookupSetter__"].

(** The placeholder of the source, as the file has it. *)
Definition PLACEHOLDER : jsstring := [226; 8364; 8221]%N.

(** What a cell holds: a text, or the member of [Object.prototype]
    that the lookup finds when the scores have no such key. *)
Inductive cell :=
| Text (s : jsstring)
| Inherited (name : jsstring).

(** [option.scores[constraint] || PLACEHOLDER] *)
Definition cellOf (o : OptionAnalysis) (constraint : jsstring) : cell :=
  match OptionAnalysis.scores o !! constraint with
  | Some s => if isEmpty s then Text PLACEHOLDER else Text s
  | None =>
      if decide (constraint ∈ objectPrototypeNames) then Inherited constraint
      else Text PLACEHOLDER
  end.

Module Table.
Record t := mk {
  header : list jsstring;
  rows : list (jsstring * list cell)
}.
End Table.
Abbreviation Table := Table.t.

(** The table the component renders; [None] when it renders nothing. *)
Definition ComparisonResult (options : list OptionAnalysis) : option Table :=
  if length options =? 0 then None
  else
    let constraints := allConstraints options in
    Some (Table.mk (OptionAnalysis.name <$> options)
            ((λ constraint, (constraint, (λ o, cellOf o constraint) <$> options))
               <$> constraints)).

(** A reply in which prose surrounds the object. *)
Definition proseExample : jsstring :=
  jsq "Here is the comparison: {'options':[{'name':'A','pros':[],'cons':[],'scores':{}}]} Hope it helps.".

(** ** API service and home page (frontend, services/api.ts,
    pages/HomePage.tsx) *)

(** [s.includes(p)] *)
Fixpoint includes (p s : jsstring) : bool :=
  startsWith p s
  || match s with
     | [] => false
     | _ :: s' => includes p s'
     end.

(** What the service throws: its own error, or whatever it lets
    through. *)
Inductive failure :=
| ApiRequestError (message : jsstring) (statusCode : Z) (errorType : option value)
| Thrown (e : exn).

(** How a promise of the service settles. *)
Inductive settled :=
| Resolved (data : value)
| RejectedWith (f : failure).

Definition failureMessage (f : failure) : jsstring :=
  match f with
  | ApiRequestError message _ _ => message
  | Thrown e => message e
  end.

Section Api.
Context `{Engine}.

(** The [try] block of [fetchApi], [o] being how [fetch] ends: with a
    [TypeError] or with a response. [new ApiRequestError(message, ...)]
    converts its message to a string. *)
Definition fetchApiTry (o : outcome) : settled :=
  match o with
  | Rejected reason => RejectedWith (Thrown (TypeError reason))
  | Response status body =>
      match JSON_parse body with
      | None => RejectedWith (Thrown (SyntaxError (syntaxErrorMessage body)))
      | Some data =>
          if negb (ok status) then
            match data with
            | VNull => RejectedWith (Thrown (TypeError nullReadMessage))
            | _ =>
                let message :=
                  match getField data (js "message") with
                  | Some message =>
                      if truthy message then toString message
                      else Return (js "An error occurred")
                  | None => Return (js "An error occurred")
                  end in
                match message with
                | Return message =>
                    RejectedWith
                      (ApiRequestError message status (getField data (js "error")))
                | Throw e => RejectedWith (Thrown e)
                end
            end
          else Resolved data
      end
  end.

(** The [catch] block of [fetchApi]. *)
Definition fetchApiCatch (tried : settled) : settled :=
  match tried with
  | Resolved data => Resolved data
  | RejectedWith (ApiRequestError message statusCode errorType) =>
      RejectedWith (ApiRequestError message statusCode errorType)
  | RejectedWith (Thrown (TypeError message)) =>
      if includes (js "fetch") message then
        RejectedWith
          (ApiRequestError
             (js "Unable to connect to the server. Please check your connection.") 0
             (Some (VStr (js "network_error"))))
      else RejectedWith (Thrown (TypeError message))
  | RejectedWith (Thrown (SyntaxError _)) =>
      RejectedWith
        (ApiRequestError (js "Invalid response from server") 500
           (Some (VStr (js "parse_error"))))
  | RejectedWith (Thrown e) => RejectedWith (Thrown e)
  end.

Definition fetchApi (o : outcome) : settled := fetchApiCatch (fetchApiTry o).
End Api.

(** The state the home page works on: the result and the flags of
    [App], and the current route. *)
Module Page.
Record t := mk {
  comparisonResult : option value;
  isLoading : bool;
  error : option jsstring;
  route : jsstring
}.
End Page.
Abbreviation Page := Page.t.

(** [handleSubmit] of the home page, [o] being how the [fetch] of
    [postCompare] ends. *)
Definition submitComparison `{Engine} (o : outcome) (page : Page) : Page :=
  match fetchApi o with
  | Resolved result => Page.mk (Some result) false None (js "/result")
  | RejectedWith err =>
      Page.mk (Page.comparisonResult page) false (Some (failureMessage err))
        (Page.route page)
  end.

(** The object a handler passes to [res.json(...)], as a value. *)
Definition payloadToValue (p : payload) : value :=
  match p with
  | ComparisonPayload result =>
      VObj [(js "id", VStr (ComparisonResponse.id result));
            (js "options", VArr (optionToValue <$> ComparisonResponse.options result));
            (js "tradeOffs", VArr (tradeOffToValue <$> ComparisonResponse.tradeOffs result));
            (js "createdAt", VStr (ComparisonResponse.createdAt result))]
  | ErrorPayload error message =>
      VObj [(js "error", VStr error); (js "message", VStr message)]
  | ValidationPayload error message details =>
      VObj [(js "error", VStr error); (js "message", VStr message);
            (js "details", VArr (VStr <$> details))]
  | HealthPayload status database grokApi timestamp =>
      VObj [(js "status", VStr status); (js "database", VStr database);
            (js "grokApi", VStr grokApi); (js "timestamp", VStr timestamp)]
  end.

(** [res.status(...).json(...)], as the browser receives it. *)
Definition serve `{Engine} (response : HttpResponse) : outcome :=
  Response (HttpResponse.status response)
    (JSON_stringify (payloadToValue (HttpResponse.body response))).

(** A configured environment whose endpoint answers every call with a
    success payload whose message has no content. *)
Definition silentEnv : Env :=
  {| GROQ_API_KEY := Some (js "key");
     endpoint := λ _, Response 200 messageWithoutContent;
     database := λ _, Inserted (js "id-1");
     now := js "2024-01-01T00:00:00.000Z" |}.

(** * Properties *)

(** ** Strings *)

Lemma trimStart_spec (s : jsstring) :
  ∃ w, s = w ++ trimStart s ∧ Forall (λ c, isWhiteSpace c = true) w.
Proof.
  induction s as [|c s IH]; simpl.
  - exists []. by split.
  - destruct (isWhiteSpace c) eqn:Hc.
    + destruct IH as (w & Hs & Hw). exists (c :: w). split.
      * simpl. by f_equal.
      * by constructor.
    + exists []. by split.
Qed.

Lemma trimStart_head (s : jsstring) c t :
  trimStart s = c :: t → isWhiteSpace c = false.
Proof.
  induction s as [|d s IH]; simpl; [done|].
  destruct (isWhiteSpace d) eqn:Hd; [done|].
  intros [= -> ->]. done.
Qed.

Lemma trimStart_fixed c (s : jsstring) :
  isWhiteSpace c = false → trimStart (c :: s) = c :: s.
Proof. intros Hc. simpl. by rewrite Hc. Qed.

Lemma trimStart_ws_app (w s : jsstring) :
  Forall (λ c, isWhiteSpace c = true) w → trimStart (w ++ s) = trimStart s.
Proof.
  induction 1 as [|c w Hc _ IH]; simpl; [done|]. by rewrite Hc.
Qed.

Lemma trimStart_idem (s : jsstring) : trimStart (trimStart s) = trimStart s.
Proof.
  destruct (trimStart s) as [|c t] eqn:E; [done|].
  apply trimStart_fixed. by eapply trimStart_head.
Qed.

Lemma trimEnd_nil : trimEnd [] = [].
Proof. done. Qed.

(** [trimEnd] keeps a prefix, so the head of a non-empty result is the
    head of the argument. *)
Lemma trimEnd_prefix (s : jsstring) :
  ∃ w, s = trimEnd s ++ w ∧ Forall (λ c, isWhiteSpace c = true) w.
Proof.
  unfold trimEnd. destruct (trimStart_spec (reverse s)) as (w & Hs & Hw).
  exists (reverse w). split.
  - rewrite <- reverse_app, <- Hs. by rewrite reverse_involutive.
  - by apply Forall_reverse.
Qed.

Lemma trimEnd_last (s : jsstring) c t :
  reverse (trimEnd s) = c :: t → isWhiteSpace c = false.
Proof.
  unfold trimEnd. rewrite reverse_involutive. apply trimStart_head.
Qed.

Lemma trimEnd_idem (s : jsstring) : trimEnd (trimEnd s) = trimEnd s.
Proof.
  unfold trimEnd. rewrite reverse_involutive. by rewrite trimStart_idem.
Qed.

Lemma trim_idem (s : jsstring) : trim (trim s) = trim s.
Proof.
  unfold trim.
  destruct (trimEnd (trimStart s)) as [|c t] eqn:E; [done|].
  assert (isWhiteSpace c = false) as Hc.
  { destruct (trimEnd_prefix (trimStart s)) as (w & Hs & _).
    rewrite E in Hs. simpl in Hs. by eapply trimStart_head. }
  rewrite trimStart_fixed by done.
  rewrite <- E. apply trimEnd_idem.
Qed.

(** Leading white space does not change the trimmed text. *)
Lemma trim_ws_app (w s : jsstring) :
  Forall (λ c, isWhiteSpace c = true) w → trim (w ++ s) = trim s.
Proof. intros Hw. unfold trim. by rewrite trimStart_ws_app. Qed.

Lemma isEmpty_false (s : jsstring) : isEmpty s = false ↔ s ≠ [].
Proof. by destruct s. Qed.

Lemma isEmpty_true (s : jsstring) : isEmpty s = true ↔ s = [].
Proof. by destruct s. Qed.

(** ** Completions *)

Lemma bind_Return {A B} (c : completion A) (k : A → completion B) b :
  c ≫= k = Return b → ∃ a, c = Return a ∧ k a = Return b.
Proof. destruct c as [a|e]; simpl; [eauto | done]. Qed.

Lemma mapIndexed_Return {A B} (f : A → nat → completion B) i xs ys :
  mapIndexed f i xs = Return ys →
  length ys = length xs
  ∧ ∀ k y, ys !! k = Some y → ∃ x, xs !! k = Some x ∧ f x (i + k) = Return y.
Proof.
  revert i ys. induction xs as [|x xs IH]; intros i ys; simpl.
  - intros [= <-]. split; [done|]. intros k y. by rewrite lookup_nil.
  - intros Hb. apply bind_Return in Hb as (y0 & Hy0 & Hb).
    apply bind_Return in Hb as (ys0 & Hys0 & [= <-]).
    apply IH in Hys0 as [Hlen Hk]. split; [simpl; by f_equal|].
    intros [|k] y; simpl.
    + intros [= <-]. exists x. by rewrite Nat.add_0_r.
    + intros Hy. apply Hk in Hy as (x' & Hx' & Hf). exists x'.
      by rewrite Nat.add_succ_r.
Qed.

(** ** Normalizer: what a successful validation says *)

Section NormalizerFacts.
Context `{Engine}.

Lemma nonBlankString_Some v s :
  nonBlankString v = Some s ↔ v = VStr s ∧ trim s ≠ [].
Proof.
  destruct v; simpl; try (split; [done | by intros [? _]]).
  destruct (isEmpty (trim s0)) eqn:E.
  - apply isEmpty_true in E. split; [done|]. intros [[= ->] ?]. done.
  - apply isEmpty_false in E. split.
    + by intros [= ->].
    + by intros [[= ->] _].
Qed.

Lemma validateOption_Return option index o :
  validateOption option index = Return o →
  ∃ name ps cs,
    getField option (js "name") = Some (VStr name)
    ∧ trim name ≠ []
    ∧ getField option (js "pros") = Some (VArr ps)
    ∧ getField option (js "cons") = Some (VArr cs)
    ∧ scoresOf option = Return (OptionAnalysis.scores o)
    ∧ o = OptionAnalysis.mk (trim name) (omap nonBlankString ps)
            (omap nonBlankString cs) (OptionAnalysis.scores o).
Proof.
  unfold validateOption, scoresOf. intros Hv.
  repeat case_match; simplify_eq/=;
    try match goal with
        | Hb : _ ≫= _ = Return _ |- _ =>
            apply bind_Return in Hb as (sc & Hsc & [= <-])
        end;
    eexists _, _, _; repeat split; eauto;
    by apply isEmpty_false.
Qed.

Lemma omap_nonBlankString_Forall (vs : list value) :
  Forall (λ p, trim p ≠ []) (omap nonBlankString vs).
Proof.
  apply Forall_forall. intros p Hp.
  apply list_elem_of_omap in Hp as (v & _ & Hv).
  by apply nonBlankString_Some in Hv as [_ ?].
Qed.

Lemma omap_nonBlankString_sublist (vs : list value) :
  sublist (VStr <$> omap nonBlankString vs) vs.
Proof.
  induction vs as [|v vs IH]; simpl; [constructor|].
  destruct (nonBlankString v) as [s|] eqn:E; simpl.
  - apply nonBlankString_Some in E as [-> _]. by constructor.
  - by constructor.
Qed.

Lemma omap_nonBlankString_complete (vs : list value) (s : jsstring) :
  VStr s ∈ vs → trim s ≠ [] → s ∈ omap nonBlankString vs.
Proof.
  intros Hin Hs. apply list_elem_of_omap. exists (VStr s). split; [done|].
  by apply nonBlankString_Some.
Qed.

Lemma normalizeGrokResponse_Return raw r :
  normalizeGrokResponse raw = Return r →
  ∃ text parsed,
    raw = VStr text ∧ text ≠ []
    ∧ JSON_parse (extractJson text) = Some parsed
    ∧ normalizeParsed parsed = Return r.
Proof.
  unfold normalizeGrokResponse. intros Hn.
  repeat case_match; simplify_eq/=.
  eexists _, _. repeat split; eauto. by apply isEmpty_false.
Qed.

Lemma normalizeParsed_Return parsed r :
  normalizeParsed parsed = Return r →
  ∃ opts,
    getField parsed (js "options") = Some (VArr opts)
    ∧ opts ≠ []
    ∧ mapIndexed validateOption 0 opts = Return (NormalizedComparisonResult.options r).
Proof.
  unfold normalizeParsed. intros Hn.
  repeat case_match; simplify_eq/=;
    apply bind_Return in Hn as (os & Hos & [= <-]);
    eexists; repeat split; eauto.
Qed.
End NormalizerFacts.

(** ** C3: shape of the normalized options *)

(** C3, as stated, fails: the filter on [pros] and [cons] keeps an element
    whose trimmed text is non-empty, but keeps it untrimmed. On
    [paddedPros] the call succeeds and returns the pro [" fast "], which
    is not a trimmed string. *)
Lemma C3_counterexample :
  @normalizeGrokResponse sampleEngine (VStr paddedPros)
  = Return (NormalizedComparisonResult.mk
              [OptionAnalysis.mk (js "A") [js " fast "] [] ∅] [])
  ∧ trim (js " fast ") ≠ js " fast ".
Proof. split; [reflexivity | discriminate]. Qed.

(** C3 (amended). After every successful call of [normalizeGrokResponse],
    every returned option has a trimmed, non-empty [name], and every
    element of its [pros] and [cons] is a string that is non-empty after
    trimming (the element itself is kept as it was, untrimmed). Moreover
    [validateOption] filters without failing: the strings it returns are,
    in their original order, exactly the string elements of the input
    arrays that are not blank; non-strings and blank strings are left
    out. *)
Theorem C3_normalized_options_invariant `{Engine} :
  (∀ raw r,
     normalizeGrokResponse raw = Return r →
     Forall (λ o,
         trim (OptionAnalysis.name o) = OptionAnalysis.name o
         ∧ OptionAnalysis.name o ≠ []
         ∧ Forall (λ p, trim p ≠ []) (OptionAnalysis.pros o)
         ∧ Forall (λ p, trim p ≠ []) (OptionAnalysis.cons o))
       (NormalizedComparisonResult.options r))
  ∧ (∀ option index o,
       validateOption option index = Return o →
       ∃ ps cs,
         getField option (js "pros") = Some (VArr ps)
         ∧ getField option (js "cons") = Some (VArr cs)
         ∧ sublist (VStr <$> OptionAnalysis.pros o) ps
         ∧ sublist (VStr <$> OptionAnalysis.cons o) cs
         ∧ (∀ s, VStr s ∈ ps → trim s ≠ [] → s ∈ OptionAnalysis.pros o)
         ∧ (∀ s, VStr s ∈ cs → trim s ≠ [] → s ∈ OptionAnalysis.cons o)).
Proof.
  split.
  - intros raw r Hn.
    apply normalizeGrokResponse_Return in Hn as (text & parsed & -> & _ & _ & Hn).
    apply normalizeParsed_Return in Hn as (opts & _ & _ & Hm).
    apply mapIndexed_Return in Hm as [_ Hm].
    apply Forall_lookup. intros k o Ho.
    apply Hm in Ho as (x & _ & Hv).
    apply validateOption_Return in Hv as (name & ps & cs & _ & Hname & _ & _ & _ & ->).
    simpl. repeat split.
    + apply trim_idem.
    + done.
    + apply omap_nonBlankString_Forall.
    + apply omap_nonBlankString_Forall.
  - intros option index o Hv.
    apply validateOption_Return in Hv as (name & ps & cs & _ & _ & Hps & Hcs & _ & ->).
    exists ps, cs. simpl. repeat split; try done.
    + apply omap_nonBlankString_sublist.
    + apply omap_nonBlankString_sublist.
    + apply omap_nonBlankString_complete.
    + apply omap_nonBlankString_complete.
Qed.

Lemma C3_witness :
  Forall (λ o,
      trim (OptionAnalysis.name o) = OptionAnalysis.name o
      ∧ OptionAnalysis.name o ≠ []
      ∧ Forall (λ p, trim p ≠ []) (OptionAnalysis.pros o)
      ∧ Forall (λ p, trim p ≠ []) (OptionAnalysis.cons o))
    [OptionAnalysis.mk (js "A") [js " fast "] [] ∅]
  ∧ ∃ ps cs,
      @getField (VObj [(js "name", VStr (js "A")); (js "pros", VArr [VNull]);
                       (js "cons", VArr [])]) (js "pros") = Some (VArr ps)
      ∧ @getField (VObj [(js "name", VStr (js "A")); (js "pros", VArr [VNull]);
                         (js "cons", VArr [])]) (js "cons") = Some (VArr cs)
      ∧ sublist (VStr <$> []) ps
      ∧ sublist (VStr <$> []) cs
      ∧ (∀ s, VStr s ∈ ps → trim s ≠ [] → s ∈ [])
      ∧ (∀ s, VStr s ∈ cs → trim s ≠ [] → s ∈ []).
Proof.
  split.
  - apply (proj1 (@C3_normalized_options_invariant sampleEngine)
             (VStr paddedPros)
             (NormalizedComparisonResult.mk
                [OptionAnalysis.mk (js "A") [js " fast "] [] ∅] [])).
    reflexivity.
  - apply (proj2 (@C3_normalized_options_invariant sampleEngine)
             (VObj [(js "name", VStr (js "A")); (js "pros", VArr [VNull]);
                    (js "cons", VArr [])])
             0
             (OptionAnalysis.mk (js "A") [] [] ∅)).
    reflexivity.
Defined.

(** ** The trace of a run *)

Lemma record_extend e w : record e w = extend w [e].
Proof. done. Qed.

Lemma extend_nil w : extend w [] = w.
Proof. destruct w. unfold extend. simpl. by rewrite app_nil_r. Qed.

Lemma extend_extend w a b : extend (extend w a) b = extend w (a ++ b).
Proof. unfold extend. simpl. by rewrite <- app_assoc. Qed.

Lemma count_app p a b : count p (a ++ b) = count p a + count p b.
Proof. unfold count. by rewrite List.filter_app, length_app. Qed.

Lemma fetchCount_extend w evs :
  fetchCount (extend w evs) = fetchCount w + count isFetch evs.
Proof. unfold fetchCount, extend. simpl. apply count_app. Qed.

Lemma queryCount_extend w evs :
  queryCount (extend w evs) = queryCount w + count isQuery evs.
Proof. unfold queryCount, extend. simpl. apply count_app. Qed.

Lemma retries_fetches r k attempt : count isFetch (retries r k attempt) = k.
Proof.
  revert attempt. induction k as [|k IH]; intros attempt; [done|].
  unfold count in *. simpl. by rewrite IH.
Qed.

Lemma retries_snoc r k attempt :
  retries r (S k) attempt
  = retries r k attempt
      ++ [Fetch r; Delay (1000 * 2 ^ (attempt + Z.of_nat k - 1))%Z].
Proof.
  revert attempt. induction k as [|k IH]; intros attempt.
  - simpl. by rewrite Z.add_0_r.
  - change (retries r (S (S k)) attempt)
      with (Fetch r :: Delay (1000 * 2 ^ (attempt - 1))%Z :: retries r (S k) (attempt + 1)%Z).
    rewrite IH. simpl. do 2 f_equal.
    replace (attempt + 1 + Z.of_nat k - 1)%Z with (attempt + Z.of_nat (S k) - 1)%Z by lia.
    done.
Qed.

(** ** Completion client: one iteration of the loop *)

Section ClientFacts.
Context `{Engine} (env : Env).

Lemma backoff_eq attempt : backoff attempt = (1000 * 2 ^ (attempt - 1))%Z.
Proof. done. Qed.

Lemma attempts_S r maxRetries n attempt w :
  attempts env r maxRetries (S n) attempt w
  = match tryBlock maxRetries attempt (endpoint env (fetchCount w)) (record (Fetch r) w) with
    | (Return (Returned v), w') => (Return v, w')
    | (Return Continue, w') => attempts env r maxRetries n (attempt + 1)%Z w'
    | (Throw error, w') =>
        match error with
        | GrokApiError _ _ isRetryable =>
            if negb isRetryable || (attempt =? maxRetries)%Z then (Throw error, w')
            else attempts env r maxRetries n (attempt + 1)%Z
                   (record (Delay (backoff attempt)) w')
        | _ =>
            if (attempt =? maxRetries)%Z then
              (Throw (createGrokError
                        (js "Groq API request failed after " ++ decimalZ maxRetries
                           ++ js " attempts: " ++ message error) None), w')
            else attempts env r maxRetries n (attempt + 1)%Z
                   (record (Delay (backoff attempt)) w')
        end
    end.
Proof. done. Qed.

(** A retryable failure on an attempt that is not the last: wait, then
    go on with the next attempt. *)
Lemma attempts_retry_once r maxRetries n attempt w :
  retryable (endpoint env (fetchCount w)) →
  attempt ≠ maxRetries →
  attempts env r maxRetries (S n) attempt w
  = attempts env r maxRetries n (attempt + 1)%Z
      (extend w [Fetch r; Delay (1000 * 2 ^ (attempt - 1))%Z]).
Proof.
  intros Hr Hlast. rewrite attempts_S.
  apply Z.eqb_neq in Hlast.
  destruct (endpoint env (fetchCount w)) as [reason|status body]; cbn in *.
  - rewrite Hlast. by rewrite !record_extend, extend_extend.
  - assert (ok status = false) as ->.
    { unfold ok. destruct Hr as [->|Hr]; [done|]. apply andb_false_iff. right. lia. }
    unfold createGrokError.
    assert (((status =? 429) || (status >=? 500))%Z = true) as ->.
    { destruct Hr as [->|Hr]; [done|]. apply orb_true_iff. right. lia. }
    cbn. rewrite Hlast. cbn. by rewrite !record_extend, extend_extend.
Qed.

(** A retryable failure on the last attempt: the call fails. *)
Lemma attempts_retry_last r maxRetries n w :
  retryable (endpoint env (fetchCount w)) →
  ∃ msg code retry,
    attempts env r maxRetries (S n) maxRetries w
    = (Throw (GrokApiError msg code retry), extend w [Fetch r]).
Proof.
  intros Hr. rewrite attempts_S.
  destruct (endpoint env (fetchCount w)) as [reason|status body]; cbn in *.
  - rewrite Z.eqb_refl. by eexists _, _, _.
  - assert (ok status = false) as ->.
    { unfold ok. destruct Hr as [->|Hr]; [done|]. apply andb_false_iff. right. lia. }
    cbn. rewrite Z.eqb_refl, orb_true_r. cbn.
    rewrite orb_true_r. by eexists _, _, _.
Qed.

(** Any other non-success status: the call fails at once, whatever the
    attempt. *)
Lemma attempts_fatal r maxRetries n attempt w status body :
  endpoint env (fetchCount w) = Response status body →
  ok status = false → status ≠ 429%Z → (status < 500)%Z →
  attempts env r maxRetries (S n) attempt w
  = (Throw (GrokApiError (js "Groq API error: " ++ decimalZ status ++ js " - " ++ body)
              (Some status) false),
     extend w [Fetch r]).
Proof.
  intros Ho Hok H429 H500. rewrite attempts_S, Ho. cbn. rewrite Hok.
  unfold createGrokError.
  assert (((status =? 429) || (status >=? 500))%Z = false) as ->.
  { apply orb_false_iff. split; lia. }
  done.
Qed.

(** [k] retryable failures in a row, none of them on the last attempt. *)
Lemma attempts_retries r maxRetries k n attempt w :
  (∀ i, i < k → retryable (endpoint env (fetchCount w + i))) →
  (attempt + Z.of_nat k ≤ maxRetries)%Z →
  attempts env r maxRetries (k + n) attempt w
  = attempts env r maxRetries n (attempt + Z.of_nat k)%Z (extend w (retries r k attempt)).
Proof.
  revert attempt w. induction k as [|k IH]; intros attempt w Hr Hle.
  - simpl. by rewrite Z.add_0_r, extend_nil.
  - change (S k + n) with (S (k + n)).
    rewrite attempts_retry_once.
    + rewrite IH.
      * rewrite extend_extend.
        replace (attempt + Z.of_nat (S k))%Z with (attempt + 1 + Z.of_nat k)%Z by lia.
        done.
      * intros i Hi. rewrite fetchCount_extend.
        change (count isFetch [Fetch r; Delay (1000 * 2 ^ (attempt - 1))%Z]) with 1.
        replace (fetchCount w + 1 + i) with (fetchCount w + S i) by lia.
        apply Hr. lia.
      * lia.
    + specialize (Hr 0). rewrite Nat.add_0_r in Hr. apply Hr. lia.
    + lia.
Qed.

(** The loop adds only calls of the endpoint and waits to the trace, at
    most one call per iteration, and leaves the tables alone. *)
Lemma attempts_trace r maxRetries n attempt w :
  ∃ events,
    (attempts env r maxRetries n attempt w).2 = extend w events
    ∧ count isFetch events ≤ n
    ∧ Forall (λ e, isQuery e = false) events.
Proof.
  revert attempt w. induction n as [|n IH]; intros attempt w.
  - exists []. split; [by rewrite extend_nil|].
    split; [unfold count; simpl; lia | constructor].
  - rewrite attempts_S.
    assert (∀ a evs,
              count isFetch evs = 0 → Forall (λ e, isQuery e = false) evs →
              ∃ events,
                (attempts env r maxRetries n a (extend (record (Fetch r) w) evs)).2
                = extend w events
                ∧ count isFetch events ≤ S n
                ∧ Forall (λ e, isQuery e = false) events) as Hnext.
    { intros a evs Hf Hq.
      destruct (IH a (extend (record (Fetch r) w) evs)) as (events & -> & Hlen & Hnq).
      exists ((Fetch r :: evs) ++ events). rewrite record_extend, !extend_extend.
      split; [done|]. split.
      - rewrite count_app. change (count isFetch (Fetch r :: evs)) with (S (count isFetch evs)).
        lia.
      - apply Forall_app. split; [by constructor | done]. }
    assert (∃ events,
              record (Fetch r) w = extend w events
              ∧ count isFetch events ≤ S n
              ∧ Forall (λ e, isQuery e = false) events) as Hstop.
    { exists [Fetch r]. rewrite record_extend. repeat split.
      - unfold count. simpl. lia.
      - by repeat constructor. }
    unfold tryBlock.
    repeat case_match; simplify_eq/=; try exact Hstop;
      try (rewrite <- (extend_nil (record (Fetch r) w)); apply Hnext; [done | constructor]);
      try (rewrite (record_extend (Delay _)); apply Hnext; [done | by repeat constructor]).
Qed.
End ClientFacts.

(** ** C1: the retry policy of the completion client *)

(** C1. [callGrokWithRetry] issues at most [maxRetries] attempts. When the
    credential is configured and every attempt ends in a retryable
    outcome (the request is rejected at network level, or the status is
    429 or at least 500), exactly [maxRetries] attempts are issued, each
    but the last followed by a wait of [1000 * 2^(attempt-1)] milliseconds
    (1000 then 2000 for the default of 3 attempts, 4000 after a third
    attempt when there are more), and the call fails with a [GrokApiError]. When the first [k]
    attempts end in retryable outcomes and the next one in any other
    non-success status, the call fails with that status right after that
    attempt: no wait and no further attempt follow it. *)
Theorem C1_retry_policy `{Engine} (env : Env) (options : GrokCompletionOptions)
    (maxRetries : Z) (w : World) :
  ((0 ≤ maxRetries)%Z →
   ∃ events,
     (callGrokWithRetry env options maxRetries w).2 = extend w events
     ∧ (Z.of_nat (count isFetch events) ≤ maxRetries)%Z)
  ∧ (∀ apiKey,
       getApiKey env = Return apiKey →
       (∀ i, i < Z.to_nat maxRetries → retryable (endpoint env (fetchCount w + i))) →
       ∃ msg code retry,
         callGrokWithRetry env options maxRetries w
         = (Throw (GrokApiError msg code retry),
            extend w (exhausted (buildRequest apiKey options) (Z.to_nat maxRetries)))
         ∧ count isFetch (exhausted (buildRequest apiKey options) (Z.to_nat maxRetries))
           = Z.to_nat maxRetries)
  ∧ (∀ apiKey k status body,
       getApiKey env = Return apiKey →
       k < Z.to_nat maxRetries →
       (∀ i, i < k → retryable (endpoint env (fetchCount w + i))) →
       endpoint env (fetchCount w + k) = Response status body →
       ok status = false → status ≠ 429%Z → (status < 500)%Z →
       callGrokWithRetry env options maxRetries w
       = (Throw (GrokApiError
                   (js "Groq API error: " ++ decimalZ status ++ js " - " ++ body)
                   (Some status) false),
          extend w (retries (buildRequest apiKey options) k 1
                      ++ [Fetch (buildRequest apiKey options)])))
  ∧ (MAX_RETRIES = 3%Z
     ∧ ∀ r, exhausted r 3 = [Fetch r; Delay 1000; Fetch r; Delay 2000; Fetch r]
            ∧ retries r 3 1 = [Fetch r; Delay 1000; Fetch r; Delay 2000; Fetch r; Delay 4000]).
Proof.
  repeat split.
  - intros Hpos. unfold callGrokWithRetry. destruct (getApiKey env) as [apiKey|e].
    + destruct (attempts_trace env (buildRequest apiKey options) maxRetries
                  (Z.to_nat maxRetries) 1 w) as (events & Hw & Hlen & _).
      exists events. split; [done | lia].
    + exists []. split; [by rewrite extend_nil | unfold count; simpl; lia].
  - intros apiKey Hkey Hall. unfold callGrokWithRetry. rewrite Hkey.
    set (r := buildRequest apiKey options).
    destruct (Z.to_nat maxRetries) as [|k] eqn:Hn.
    + eexists _, _, _. split; [|done]. simpl. by rewrite extend_nil.
    + assert (maxRetries = (1 + Z.of_nat k)%Z) as Hmax by lia.
      assert (attempts env r maxRetries (S k) 1 w = attempts env r maxRetries (k + 1) 1 w)
        as -> by (f_equal; lia).
      rewrite attempts_retries; [| intros i Hi; apply Hall; lia | lia].
      rewrite <- Hmax.
      destruct (attempts_retry_last env r maxRetries 0 (extend w (retries r k 1)))
        as (msg & code & retry & Hlast).
      { rewrite fetchCount_extend, retries_fetches. apply Hall. lia. }
      exists msg, code, retry. rewrite Hlast, extend_extend. split; [done|].
      unfold exhausted.
      rewrite count_app, retries_fetches. unfold count. simpl. lia.
  - intros apiKey k status body Hkey Hk Hall Hout Hok H429 H500.
    unfold callGrokWithRetry. rewrite Hkey.
    set (r := buildRequest apiKey options).
    replace (Z.to_nat maxRetries) with (k + S (Z.to_nat maxRetries - S k)) by lia.
    rewrite attempts_retries; [| done | lia].
    rewrite (attempts_fatal env r maxRetries _ _ _ status body); try done.
    + by rewrite extend_extend.
    + by rewrite fetchCount_extend, retries_fetches.
Qed.

Lemma C1_witness :
  (∃ events,
     (@callGrokWithRetry sampleEngine (constantEnv (Response 500 (js "down")))
        (promptOnly (js "compare")) 3 emptyWorld).2 = extend emptyWorld events
     ∧ (Z.of_nat (count isFetch events) ≤ 3)%Z)
  ∧ (∃ msg code retry,
       @callGrokWithRetry sampleEngine (constantEnv (Response 500 (js "down")))
         (promptOnly (js "compare")) 3 emptyWorld
       = (Throw (GrokApiError msg code retry),
          extend emptyWorld
            (exhausted (buildRequest (js "key") (promptOnly (js "compare"))) (Z.to_nat 3)))
       ∧ count isFetch
           (exhausted (buildRequest (js "key") (promptOnly (js "compare"))) (Z.to_nat 3))
         = Z.to_nat 3)
  ∧ @callGrokWithRetry sampleEngine (constantEnv (Response 401 (js "denied")))
      (promptOnly (js "compare")) 3 emptyWorld
    = (Throw (GrokApiError
                (js "Groq API error: " ++ decimalZ 401 ++ js " - " ++ js "denied")
                (Some 401%Z) false),
       extend emptyWorld
         (retries (buildRequest (js "key") (promptOnly (js "compare"))) 0 1
            ++ [Fetch (buildRequest (js "key") (promptOnly (js "compare")))])).
Proof.
  destruct (@C1_retry_policy sampleEngine (constantEnv (Response 500 (js "down")))
              (promptOnly (js "compare")) 3 emptyWorld) as (A & B & _).
  destruct (@C1_retry_policy sampleEngine (constantEnv (Response 401 (js "denied")))
              (promptOnly (js "compare")) 3 emptyWorld) as (_ & _ & C & _).
  split; [apply A; lia|].
  split.
  - apply (B (js "key")); [reflexivity|]. intros i _. right. lia.
  - apply (C (js "key") 0 401%Z (js "denied")).
    + reflexivity.
    + simpl. lia.
    + intros i Hi. lia.
    + reflexivity.
    + reflexivity.
    + lia.
    + lia.
Defined.

(** ** C4: the payload of a success response *)

(** C4, as stated, fails: when the [message] object is present but has no
    [content], or an empty one, the call does not fail; it returns the
    empty string. *)
Lemma C4_counterexample :
  @callGrokWithRetry sampleEngine (constantEnv (Response 200 messageWithoutContent))
    (promptOnly (js "compare")) 3 emptyWorld
  = (Return (VStr []),
     extend emptyWorld [Fetch (buildRequest (js "key") (promptOnly (js "compare")))]).
Proof. reflexivity. Qed.

(** C4 (amended). When an attempt receives a success (2xx) response whose
    body parses to a JSON value other than [null], the call ends with
    that attempt and is never retried: if the payload has a truthy
    [choices[0].message], the call returns that message's [content] when
    it is truthy and the empty string otherwise (no non-empty content is
    ever made up); if [choices], [choices[0]] or its [message] is missing
    or falsy, the call fails with the non-retryable error
    "Invalid response structure from Groq API". *)
Theorem C4_success_payload `{Engine} (env : Env) :
  (∀ r maxRetries n attempt w status body data,
     endpoint env (fetchCount w) = Response status body →
     ok status = true →
     JSON_parse body = Some data →
     data ≠ VNull →
     attempts env r maxRetries (S n) attempt w
     = (match messageOf data with
        | Some message => Return (contentOf message)
        | None =>
            Throw (GrokApiError (js "Invalid response structure from Groq API") None false)
        end,
        extend w [Fetch r]))
  ∧ (∀ options maxRetries w apiKey status body data,
       getApiKey env = Return apiKey →
       (0 < maxRetries)%Z →
       endpoint env (fetchCount w) = Response status body →
       ok status = true →
       JSON_parse body = Some data →
       data ≠ VNull →
       callGrokWithRetry env options maxRetries w
       = (match messageOf data with
          | Some message => Return (contentOf message)
          | None =>
              Throw (GrokApiError (js "Invalid response structure from Groq API") None false)
          end,
          extend w [Fetch (buildRequest apiKey options)])).
Proof.
  assert (∀ r maxRetries n attempt w status body data,
     endpoint env (fetchCount w) = Response status body →
     ok status = true →
     JSON_parse body = Some data →
     data ≠ VNull →
     attempts env r maxRetries (S n) attempt w
     = (match messageOf data with
        | Some message => Return (contentOf message)
        | None =>
            Throw (GrokApiError (js "Invalid response structure from Groq API") None false)
        end,
        extend w [Fetch r])) as Hloop.
  { intros r maxRetries n attempt w status body data Hout Hok Hparse Hnull.
    rewrite attempts_S, Hout. unfold tryBlock. rewrite Hok, Hparse. cbn [negb].
    unfold messageOf, contentOf.
    destruct data; try done. cbn.
    destruct (lookupProperty (js "choices") properties) as [choices|]; cbn; [|done].
    destruct (truthy choices); [|done].
    destruct (getIndex choices 0) as [choice|]; cbn; [|done].
    destruct (truthy choice); [|done].
    destruct (getField choice (js "message")) as [message|]; cbn; [|done].
    destruct (truthy message); [|done].
    destruct (getField message (js "content")) as [content|]; [|done].
    by destruct (truthy content). }
  split; [exact Hloop|].
  intros options maxRetries w apiKey status body data Hkey Hpos Hout Hok Hparse Hnull.
  unfold callGrokWithRetry. rewrite Hkey.
  destruct (Z.to_nat maxRetries) as [|n] eqn:Hn; [lia|].
  by eapply Hloop.
Qed.

Lemma C4_witness :
  @attempts sampleEngine (constantEnv (Response 200 messageWithoutContent))
    (buildRequest (js "key") (promptOnly (js "compare"))) 3 (S 2) 1 emptyWorld
  = (Return (VStr []),
     extend emptyWorld [Fetch (buildRequest (js "key") (promptOnly (js "compare")))])
  ∧ @callGrokWithRetry sampleEngine (constantEnv (Response 200 (jsq "{'choices':[]}")))
      (promptOnly (js "compare")) 3 emptyWorld
    = (Throw (GrokApiError (js "Invalid response structure from Groq API") None false),
       extend emptyWorld [Fetch (buildRequest (js "key") (promptOnly (js "compare")))]).
Proof.
  split.
  - apply (proj1 (@C4_success_payload sampleEngine
                    (constantEnv (Response 200 messageWithoutContent)))
             (buildRequest (js "key") (promptOnly (js "compare"))) 3%Z 2 1%Z emptyWorld
             200%Z messageWithoutContent
             (VObj [(js "choices", VArr [VObj [(js "message", VObj [])]])])).
    + reflexivity.
    + reflexivity.
    + reflexivity.
    + discriminate.
  - apply (proj2 (@C4_success_payload sampleEngine
                    (constantEnv (Response 200 (jsq "{'choices':[]}"))))
             (promptOnly (js "compare")) 3%Z emptyWorld (js "key")
             200%Z (jsq "{'choices':[]}")
             (VObj [(js "choices", VArr [])])).
    + reflexivity.
    + lia.
    + reflexivity.
    + reflexivity.
    + reflexivity.
    + discriminate.
Defined.

(** ** When normalization fails

    As long as no conversion of a score throws, [normalizeGrokResponse]
    either returns, on a raw text that passes, or throws a
    [NormalizationError], on one that does not. *)

Section Outcome.
Context `{Engine}.

Lemma validateOption_outcome option index scores :
  scoresOf option = Return scores →
  (acceptedOption option ∧ ∃ o, validateOption option index = Return o)
  ∨ (¬ acceptedOption option
     ∧ ∃ msg, validateOption option index = Throw (NormalizationError msg)).
Proof.
  unfold validateOption, scoresOf. intros Hs.
  assert (∀ v, (∀ props, option ≠ VObj props) →
            validateOption option index = v → ¬ acceptedOption option) as Hother.
  { intros v Hne _ (props & ? & ? & ? & ? & _). by eapply Hne. }
  destruct option as [|b|literal|s|elements|props]; simpl.
  1-5: right; split; [by eapply Hother|].
  1-5: repeat case_match; eauto.
  clear Hother. simpl in Hs.
  destruct (lookupProperty (js "name") props) as [name|] eqn:En;
    [|right; split; [intros (? & ? & ? & ? & ? & ? & _); simplify_eq|eauto]].
  destruct name as [|?|?|name|?|?];
    try solve [right; split; [intros (? & ? & ? & ? & ? & ? & _); simplify_eq|eauto]].
  destruct (isEmpty (trim name)) eqn:Et.
  { apply isEmpty_true in Et.
    right; split; [intros (? & ? & ? & ? & ? & ? & ? & _); simplify_eq|eauto]. }
  apply isEmpty_false in Et.
  destruct (lookupProperty (js "pros") props) as [ps|] eqn:Ep;
    [|right; split; [intros (? & ? & ? & ? & ? & ? & ? & ? & _); simplify_eq|eauto]].
  destruct ps as [|?|?|?|ps|?];
    try solve [right; split; [intros (? & ? & ? & ? & ? & ? & ? & ? & _); simplify_eq|eauto]].
  destruct (lookupProperty (js "cons") props) as [cs|] eqn:Ec;
    [|right; split; [intros (? & ? & ? & ? & ? & ? & ? & ? & ?); simplify_eq|eauto]].
  destruct cs as [|?|?|?|cs|?];
    try solve [right; split; [intros (? & ? & ? & ? & ? & ? & ? & ? & ?); simplify_eq|eauto]].
  left. split; [by eexists _, _, _, _|].
  rewrite Hs. simpl. eauto.
Qed.

Lemma mapIndexed_validateOption_outcome options index :
  Forall (λ option, ∃ scores, scoresOf option = Return scores) options →
  (Forall acceptedOption options ∧ ∃ os, mapIndexed validateOption index options = Return os)
  ∨ (¬ Forall acceptedOption options
     ∧ ∃ msg, mapIndexed validateOption index options = Throw (NormalizationError msg)).
Proof.
  revert index. induction options as [|option options IH]; intros index Hc.
  - left. split; [constructor|]. simpl. eauto.
  - apply Forall_cons in Hc as [[scores Hs] Hc]. simpl.
    destruct (validateOption_outcome option index scores Hs)
      as [[Ha [o ->]]|[Hn [msg ->]]].
    + destruct (IH (S index) Hc) as [[Has [os ->]]|[Hns [msg ->]]]; simpl.
      * left. split; [by constructor|eauto].
      * right. split; [|eauto]. by intros [_ ?]%Forall_cons.
    + right. split; [|simpl; eauto]. by intros [? _]%Forall_cons.
Qed.

Theorem normalizeGrokResponse_outcome raw :
  convertible raw →
  (accepted raw ∧ ∃ r, normalizeGrokResponse (VStr raw) = Return r)
  ∨ (¬ accepted raw
     ∧ ∃ msg, normalizeGrokResponse (VStr raw) = Throw (NormalizationError msg)).
Proof.
  intros Hc. unfold normalizeGrokResponse.
  destruct (isEmpty raw) eqn:Er.
  { apply isEmpty_true in Er. right. split; [by intros [? _]|eauto]. }
  apply isEmpty_false in Er.
  destruct (JSON_parse (extractJson raw)) as [parsed|] eqn:Ep;
    [|right; split; [intros (_ & ? & ? & ? & _); simplify_eq|eauto]].
  specialize (Hc parsed). unfold normalizeParsed.
  assert (∀ v, (∀ props, parsed ≠ VObj props) → normalizeParsed parsed = v → ¬ accepted raw)
    as Hother.
  { intros v Hne _ (_ & props & ? & Hp & _). rewrite Ep in Hp. simplify_eq. by eapply Hne. }
  destruct parsed as [|b|literal|s|elements|props]; simpl.
  1-5: right; split; [by eapply Hother|].
  1-5: repeat case_match; eauto.
  clear Hother. simpl in Hc.
  destruct (lookupProperty (js "options") props) as [options|] eqn:Eo;
    [|right; split; [intros (_ & ? & ? & ? & ? & _); simplify_eq|eauto]].
  destruct options as [|?|?|?|options|?];
    try solve [right; split; [intros (_ & ? & ? & ? & ? & _); simplify_eq|eauto]].
  destruct options as [|option options].
  { right; split; [intros (_ & ? & ? & ? & ? & ? & _); simplify_eq|eauto]. }
  destruct (mapIndexed_validateOption_outcome (option :: options) 0 (Hc _ Ep eq_refl))
    as [[Ha [os Hos]]|[Hn [msg Hmsg]]].
  - left. split; [split; [done|by eexists _, _]|].
    rewrite Hos. simpl. eauto.
  - right. split; [intros (_ & ? & ? & ? & ? & ? & ?); simplify_eq|].
    rewrite Hmsg. simpl. eauto.
Qed.
End Outcome.

(** The fenced example has no score to convert, passes and normalizes. *)
Lemma convertible_fencedExample : convertible (H := sampleEngine) fencedExample.
Proof.
  intros parsed options Hp Ho. vm_compute in Hp. injection Hp as <-.
  vm_compute in Ho. injection Ho as <-.
  repeat constructor. by exists ∅.
Qed.

Lemma normalizeGrokResponse_outcome_fenced :
  accepted fencedExample
  ∧ ∃ r, normalizeGrokResponse (H := sampleEngine) (VStr fencedExample) = Return r.
Proof.
  destruct (normalizeGrokResponse_outcome (H := sampleEngine) fencedExample
              convertible_fencedExample) as [Hok|[_ [msg Hmsg]]]; [done|].
  vm_compute in Hmsg. discriminate.
Qed.

(** A text without [options] is rejected. *)
Lemma normalizeGrokResponse_withoutOptions `{Engine} :
  normalizeGrokResponse (VStr withoutOptions)
  = Throw (NormalizationError (jsq "Response is missing required 'options' array")).
Proof. reflexivity. Qed.

(** ** C2 and C7: where the leniency towards [scores] breaks *)

(** C2, evaluated where the code departs from it. On [scoreWithToString]
    none of the listed conditions holds (the text is a JSON object whose
    [options] array has one entry with a name and both arrays), yet the
    call does not succeed: [String(value)] throws a [TypeError] on the
    score. On [scoreWithToStringThenNumber] an entry of [options] is not
    an object, yet no [NormalizationError] is thrown: the [TypeError] of
    the entry before it comes first. *)
Theorem C2_scores_can_throw_TypeError `{Engine} :
  normalizeGrokResponse (VStr scoreWithToString) = Throw (TypeError toPrimitiveMessage)
  ∧ normalizeGrokResponse (VStr scoreWithToStringThenNumber)
    = Throw (TypeError toPrimitiveMessage).
Proof. split; reflexivity. Qed.

(** C7, evaluated where the code departs from it. A score that is an
    object with an own [toString] property makes the whole normalization
    throw a [TypeError]; a score filed under the key [__proto__] is not
    copied (the assignment [acc[key] = value] reaches the inherited
    setter, which ignores a string), while its sibling is. *)
Theorem C7_scores_not_always_lenient `{Engine} :
  validateOption
    (VObj [(js "name", VStr (js "A")); (js "pros", VArr []); (js "cons", VArr []);
           (js "scores", VObj [(js "cost", VObj [(js "toString", VNull)])])]) 0
  = Throw (TypeError toPrimitiveMessage)
  ∧ normalizeGrokResponse (VStr scoreUnderProto)
    = Return (NormalizedComparisonResult.mk
                [OptionAnalysis.mk (js "A") [] [] {[ js "cost" := js "low" ]}] []).
Proof. split; reflexivity. Qed.

(** ** C8: the errors of the orchestrator *)

Section OrchestratorFacts.
Context `{Engine} (env : Env).

(** The completion client sends no statement to the database and leaves
    the tables as they are. *)
Lemma callGrokWithRetry_world options maxRetries w :
  ∃ events,
    (callGrokWithRetry env options maxRetries w).2 = extend w events
    ∧ Forall (λ e, isQuery e = false) events.
Proof.
  unfold callGrokWithRetry. destruct (getApiKey env) as [apiKey|e].
  - destruct (attempts_trace env (buildRequest apiKey options) maxRetries
                (Z.to_nat maxRetries) 1 w) as (events & Hw & _ & Hq).
    by exists events.
  - exists []. by rewrite extend_nil.
Qed.

Lemma storeComparisonRequest_Inserted input w id :
  database env (queryCount w) = Inserted id →
  storeComparisonRequest env input w = (Return id, afterRequest w input id).
Proof. intros Hdb. unfold storeComparisonRequest, runQuery. by rewrite Hdb. Qed.

Lemma callGrokWithRetry_requestOnly input w id options maxRetries c w2 :
  callGrokWithRetry env options maxRetries (afterRequest w input id) = (c, w2) →
  requestOnly w input id w2.
Proof.
  intros Hcall.
  destruct (callGrokWithRetry_world options maxRetries (afterRequest w input id))
    as (events & Hw & Hq).
  rewrite Hcall in Hw. simpl in Hw. subst w2.
  repeat split; try done.
  exists events. split; [|done]. simpl. by rewrite <- app_assoc.
Qed.
End OrchestratorFacts.

(** C8, evaluated where the code departs from it. Steps 1, 3 and 5 turn
    every failure into a [ComparisonServiceError]; step 4 does so for a
    [NormalizationError] only and rethrows anything else as it is. Here
    the completion is [scoreWithToString], on which the normalizer
    throws a [TypeError]: [executeComparison] fails with that
    [TypeError], which is no [ComparisonServiceError] and carries no
    status, after one call of the endpoint, with the request row stored
    and no result row. *)
Theorem C8_TypeError_not_wrapped :
  (@executeComparison sampleEngine
     (constantEnv (Response 200 (completionBody scoreWithToString)))
     twoOptions emptyWorld).1
  = Throw (TypeError (js "Cannot convert object to primitive value"))
  ∧ comparisons
      (@executeComparison sampleEngine
         (constantEnv (Response 200 (completionBody scoreWithToString)))
         twoOptions emptyWorld).2
    = [(js "id-1", (ComparisonInput.options twoOptions,
                    ComparisonInput.constraints twoOptions))]
  ∧ comparison_results
      (@executeComparison sampleEngine
         (constantEnv (Response 200 (completionBody scoreWithToString)))
         twoOptions emptyWorld).2
    = []
  ∧ count isFetch
      (trace (@executeComparison sampleEngine
                (constantEnv (Response 200 (completionBody scoreWithToString)))
                twoOptions emptyWorld).2)
    = 1.
Proof. repeat split; reflexivity. Qed.

(** X27. The failures that [executeComparison] types, each with its
    cause. It stops at the first failing step.
    When the database rejects the request, the error is a
    [ComparisonServiceError] with status 500 and nothing else runs. Once
    the request is stored: when the completion client fails, the error
    has status 502 and its message ends with the message of the client's
    error; when the normalizer throws a [NormalizationError], the error
    has status 502 and a fixed message that does not depend on the
    normalizer's message; in both cases no statement is sent to the
    database after the first, the request row is still in its table and
    no result row is added. When the database rejects the result, the
    error has status 500. *)
Theorem executeComparison_typed_errors `{Engine} (env : Env) (input : ComparisonInput) (w : World) :
  (database env (queryCount w) = QueryRejected →
   executeComparison env input w
   = (Throw (ComparisonServiceError (js "Failed to store comparison request")
               (js "database_error") 500),
      extend w [Query (InsertComparison (ComparisonInput.options input)
                         (ComparisonInput.constraints input))]))
  ∧ (∀ id,
       database env (queryCount w) = Inserted id →
       (∀ error w2,
          callGrokWithRetry env (promptFor input) MAX_RETRIES (afterRequest w input id)
          = (Throw error, w2) →
          executeComparison env input w
          = (Throw (ComparisonServiceError
                      (js "AI service is currently unavailable: " ++ message error)
                      (js "ai_service_error") 502), w2)
          ∧ requestOnly w input id w2)
       ∧ (∀ raw w2 detail,
            callGrokWithRetry env (promptFor input) MAX_RETRIES (afterRequest w input id)
            = (Return raw, w2) →
            normalizeGrokResponse raw = Throw (NormalizationError detail) →
            executeComparison env input w
            = (Throw (ComparisonServiceError
                        (js "Failed to process AI response. Please try again.")
                        (js "normalization_error") 502), w2)
            ∧ requestOnly w input id w2)
       ∧ (∀ raw w2 result,
            callGrokWithRetry env (promptFor input) MAX_RETRIES (afterRequest w input id)
            = (Return raw, w2) →
            normalizeGrokResponse raw = Return result →
            database env (queryCount w2) = QueryRejected →
            executeComparison env input w
            = (Throw (ComparisonServiceError (js "Failed to store comparison result")
                        (js "database_error") 500),
               extend w2 [Query (InsertResult id (JSON_stringify (resultToValue result)))]))).
Proof.
  split.
  - intros Hdb. unfold executeComparison, storeComparisonRequest, runQuery.
    by rewrite Hdb.
  - intros id Hdb. split; [|split].
    + intros error w2 Hcall. split; [|by eapply callGrokWithRetry_requestOnly].
      unfold executeComparison. rewrite (storeComparisonRequest_Inserted env input w id Hdb).
      fold (promptFor input). by rewrite Hcall.
    + intros raw w2 detail Hcall Hnorm. split; [|by eapply callGrokWithRetry_requestOnly].
      unfold executeComparison. rewrite (storeComparisonRequest_Inserted env input w id Hdb).
      fold (promptFor input). by rewrite Hcall, Hnorm.
    + intros raw w2 result Hcall Hnorm Hdb2.
      unfold executeComparison. rewrite (storeComparisonRequest_Inserted env input w id Hdb).
      fold (promptFor input). rewrite Hcall, Hnorm.
      unfold storeComparisonResult, runQuery. by rewrite Hdb2.
Qed.

Lemma executeComparison_typed_errors_example :
  @executeComparison sampleEngine (failingDatabaseEnv (Response 500 (js "down")) 0)
    twoOptions emptyWorld
  = (Throw (ComparisonServiceError (js "Failed to store comparison request")
              (js "database_error") 500),
     extend emptyWorld
       [Query (InsertComparison (ComparisonInput.options twoOptions)
                 (ComparisonInput.constraints twoOptions))])
  ∧ (@executeComparison sampleEngine (constantEnv (Response 401 (js "denied")))
       twoOptions emptyWorld
     = (Throw (ComparisonServiceError
                 (js "AI service is currently unavailable: "
                    ++ message (GrokApiError (js "Groq API error: 401 - denied")
                                  (Some 401%Z) false))
                 (js "ai_service_error") 502),
        (@callGrokWithRetry sampleEngine (constantEnv (Response 401 (js "denied")))
           (promptFor twoOptions) MAX_RETRIES
           (afterRequest emptyWorld twoOptions (js "id-1"))).2)
     ∧ requestOnly emptyWorld twoOptions (js "id-1")
         (@callGrokWithRetry sampleEngine (constantEnv (Response 401 (js "denied")))
            (promptFor twoOptions) MAX_RETRIES
            (afterRequest emptyWorld twoOptions (js "id-1"))).2)
  ∧ (@executeComparison sampleEngine
       (constantEnv (Response 200 (completionBody (js "not json"))))
       twoOptions emptyWorld
     = (Throw (ComparisonServiceError
                 (js "Failed to process AI response. Please try again.")
                 (js "normalization_error") 502),
        (@callGrokWithRetry sampleEngine
           (constantEnv (Response 200 (completionBody (js "not json"))))
           (promptFor twoOptions) MAX_RETRIES
           (afterRequest emptyWorld twoOptions (js "id-1"))).2)
     ∧ requestOnly emptyWorld twoOptions (js "id-1")
         (@callGrokWithRetry sampleEngine
            (constantEnv (Response 200 (completionBody (js "not json"))))
            (promptFor twoOptions) MAX_RETRIES
            (afterRequest emptyWorld twoOptions (js "id-1"))).2)
  ∧ @executeComparison sampleEngine
      (failingDatabaseEnv (Response 200 (completionBody fencedExample)) 1)
      twoOptions emptyWorld
    = (Throw (ComparisonServiceError (js "Failed to store comparison result")
                (js "database_error") 500),
       extend
         (@callGrokWithRetry sampleEngine
            (failingDatabaseEnv (Response 200 (completionBody fencedExample)) 1)
            (promptFor twoOptions) MAX_RETRIES
            (afterRequest emptyWorld twoOptions (js "id-1"))).2
         [Query (InsertResult (js "id-1")
                   (@JSON_stringify sampleEngine
                      (resultToValue (NormalizedComparisonResult.mk [optionA] []))))]).
Proof.
  split; [|split; [|split]].
  - apply (proj1 (@executeComparison_typed_errors sampleEngine
                    (failingDatabaseEnv (Response 500 (js "down")) 0)
                    twoOptions emptyWorld)).
    reflexivity.
  - apply (proj1 (proj2 (@executeComparison_typed_errors sampleEngine
                           (constantEnv (Response 401 (js "denied")))
                           twoOptions emptyWorld) (js "id-1") eq_refl)).
    reflexivity.
  - apply (proj1 (proj2 (proj2 (@executeComparison_typed_errors sampleEngine
                                  (constantEnv (Response 200 (completionBody (js "not json"))))
                                  twoOptions emptyWorld) (js "id-1") eq_refl))
             (VStr (js "not json")) _
             (js "Failed to parse JSON response: " ++ js "Unexpected token in JSON")).
    + reflexivity.
    + reflexivity.
  - apply (proj2 (proj2 (proj2 (@executeComparison_typed_errors sampleEngine
                                  (failingDatabaseEnv
                                     (Response 200 (completionBody fencedExample)) 1)
                                  twoOptions emptyWorld) (js "id-1") eq_refl))
             (VStr fencedExample) _ (NormalizedComparisonResult.mk [optionA] [])).
    + reflexivity.
    + reflexivity.
    + reflexivity.
Defined.

(** ** C9: the prompt *)

Lemma join_cons_cons sep (x y : jsstring) l :
  join sep (x :: y :: l) = x ++ sep ++ join sep (y :: l).
Proof. done. Qed.

Lemma join_middle sep l1 (x : jsstring) l2 :
  ∃ a b, join sep (l1 ++ x :: l2) = a ++ x ++ b.
Proof.
  induction l1 as [|u l1 (a & b & IH)].
  - destruct l2 as [|y l2].
    + exists [], []. simpl. by rewrite app_nil_r.
    + exists [], (sep ++ join sep (y :: l2)). done.
  - exists (u ++ sep ++ a), b.
    assert (join sep ((u :: l1) ++ x :: l2) = u ++ sep ++ join sep (l1 ++ x :: l2)) as ->
      by (by destruct l1).
    rewrite IH. by rewrite <- !app_assoc.
Qed.

Lemma startsWith_spec (p s : jsstring) : startsWith p s = true ↔ ∃ b, s = p ++ b.
Proof.
  revert s. induction p as [|c p IH]; intros s; simpl.
  - split; [by exists s | done].
  - destruct s as [|d s]; [split; [done | by intros [? ?]]|].
    rewrite andb_true_iff, N.eqb_eq, IH. split.
    + intros [-> [b ->]]. by exists b.
    + intros [b [= -> ->]]. split; [done | by exists b].
Qed.

Lemma occurrences_occursIn (p s : jsstring) : occurrences p s ≠ 0 → occursIn p s.
Proof.
  induction s as [|c s IH]; simpl.
  - destruct (startsWith p []) eqn:E; [|done]. intros _.
    apply startsWith_spec in E as [b ->]. by exists [], b.
  - destruct (startsWith p (c :: s)) eqn:E.
    + intros _. apply startsWith_spec in E as [b ->]. by exists [], b.
    + intros Hn. destruct IH as (a & b & ->); [done|]. by exists (c :: a), b.
Qed.

Lemma occursIn_app_l (p s b : jsstring) : occursIn p s → occursIn p (s ++ b).
Proof.
  intros (a' & b' & ->). exists a', (b' ++ b). by rewrite <- !app_assoc.
Qed.

Lemma occursIn_app_r (p a s : jsstring) : occursIn p s → occursIn p (a ++ s).
Proof.
  intros (a' & b' & ->). exists (a ++ a'), b'. by rewrite <- !app_assoc.
Qed.

(** Entries of a joined list occur in the order of the list. *)
Lemma join_ordered sep (entries : list jsstring) i j x y :
  i < j → entries !! i = Some x → entries !! j = Some y →
  ∃ a b c, join sep entries = a ++ x ++ b ++ y ++ c.
Proof.
  revert i j. induction entries as [|u entries IH]; intros i j Hij Hx Hy; [done|].
  destruct j as [|j]; [lia|]. simpl in Hy.
  destruct entries as [|v entries]; [done|].
  rewrite join_cons_cons.
  destruct i as [|i]; simpl in Hx.
  - injection Hx as ->.
    apply list_elem_of_split_length in Hy as (l1 & l2 & -> & _).
    destruct (join_middle sep l1 y l2) as (a & b & ->).
    exists [], (sep ++ a), b. simpl. by rewrite <- !app_assoc.
  - destruct (IH i j) as (a & b & c & ->); [lia | done | done |].
    exists (u ++ sep ++ a), b, c. by rewrite <- !app_assoc.
Qed.

Lemma enumerates_imap items : enumerates (join NEWLINE (imap numbered items)) items.
Proof.
  exists (imap numbered items). split; [done|]. split; [apply length_imap|].
  intros i item Hi. rewrite list_lookup_imap, Hi. done.
Qed.

(** C9, as stated, fails: the text of an option can occur in the prompt
    more than once. The option [JSON] is enumerated once and occurs three
    times, twice of them in the fixed instructions. *)
Lemma C9_counterexample :
  occurrences (js "JSON") (buildComparisonPrompt [js "JSON"; js "XML"] [js "cost"]) = 3.
Proof. reflexivity. Qed.

(** C9 (amended). For all sequences of options and constraints, empty
    ones included, [buildComparisonPrompt] yields the fixed head, a block
    that enumerates the options, the fixed middle, a block that
    enumerates the constraints, and the fixed tail. Each block has
    exactly one entry per item, the entry of the item at index [i] being
    its 1-based ordinal [i + 1], a dot, a space and the item; entries
    occur in the block in input order. The fixed texts contain the
    instructions against declaring a winner. (The text of an item may
    occur elsewhere in the prompt as well.) *)
Theorem C9_prompt_enumerates (options constraints : list jsstring) :
  (∃ optionsList constraintsList,
     buildComparisonPrompt options constraints
     = promptHead ++ optionsList ++ promptMiddle ++ constraintsList ++ promptTail
     ∧ enumerates optionsList options
     ∧ enumerates constraintsList constraints
     ∧ (∀ i j x y, i < j → options !! i = Some x → options !! j = Some y →
          ∃ a b c,
            optionsList
            = a ++ (decimal (i + 1) ++ js ". " ++ x) ++ b
                ++ (decimal (j + 1) ++ js ". " ++ y) ++ c)
     ∧ (∀ i j x y, i < j → constraints !! i = Some x → constraints !! j = Some y →
          ∃ a b c,
            constraintsList
            = a ++ (decimal (i + 1) ++ js ". " ++ x) ++ b
                ++ (decimal (j + 1) ++ js ". " ++ y) ++ c))
  ∧ (∀ i x, options !! i = Some x →
       occursIn (decimal (i + 1) ++ js ". " ++ x)
         (buildComparisonPrompt options constraints))
  ∧ (∀ i x, constraints !! i = Some x →
       occursIn (decimal (i + 1) ++ js ". " ++ x)
         (buildComparisonPrompt options constraints))
  ∧ occursIn (js "without declaring a winner")
      (buildComparisonPrompt options constraints)
  ∧ occursIn (jsq "DO NOT declare a 'best' or 'winner'")
      (buildComparisonPrompt options constraints)
  ∧ buildComparisonPrompt [] [] = promptHead ++ promptMiddle ++ promptTail.
Proof.
  assert (∀ items i x, items !! i = Some x →
            imap numbered items !! i = Some (decimal (i + 1) ++ js ". " ++ x)) as Hentry.
  { intros items i x Hi. by rewrite list_lookup_imap, Hi. }
  repeat split.
  - exists (join NEWLINE (imap numbered options)),
      (join NEWLINE (imap numbered constraints)).
    split; [done|]. split; [apply enumerates_imap|]. split; [apply enumerates_imap|].
    split.
    + intros i j x y Hij Hx Hy.
      eapply join_ordered; [exact Hij | by apply Hentry | by apply Hentry].
    + intros i j x y Hij Hx Hy.
      eapply join_ordered; [exact Hij | by apply Hentry | by apply Hentry].
  - intros i x Hx. apply Hentry in Hx.
    apply list_elem_of_split_length in Hx as (l1 & l2 & Hl & _).
    destruct (join_middle NEWLINE l1 (decimal (i + 1) ++ js ". " ++ x) l2) as (a & b & Hj).
    unfold buildComparisonPrompt. rewrite Hl, Hj.
    exists (promptHead ++ a),
      (b ++ promptMiddle ++ join NEWLINE (imap numbered constraints) ++ promptTail).
    by rewrite <- !app_assoc.
  - intros i x Hx. apply Hentry in Hx.
    apply list_elem_of_split_length in Hx as (l1 & l2 & Hl & _).
    destruct (join_middle NEWLINE l1 (decimal (i + 1) ++ js ". " ++ x) l2) as (a & b & Hj).
    unfold buildComparisonPrompt. rewrite Hl, Hj.
    exists (promptHead ++ join NEWLINE (imap numbered options) ++ promptMiddle ++ a),
      (b ++ promptTail).
    by rewrite <- !app_assoc.
  - unfold buildComparisonPrompt. apply occursIn_app_l.
    by apply occurrences_occursIn.
  - unfold buildComparisonPrompt. do 4 apply occursIn_app_r.
    by apply occurrences_occursIn.
Qed.

Lemma C9_witness :
  (∃ optionsList constraintsList,
     buildComparisonPrompt [js "A"; js "B"] [js "cost"; js "speed"]
     = promptHead ++ optionsList ++ promptMiddle ++ constraintsList ++ promptTail
     ∧ (∃ a b c,
          optionsList
          = a ++ (decimal (0 + 1) ++ js ". " ++ js "A") ++ b
              ++ (decimal (1 + 1) ++ js ". " ++ js "B") ++ c)
     ∧ (∃ a b c,
          constraintsList
          = a ++ (decimal (0 + 1) ++ js ". " ++ js "cost") ++ b
              ++ (decimal (1 + 1) ++ js ". " ++ js "speed") ++ c))
  ∧ occursIn (decimal (1 + 1) ++ js ". " ++ js "B")
      (buildComparisonPrompt [js "A"; js "B"] [js "cost"; js "speed"])
  ∧ occursIn (decimal (0 + 1) ++ js ". " ++ js "cost")
      (buildComparisonPrompt [js "A"; js "B"] [js "cost"; js "speed"]).
Proof.
  destruct (C9_prompt_enumerates [js "A"; js "B"] [js "cost"; js "speed"])
    as ((optionsList & constraintsList & Heq & _ & _ & Hopts & Hcons) & Hopt & Hcon & _).
  split; [|split].
  - exists optionsList, constraintsList. split; [exact Heq|]. split.
    + apply (Hopts 0 1 (js "A") (js "B")); [lia | reflexivity | reflexivity].
    + apply (Hcons 0 1 (js "cost") (js "speed")); [lia | reflexivity | reflexivity].
  - apply (Hopt 1 (js "B")). reflexivity.
  - apply (Hcon 0 (js "cost")). reflexivity.
Defined.

(** ** C5: trade-offs degrade gracefully *)

Section TradeOffFacts.
Context `{Engine}.

Lemma validateTradeOff_spec entry index t :
  validateTradeOff entry index = Some t ↔ keptTradeOff entry t.
Proof.
  unfold validateTradeOff, keptTradeOff. split.
  - intros Hv.
    destruct entry as [| | | | |properties]; cbn in Hv; try by repeat case_match.
    destruct (lookupProperty (js "scenario") properties) as [[| | |scenario| |]|] eqn:Hs;
      try done.
    destruct (isEmpty (trim scenario)) eqn:Es; [done|].
    destruct (lookupProperty (js "recommendation") properties)
      as [[| | |recommendation| |]|] eqn:Hr; try done.
    destruct (isEmpty (trim recommendation)) eqn:Er; [done|].
    injection Hv as <-. exists properties, scenario, recommendation.
    repeat split; try done; by apply isEmpty_false.
  - intros (props & scenario & recommendation & -> & Hs & Hr & Es & Er & ->).
    cbn. rewrite Hs.
    apply isEmpty_false in Es, Er. by rewrite Es, Hr, Er.
Qed.

Lemma validateTradeOff_None entry index :
  validateTradeOff entry index = None ↔ ∀ t, ¬ keptTradeOff entry t.
Proof.
  split.
  - intros Hv t Hk. apply (validateTradeOff_spec entry index) in Hk. congruence.
  - intros Hn. destruct (validateTradeOff entry index) as [t|] eqn:E; [|done].
    apply validateTradeOff_spec in E. by apply Hn in E.
Qed.

Lemma survivors_omap (f : nat → value → option TradeOff) entries :
  (∀ i entry, f i entry = validateTradeOff entry 0) →
  survivors entries (omap id (imap f entries)).
Proof.
  revert f. induction entries as [|entry entries IH]; intros f Hf; [constructor|].
  rewrite imap_cons. cbn [omap list_omap]. unfold id at 1.
  destruct (f 0 entry) as [t|] eqn:E; rewrite Hf in E.
  - apply survivors_keep.
    + by apply validateTradeOff_spec in E.
    + apply IH. intros i e. apply Hf.
  - apply survivors_drop.
    + by apply (validateTradeOff_None entry 0).
    + apply IH. intros i e. apply Hf.
Qed.

Lemma normalizeParsed_tradeOffs parsed r :
  normalizeParsed parsed = Return r →
  match getField parsed (js "tradeOffs") with
  | Some (VArr entries) => survivors entries (NormalizedComparisonResult.tradeOffs r)
  | _ => NormalizedComparisonResult.tradeOffs r = []
  end.
Proof.
  unfold normalizeParsed. intros Hn.
  destruct (negb (truthy parsed) || negb (typeofObject parsed)); [done|].
  destruct (getField parsed (js "options")) as [[| | | |opts|]|]; try done.
  destruct opts as [|opt opts]; [done|].
  apply bind_Return in Hn as (os & _ & [= <-]). cbn.
  destruct (getField parsed (js "tradeOffs")) as [[| | | |entries|]|]; try done.
  by apply survivors_omap.
Qed.


(** Whether the normalization of a parsed object succeeds, which error
    it throws and which options it returns are determined by [options]
    alone. *)
Lemma normalizeParsed_options_only props props' :
  lookupProperty (js "options") props = lookupProperty (js "options") props' →
  match normalizeParsed (VObj props), normalizeParsed (VObj props') with
  | Return r, Return r' =>
      NormalizedComparisonResult.options r = NormalizedComparisonResult.options r'
  | Throw e, Throw e' => e = e'
  | _, _ => False
  end.
Proof.
  intros Ho. unfold normalizeParsed. cbn. rewrite <- Ho.
  destruct (lookupProperty (js "options") props) as [[| | | |opts|]|]; try done.
  destruct opts as [|opt opts]; [done|].
  by destruct (mapIndexed validateOption 0 (opt :: opts)).
Qed.
End TradeOffFacts.

(** C5. Whenever [normalizeGrokResponse] succeeds, the trade-offs it
    returns are the surviving entries of the parsed [tradeOffs] array, in
    their original order: an entry survives when it is an object whose
    [scenario] and [recommendation] are strings that are non-empty once
    trimmed (and it is returned trimmed); every other entry is dropped on
    its own. When [tradeOffs] is missing or not an array, the result has
    no trade-offs. The content of [tradeOffs] never decides whether the
    normalization succeeds: two parsed objects with the same [options]
    both succeed with the same options, or both fail with the same error.
    In particular, valid options with the trade-offs [{scenario:"x"}]
    give a result without trade-offs. *)
Theorem C5_tradeoffs_degrade `{Engine} :
  (∀ raw r,
     normalizeGrokResponse raw = Return r →
     ∃ text parsed,
       raw = VStr text
       ∧ JSON_parse (extractJson text) = Some parsed
       ∧ match getField parsed (js "tradeOffs") with
         | Some (VArr entries) => survivors entries (NormalizedComparisonResult.tradeOffs r)
         | _ => NormalizedComparisonResult.tradeOffs r = []
         end)
  ∧ (∀ props props',
       lookupProperty (js "options") props = lookupProperty (js "options") props' →
       match normalizeParsed (VObj props), normalizeParsed (VObj props') with
       | Return r, Return r' =>
           NormalizedComparisonResult.options r = NormalizedComparisonResult.options r'
       | Throw e, Throw e' => e = e'
       | _, _ => False
       end)
  ∧ normalizeGrokResponse (VStr tradeOffWithoutRecommendation)
    = Return (NormalizedComparisonResult.mk [optionA] []).
Proof.
  split; [|split].
  - intros raw r Hn.
    apply normalizeGrokResponse_Return in Hn as (text & parsed & -> & _ & Hp & Hn).
    exists text, parsed. repeat split; try done.
    by apply normalizeParsed_tradeOffs.
  - apply normalizeParsed_options_only.
  - reflexivity.
Qed.

Lemma C5_witness :
  (∃ text parsed,
     VStr tradeOffWithoutRecommendation = VStr text
     ∧ JSON_parse (extractJson text) = Some parsed
     ∧ match getField parsed (js "tradeOffs") with
       | Some (VArr entries) =>
           survivors entries
             (NormalizedComparisonResult.tradeOffs
                (NormalizedComparisonResult.mk [optionA] []))
       | _ => NormalizedComparisonResult.tradeOffs
                (NormalizedComparisonResult.mk [optionA] []) = []
       end)
  ∧ match @normalizeParsed sampleEngine
            (VObj [(js "options", VArr [optionToValue optionA])]),
          @normalizeParsed sampleEngine
            (VObj [(js "options", VArr [optionToValue optionA]);
                   (js "tradeOffs", VArr [VNull; VNum (js "7")])]) with
    | Return r, Return r' =>
        NormalizedComparisonResult.options r = NormalizedComparisonResult.options r'
    | Throw e, Throw e' => e = e'
    | _, _ => False
    end.
Proof.
  split.
  - apply (proj1 (@C5_tradeoffs_degrade sampleEngine)
             (VStr tradeOffWithoutRecommendation)
             (NormalizedComparisonResult.mk [optionA] [])).
    reflexivity.
  - apply (proj1 (proj2 (@C5_tradeoffs_degrade sampleEngine))).
    reflexivity.
Defined.

(** ** C6: extraction *)

Lemma FENCE_eq : FENCE = [96; 96; 96]%N.
Proof. reflexivity. Qed.

Lemma occursIn_length (p s : jsstring) : occursIn p s → length p ≤ length s.
Proof. intros (a & b & ->). rewrite !length_app. lia. Qed.

Lemma occursIn_cons_iff (p : jsstring) c s :
  occursIn p (c :: s) ↔ startsWith p (c :: s) = true ∨ occursIn p s.
Proof.
  split.
  - intros (a & b & Hs). destruct a as [|d a]; simpl in Hs.
    + left. apply startsWith_spec. by exists b.
    + right. injection Hs as -> ->. by exists a, b.
  - intros [Hp|(a & b & ->)].
    + apply startsWith_spec in Hp as [b ->]. by exists [], b.
    + by exists (c :: a), b.
Qed.

(** Whether a fence starts at the head of [x ++ ...] is decided by [x]
    and the two code units that follow, as soon as [x] is not empty. *)
Lemma startsWith_FENCE_app (x rest : jsstring) :
  x ≠ [] →
  startsWith FENCE (x ++ FENCE ++ rest) = startsWith FENCE (x ++ take 2 FENCE).
Proof.
  intros Hx. rewrite FENCE_eq.
  destruct x as [|c [|c1 [|c2 x]]]; [done| | |]; reflexivity.
Qed.

Lemma startsWith_FENCE_head c (s : jsstring) :
  c ≠ 96%N → startsWith FENCE (c :: s) = false.
Proof.
  intros Hc. rewrite FENCE_eq. cbn [startsWith]. apply andb_false_iff. left.
  apply N.eqb_neq. congruence.
Qed.

Lemma isWhiteSpace_not_backtick c : isWhiteSpace c = true → c ≠ 96%N.
Proof. by intros Hc ->. Qed.

(** *** The lazy scan for the closing fence *)

Lemma lazyUntilFence_first (rest body post : jsstring) :
  firstFence rest body post → lazyUntilFence rest = Some body.
Proof.
  intros [-> Hfirst]. induction body as [|c body IH].
  - reflexivity.
  - change ((c :: body) ++ FENCE ++ post) with (c :: (body ++ FENCE ++ post)).
    cbn [lazyUntilFence].
    change (c :: (body ++ FENCE ++ post)) with ((c :: body) ++ FENCE ++ post).
    rewrite startsWith_FENCE_app by done.
    destruct (startsWith FENCE ((c :: body) ++ take 2 FENCE)) eqn:E.
    + exfalso. apply Hfirst. apply occursIn_cons_iff. by left.
    + rewrite IH; [done|]. intros Hocc. apply Hfirst.
      apply occursIn_cons_iff. by right.
Qed.

Lemma lazyUntilFence_Some (s m : jsstring) :
  lazyUntilFence s = Some m → ∃ post, s = m ++ FENCE ++ post.
Proof.
  revert m. induction s as [|c s IH]; intros m.
  - done.
  - cbn [lazyUntilFence]. destruct (startsWith FENCE (c :: s)) eqn:E.
    + intros [= <-]. by apply startsWith_spec in E.
    + destruct (lazyUntilFence s) as [m'|]; [|done]. intros [= <-].
      destruct (IH m' eq_refl) as [post ->]. by exists post.
Qed.

Lemma lazyUntilFence_occursIn (s : jsstring) :
  occursIn FENCE s → is_Some (lazyUntilFence s).
Proof.
  induction s as [|c s IH]; intros Hocc.
  - apply occursIn_length in Hocc. rewrite FENCE_eq in Hocc. simpl in Hocc. lia.
  - cbn [lazyUntilFence]. destruct (startsWith FENCE (c :: s)) eqn:E; [done|].
    apply occursIn_cons_iff in Hocc as [Hocc|Hocc]; [congruence|].
    destruct (IH Hocc) as [m ->]. done.
Qed.

(** *** White space and the optional tag *)

Lemma wsStar_Some k (s m : jsstring) :
  wsStar k s = Some m → ∃ u y, s = u ++ y ∧ k y = Some m.
Proof.
  induction s as [|c s IH]; simpl.
  - intros Hk. by exists [], [].
  - destruct (isWhiteSpace c).
    + destruct (wsStar k s) as [m'|] eqn:E.
      * intros [= ->]. destruct (IH eq_refl) as (u & y & -> & Hy).
        by exists (c :: u), y.
      * intros Hk. by exists [], (c :: s).
    + intros Hk. by exists [], (c :: s).
Qed.

Lemma wsStar_None k (s : jsstring) : wsStar k s = None → k s = None.
Proof.
  destruct s as [|c s]; simpl; [done|].
  destruct (isWhiteSpace c); [|done]. by destruct (wsStar k s).
Qed.

(** The greedy run takes all the leading white space when what follows
    can be matched. *)
Lemma wsStar_trimStart k (s m : jsstring) :
  k (trimStart s) = Some m → wsStar k s = Some m.
Proof.
  induction s as [|c s IH]; simpl; [done|].
  destruct (isWhiteSpace c); [|done]. intros Hk. by rewrite IH.
Qed.

Lemma optJson_Some k (s m : jsstring) :
  optJson k s = Some m → ∃ u y, s = u ++ y ∧ k y = Some m.
Proof.
  unfold optJson. destruct (startsWith (js "json") s) eqn:E.
  - destruct (k (drop 4 s)) as [m'|] eqn:Ek.
    + intros [= ->]. exists (take 4 s), (drop 4 s). by rewrite take_drop.
    + intros Hk. by exists [], s.
  - intros Hk. by exists [], s.
Qed.

Lemma optJson_None k (s : jsstring) : optJson k s = None → k s = None.
Proof.
  unfold optJson. destruct (startsWith (js "json") s); [|done].
  by destruct (k (drop 4 s)).
Qed.

(** *** The fence pattern *)

Lemma fenceAt_Some (s m : jsstring) : fenceAt s = Some m → hasFencedBlock s.
Proof.
  unfold fenceAt. destruct (startsWith FENCE s) eqn:E; [|done].
  apply startsWith_spec in E as [x ->]. intros Hm.
  replace (drop 3 (FENCE ++ x)) with x in Hm by (by rewrite FENCE_eq).
  apply optJson_Some in Hm as (u & y & -> & Hm).
  apply wsStar_Some in Hm as (u' & y' & -> & Hm).
  apply lazyUntilFence_Some in Hm as [post ->].
  exists [], (u ++ u' ++ m), post. rewrite <- !app_assoc. done.
Qed.

Lemma matchFence_Some (s m : jsstring) : matchFence s = Some m → hasFencedBlock s.
Proof.
  induction s as [|c s IH]; cbn [matchFence].
  - destruct (fenceAt []) eqn:E; [|done]. intros _. by eapply fenceAt_Some.
  - destruct (fenceAt (c :: s)) eqn:E.
    + intros _. by eapply fenceAt_Some.
    + intros Hm. destruct (IH Hm) as (a & b & d & ->). by exists (c :: a), b, d.
Qed.

Lemma matchFence_None (s : jsstring) : ¬ hasFencedBlock s → matchFence s = None.
Proof.
  intros Hn. destruct (matchFence s) as [m|] eqn:E; [|done].
  by apply matchFence_Some in E.
Qed.

(** No match can start before the first fence. *)
Lemma matchFence_skip (pre rest : jsstring) :
  ¬ occursIn FENCE (pre ++ take 2 FENCE) →
  matchFence (pre ++ FENCE ++ rest) = matchFence (FENCE ++ rest).
Proof.
  induction pre as [|c pre IH]; intros Hfirst; [done|].
  change ((c :: pre) ++ FENCE ++ rest) with (c :: (pre ++ FENCE ++ rest)).
  cbn [matchFence]. unfold fenceAt at 1.
  change (c :: (pre ++ FENCE ++ rest)) with ((c :: pre) ++ FENCE ++ rest).
  rewrite startsWith_FENCE_app by done.
  destruct (startsWith FENCE ((c :: pre) ++ take 2 FENCE)) eqn:E.
  - exfalso. apply Hfirst. apply occursIn_cons_iff. by left.
  - apply IH. intros Hocc. apply Hfirst. apply occursIn_cons_iff. by right.
Qed.

Lemma trimStart_app_fence (body post : jsstring) :
  trimStart (body ++ FENCE ++ post) = trimStart body ++ FENCE ++ post.
Proof.
  induction body as [|c body IH]; [done|].
  simpl. by destruct (isWhiteSpace c).
Qed.

Lemma wsStar_lazyUntilFence_first (rest body post : jsstring) :
  firstFence rest body post → wsStar lazyUntilFence rest = Some (trimStart body).
Proof.
  intros [-> Hfirst]. apply wsStar_trimStart. rewrite trimStart_app_fence.
  apply (lazyUntilFence_first _ _ post). split; [done|].
  intros Hocc. apply Hfirst.
  destruct (trimStart_spec body) as (w & Hb & _). rewrite Hb at 1.
  rewrite <- app_assoc. by apply occursIn_app_r.
Qed.

Lemma fenceAt_block (tag rest body post : jsstring) :
  tag = js "json" ∨ (tag = [] ∧ startsWith (js "json") rest = false) →
  firstFence rest body post →
  fenceAt (FENCE ++ tag ++ rest) = Some (trimStart body).
Proof.
  intros Htag Hfirst. unfold fenceAt.
  replace (startsWith FENCE (FENCE ++ tag ++ rest)) with true by (by rewrite FENCE_eq).
  replace (drop 3 (FENCE ++ tag ++ rest)) with (tag ++ rest) by (by rewrite FENCE_eq).
  unfold optJson. destruct Htag as [->|[-> Hno]].
  - replace (startsWith (js "json") (js "json" ++ rest)) with true by done.
    replace (drop 4 (js "json" ++ rest)) with rest by done.
    by rewrite (wsStar_lazyUntilFence_first rest body post).
  - change ([] ++ rest) with rest. rewrite Hno.
    by apply (wsStar_lazyUntilFence_first rest body post).
Qed.

Lemma matchFence_block (raw pre tag body post : jsstring) :
  fencedBlock raw pre tag body post → matchFence raw = Some (trimStart body).
Proof.
  intros (rest & [-> Hpre] & Htag & Hbody).
  rewrite matchFence_skip by done.
  assert (fenceAt (FENCE ++ tag ++ rest) = Some (trimStart body)) as Hat
    by (by eapply fenceAt_block).
  rewrite FENCE_eq in *.
  change ([96; 96; 96]%N ++ tag ++ rest) with (96%N :: ([96; 96]%N ++ tag ++ rest)) in *.
  cbn [matchFence]. by rewrite Hat.
Qed.

(** *** Existence of the first fence and of the block *)

Lemma first_fence (s : jsstring) :
  occursIn FENCE s → ∃ pre rest, firstFence s pre rest.
Proof.
  induction s as [|c s IH]; intros Hocc.
  - apply occursIn_length in Hocc. rewrite FENCE_eq in Hocc. simpl in Hocc. lia.
  - destruct (startsWith FENCE (c :: s)) eqn:E.
    + apply startsWith_spec in E as [rest Hs]. exists [], rest. split; [done|].
      intros Ho. apply occursIn_length in Ho. rewrite FENCE_eq in Ho. simpl in Ho. lia.
    + apply occursIn_cons_iff in Hocc as [Hocc|Hocc]; [congruence|].
      destruct (IH Hocc) as (pre & rest & -> & Hfirst).
      exists (c :: pre), rest. split; [done|].
      intros Ho. apply occursIn_cons_iff in Ho as [Ho|Ho]; [|done].
      assert (startsWith FENCE ((c :: pre) ++ FENCE ++ rest) = true) as Ho'
        by (rewrite startsWith_FENCE_app by done; exact Ho).
      assert (true = false) by (rewrite <- Ho'; exact E). done.
Qed.

(** The first fence of a text with a fenced block is followed by another
    fence. *)
Lemma first_fence_then_fence (s : jsstring) :
  hasFencedBlock s → ∃ pre x, firstFence s pre x ∧ occursIn FENCE x.
Proof.
  induction s as [|c s IH]; intros (a & b & d & Hs).
  - exfalso. apply (f_equal length) in Hs. rewrite !length_app, FENCE_eq in Hs.
    simpl in Hs. lia.
  - destruct (startsWith FENCE (c :: s)) eqn:E.
    + apply startsWith_spec in E as [x Hx]. exists [], x. split.
      * split; [done|]. intros Ho. apply occursIn_length in Ho.
        rewrite FENCE_eq in Ho. simpl in Ho. lia.
      * assert (x = drop 3 (c :: s)) as -> by (by rewrite Hx, FENCE_eq).
        rewrite Hs. rewrite (app_assoc a), (app_assoc (a ++ FENCE)).
        rewrite drop_app_le by (rewrite !length_app, FENCE_eq; simpl; lia).
        by exists (drop 3 ((a ++ FENCE) ++ b)), d.
    + destruct a as [|c' a].
      { exfalso. rewrite Hs, FENCE_eq in E. cbn in E. done. }
      simpl in Hs. injection Hs as <- ->.
      destruct IH as (pre & x & [Hs Hfirst] & Hx); [by exists a, b, d|].
      exists (c :: pre), x. split; [|done]. split; [simpl; by f_equal|].
      intros Ho. apply occursIn_cons_iff in Ho as [Ho|Ho]; [|done].
      assert (startsWith FENCE ((c :: pre) ++ FENCE ++ x) = true) as Ho'
        by (rewrite startsWith_FENCE_app by done; exact Ho).
      assert (true = false); [|done].
      rewrite <- Ho'. change (startsWith FENCE (c :: (pre ++ FENCE ++ x)) = false).
      rewrite <- Hs. exact E.
Qed.

Lemma occursIn_FENCE_cons c (s : jsstring) :
  c ≠ 96%N → occursIn FENCE (c :: s) → occursIn FENCE s.
Proof.
  intros Hc Ho. apply occursIn_cons_iff in Ho as [Ho|Ho]; [|done].
  by rewrite startsWith_FENCE_head in Ho.
Qed.

Lemma fencedBlock_exists (raw : jsstring) :
  hasFencedBlock raw → ∃ pre tag body post, fencedBlock raw pre tag body post.
Proof.
  intros Hf. apply first_fence_then_fence in Hf as (pre & x & Hpre & Hx).
  destruct (startsWith (js "json") x) eqn:E.
  - apply startsWith_spec in E as [rest ->].
    assert (occursIn FENCE rest) as Hrest.
    { change (js "json" ++ rest) with (106 :: 115 :: 111 :: 110 :: rest)%N in Hx.
      do 4 (apply occursIn_FENCE_cons in Hx; [|done]). done. }
    apply first_fence in Hrest as (body & post & Hbody).
    exists pre, (js "json"), body, post, rest. split; [done|]. split; [by left | done].
  - apply first_fence in Hx as (body & post & Hbody).
    exists pre, [], body, post, x. split; [done|]. split; [by right | done].
Qed.

(** *** The brace pattern *)

Lemma greedyThroughBrace_None (c : jsstring) :
  chr "}" ∉ c → greedyThroughBrace c = None.
Proof.
  induction c as [|x c IH]; intros Hc; [done|].
  apply not_elem_of_cons in Hc as [Hx Hc]. cbn [greedyThroughBrace]. rewrite IH by done.
  destruct (x =? chr "}")%N eqn:E; [|done]. apply N.eqb_eq in E. congruence.
Qed.

Lemma greedyThroughBrace_last (m c : jsstring) :
  chr "}" ∉ c → greedyThroughBrace (m ++ [chr "}"] ++ c) = Some (m ++ [chr "}"]).
Proof.
  intros Hc. induction m as [|x m IH].
  - change ([] ++ [chr "}"] ++ c) with (chr "}" :: c).
    cbn [greedyThroughBrace]. rewrite greedyThroughBrace_None by done.
    by rewrite N.eqb_refl.
  - change ((x :: m) ++ [chr "}"] ++ c) with (x :: (m ++ [chr "}"] ++ c)).
    cbn [greedyThroughBrace]. by rewrite IH.
Qed.

Lemma greedyThroughBrace_Some (s m : jsstring) :
  greedyThroughBrace s = Some m → ∃ m' c, m = m' ++ [chr "}"] ∧ s = m ++ c.
Proof.
  revert m. induction s as [|x s IH]; intros m; [done|].
  cbn [greedyThroughBrace]. destruct (greedyThroughBrace s) as [m0|].
  - intros [= <-]. destruct (IH m0 eq_refl) as (m' & c & -> & ->).
    by exists (x :: m'), c.
  - destruct (x =? chr "}")%N eqn:E; [|done]. apply N.eqb_eq in E as ->.
    intros [= <-]. by exists [], s.
Qed.

Lemma matchObject_span (raw a m c : jsstring) :
  braceSpan raw a m c → matchObject raw = Some ([chr "{"] ++ m ++ [chr "}"]).
Proof.
  intros (-> & Ha & Hc). induction a as [|x a IH].
  - change ([] ++ [chr "{"] ++ m ++ [chr "}"] ++ c)
      with (chr "{" :: (m ++ [chr "}"] ++ c)).
    cbn [matchObject]. rewrite N.eqb_refl. by rewrite greedyThroughBrace_last.
  - apply not_elem_of_cons in Ha as [Hx Ha].
    change ((x :: a) ++ [chr "{"] ++ m ++ [chr "}"] ++ c)
      with (x :: (a ++ [chr "{"] ++ m ++ [chr "}"] ++ c)).
    cbn [matchObject].
    destruct (x =? chr "{")%N eqn:E; [apply N.eqb_eq in E; congruence|].
    by apply IH.
Qed.

Lemma matchObject_Some (s m : jsstring) : matchObject s = Some m → hasBraceSpan s.
Proof.
  induction s as [|x s IH]; [done|]. cbn [matchObject].
  destruct (x =? chr "{")%N eqn:E.
  - apply N.eqb_eq in E as ->. destruct (greedyThroughBrace s) as [m0|] eqn:Eg.
    + intros _. apply greedyThroughBrace_Some in Eg as (m' & c & -> & ->).
      exists [], m', c. by rewrite <- !app_assoc.
    + intros Hm. destruct (IH Hm) as (a & m' & c & ->). by exists (chr "{" :: a), m', c.
  - intros Hm. destruct (IH Hm) as (a & m' & c & ->). by exists (x :: a), m', c.
Qed.

Lemma matchObject_None (s : jsstring) : ¬ hasBraceSpan s → matchObject s = None.
Proof.
  intros Hn. destruct (matchObject s) as [m|] eqn:E; [|done].
  by apply matchObject_Some in E.
Qed.

Lemma braceSpan_exists (raw : jsstring) :
  hasBraceSpan raw → ∃ a m c, braceSpan raw a m c.
Proof.
  intros (a & m & c & ->).
  assert (chr "{" ∈ a ++ [chr "{"]) as Hopen by (apply elem_of_app; right; by left).
  apply list_elem_of_split_l in Hopen as (a1 & a2 & Ha & Hfirst).
  assert (chr "}" ∈ [chr "}"] ++ c) as Hclose by (by left).
  apply list_elem_of_split_r in Hclose as (c1 & c2 & Hc & Hlast).
  exists a1, (a2 ++ m ++ c1), c2. split; [|done].
  transitivity ((a ++ [chr "{"]) ++ m ++ ([chr "}"] ++ c)); [by rewrite <- !app_assoc|].
  rewrite Ha, Hc. rewrite <- !app_assoc. done.
Qed.

Lemma trim_trimStart (s : jsstring) : trim (trimStart s) = trim s.
Proof. unfold trim. by rewrite trimStart_idem. Qed.

Lemma extractJson_fenced (raw pre tag body post : jsstring) :
  fencedBlock raw pre tag body post → extractJson raw = trim body.
Proof.
  intros Hb. unfold extractJson. rewrite (matchFence_block raw pre tag body post Hb).
  apply trim_trimStart.
Qed.

Lemma extractJson_braces (raw a m c : jsstring) :
  ¬ hasFencedBlock raw → braceSpan raw a m c →
  extractJson raw = [chr "{"] ++ m ++ [chr "}"].
Proof.
  intros Hn Hs. unfold extractJson. rewrite matchFence_None by done.
  by rewrite (matchObject_span raw a m c Hs).
Qed.

(** C6. [extractJson] obeys: when [raw] contains a fenced code block, the
    result is the trimmed interior of the block, that is of the first
    fence of [raw], without its optional [json] tag, up to the next
    fence; otherwise, when [raw] contains a span from an opening brace to
    a closing brace, the result is the first such span, which opens at
    the first opening brace and runs through the last closing brace;
    otherwise the result is the trimmed [raw]. The fenced example of the
    specification normalizes to the single option [A] with empty pros,
    cons and scores, and to no trade-offs. *)
Theorem C6_extraction `{Engine} :
  (∀ raw,
     hasFencedBlock raw →
     ∃ pre tag body post,
       fencedBlock raw pre tag body post ∧ extractJson raw = trim body)
  ∧ (∀ raw pre tag body post,
       fencedBlock raw pre tag body post → extractJson raw = trim body)
  ∧ (∀ raw,
       ¬ hasFencedBlock raw → hasBraceSpan raw →
       ∃ a m c, braceSpan raw a m c ∧ extractJson raw = [chr "{"] ++ m ++ [chr "}"])
  ∧ (∀ raw a m c,
       ¬ hasFencedBlock raw → braceSpan raw a m c →
       extractJson raw = [chr "{"] ++ m ++ [chr "}"])
  ∧ (∀ raw,
       ¬ hasFencedBlock raw → ¬ hasBraceSpan raw → extractJson raw = trim raw)
  ∧ normalizeGrokResponse (VStr fencedExample)
    = Return (NormalizedComparisonResult.mk [optionA] []).
Proof.
  split; [|split; [|split; [|split; [|split]]]].
  - intros raw Hf. destruct (fencedBlock_exists raw Hf) as (pre & tag & body & post & Hb).
    exists pre, tag, body, post. split; [done|]. by eapply extractJson_fenced.
  - apply extractJson_fenced.
  - intros raw Hn Hs. destruct (braceSpan_exists raw Hs) as (a & m & c & Hb).
    exists a, m, c. split; [done|]. by eapply extractJson_braces.
  - intros raw a m c. apply extractJson_braces.
  - intros raw Hnf Hnb. unfold extractJson.
    by rewrite matchFence_None, matchObject_None.
  - reflexivity.
Qed.

Lemma no_fence_in_short (s : jsstring) : length s < 6 → ¬ hasFencedBlock s.
Proof.
  intros Hlen (a & b & c & ->). rewrite !length_app, FENCE_eq in Hlen. simpl in Hlen. lia.
Qed.

Lemma C6_witness :
  (∃ pre tag body post,
     fencedBlock fencedExample pre tag body post
     ∧ extractJson fencedExample = trim body)
  ∧ extractJson (js "a {}") = [chr "{"] ++ [] ++ [chr "}"]
  ∧ extractJson (js " no ") = trim (js " no ").
Proof.
  destruct (@C6_extraction sampleEngine) as (A & _ & _ & B & C & _).
  split; [|split].
  - apply (A fencedExample).
    exists [], (take (length fencedExample - 6) (drop 3 fencedExample)), [].
    reflexivity.
  - apply (B (js "a {}") (js "a ") [] []).
    + apply no_fence_in_short. apply Nat.ltb_lt. reflexivity.
    + split; [reflexivity|]. split.
      * intros Hin. apply list_elem_of_In in Hin. vm_compute in Hin.
        repeat destruct Hin as [Hin|Hin]; try discriminate Hin. exact Hin.
      * apply not_elem_of_nil.
  - apply (C (js " no ")).
    + apply no_fence_in_short. apply Nat.ltb_lt. reflexivity.
    + intros (a & m & c & Heq).
      assert (chr "{" ∈ js " no ") as Hin.
      { rewrite Heq. apply elem_of_app. right. apply elem_of_app. left. by left. }
      apply list_elem_of_In in Hin. vm_compute in Hin.
      repeat destruct Hin as [Hin|Hin]; try discriminate Hin. exact Hin.
Defined.

(** ** [JSON.parse] inverts [JSON.stringify] *)

(** *** Strings *)

Lemma hexDigit_hexChar (d : N) : (d < 16)%N → hexDigit (hexChar d) = Some d.
Proof.
  intros Hd.
  assert (d = 0 ∨ d = 1 ∨ d = 2 ∨ d = 3 ∨ d = 4 ∨ d = 5 ∨ d = 6 ∨ d = 7 ∨ d = 8
          ∨ d = 9 ∨ d = 10 ∨ d = 11 ∨ d = 12 ∨ d = 13 ∨ d = 14 ∨ d = 15)%N
    as Hcases by lia.
  repeat destruct Hcases as [->|Hcases]; try reflexivity. by subst.
Qed.

Lemma hex_digits_value (c : N) :
  (c < 65536)%N →
  ((c / 4096 mod 16) * 4096 + (c / 256 mod 16) * 256 + (c / 16 mod 16) * 16 + c mod 16
   = c)%N.
Proof.
  intros Hc.
  assert (c / 4096 < 16)%N by (apply N.Div0.div_lt_upper_bound; lia).
  rewrite (N.mod_small (c / 4096) 16) by done.
  pose proof (N.div_mod c 16 ltac:(done)).
  pose proof (N.div_mod (c / 16) 16 ltac:(done)).
  pose proof (N.div_mod (c / 256) 16 ltac:(done)).
  assert (c / 16 / 16 = c / 256)%N by (by rewrite N.Div0.div_div).
  assert (c / 256 / 16 = c / 4096)%N by (by rewrite N.Div0.div_div).
  lia.
Qed.

Lemma parseChars_verbatim c (t : jsstring) :
  c ≠ QUOTE → c ≠ BACKSLASH → (32 ≤ c)%N →
  parseChars (c :: t)
  = match parseChars t with
    | Some (cs, r) => Some (c :: cs, r)
    | None => None
    end.
Proof.
  intros Hq Hb Hc. cbn [parseChars].
  apply N.eqb_neq in Hq, Hb. rewrite Hq, Hb.
  by replace (c <? 32)%N with false by (symmetry; apply N.ltb_ge; lia).
Qed.

Lemma parseChars_unicodeEscape c (t : jsstring) :
  (c < 65536)%N →
  parseChars (unicodeEscape c ++ t)
  = match parseChars t with
    | Some (cs, r) => Some (c :: cs, r)
    | None => None
    end.
Proof.
  intros Hc. unfold unicodeEscape.
  change (parseChars ([BACKSLASH; chr "u"; hexChar (c / 4096 mod 16);
                       hexChar (c / 256 mod 16); hexChar (c / 16 mod 16);
                       hexChar (c mod 16)]%N ++ t))
    with (match hexDigit (hexChar (c / 4096 mod 16)), hexDigit (hexChar (c / 256 mod 16)),
                hexDigit (hexChar (c / 16 mod 16)), hexDigit (hexChar (c mod 16)) with
          | Some d1, Some d2, Some d3, Some d4 =>
              match parseChars t with
              | Some (cs, r) => Some ((d1 * 4096 + d2 * 256 + d3 * 16 + d4)%N :: cs, r)
              | None => None
              end
          | _, _, _, _ => None
          end).
  rewrite !hexDigit_hexChar by (apply N.mod_lt; done).
  by rewrite hex_digits_value.
Qed.

(** The characters written by [quoteChars], followed by the closing
    quote, are read back as the string itself. *)
Lemma parseChars_quoteChars (s : jsstring) paired rest :
  (paired = true → ∃ d t, s = d :: t ∧ isLowSurrogate d = true) →
  parseChars (quoteChars paired s ++ QUOTE :: rest) = Some (s, rest).
Proof.
  revert paired. induction s as [|c s IH]; intros paired Hpaired; [done|].
  cbn [quoteChars]. destruct paired.
  - destruct (Hpaired eq_refl) as (d & t & [= <- <-] & Hlow).
    unfold isLowSurrogate in Hlow. apply andb_true_iff in Hlow as [Hlo _].
    apply N.leb_le in Hlo.
    change ((c :: quoteChars false s) ++ QUOTE :: rest)
      with (c :: (quoteChars false s ++ QUOTE :: rest)).
    rewrite parseChars_verbatim; [| unfold QUOTE; lia | unfold BACKSLASH; lia | lia].
    by rewrite IH.
  - assert (parseChars (quoteChars false s ++ QUOTE :: rest) = Some (s, rest)) as IH0
      by (by apply IH).
    destruct (c =? 8)%N eqn:E8.
    { apply N.eqb_eq in E8 as ->. rewrite <- app_assoc.
      change (parseChars (js "\b" ++ quoteChars false s ++ QUOTE :: rest))
        with (match parseChars (quoteChars false s ++ QUOTE :: rest) with
              | Some (cs, r) => Some (8%N :: cs, r)
              | None => None
              end).
      by rewrite IH0. }
    destruct (c =? 9)%N eqn:E9.
    { apply N.eqb_eq in E9 as ->. rewrite <- app_assoc.
      change (parseChars (js "\t" ++ quoteChars false s ++ QUOTE :: rest))
        with (match parseChars (quoteChars false s ++ QUOTE :: rest) with
              | Some (cs, r) => Some (9%N :: cs, r)
              | None => None
              end).
      by rewrite IH0. }
    destruct (c =? 10)%N eqn:E10.
    { apply N.eqb_eq in E10 as ->. rewrite <- app_assoc.
      change (parseChars (js "\n" ++ quoteChars false s ++ QUOTE :: rest))
        with (match parseChars (quoteChars false s ++ QUOTE :: rest) with
              | Some (cs, r) => Some (10%N :: cs, r)
              | None => None
              end).
      by rewrite IH0. }
    destruct (c =? 12)%N eqn:E12.
    { apply N.eqb_eq in E12 as ->. rewrite <- app_assoc.
      change (parseChars (js "\f" ++ quoteChars false s ++ QUOTE :: rest))
        with (match parseChars (quoteChars false s ++ QUOTE :: rest) with
              | Some (cs, r) => Some (12%N :: cs, r)
              | None => None
              end).
      by rewrite IH0. }
    destruct (c =? 13)%N eqn:E13.
    { apply N.eqb_eq in E13 as ->. rewrite <- app_assoc.
      change (parseChars (js "\r" ++ quoteChars false s ++ QUOTE :: rest))
        with (match parseChars (quoteChars false s ++ QUOTE :: rest) with
              | Some (cs, r) => Some (13%N :: cs, r)
              | None => None
              end).
      by rewrite IH0. }
    destruct (c =? QUOTE)%N eqn:Eq.
    { apply N.eqb_eq in Eq as ->. rewrite <- app_assoc.
      change (parseChars ([BACKSLASH; QUOTE] ++ quoteChars false s ++ QUOTE :: rest))
        with (match parseChars (quoteChars false s ++ QUOTE :: rest) with
              | Some (cs, r) => Some (QUOTE :: cs, r)
              | None => None
              end).
      by rewrite IH0. }
    destruct (c =? BACKSLASH)%N eqn:Eb.
    { apply N.eqb_eq in Eb as ->. rewrite <- app_assoc.
      change (parseChars ([BACKSLASH; BACKSLASH] ++ quoteChars false s ++ QUOTE :: rest))
        with (match parseChars (quoteChars false s ++ QUOTE :: rest) with
              | Some (cs, r) => Some (BACKSLASH :: cs, r)
              | None => None
              end).
      by rewrite IH0. }
    apply N.eqb_neq in Eq, Eb.
    destruct (c <? 32)%N eqn:E32.
    { apply N.ltb_lt in E32. rewrite <- app_assoc.
      rewrite parseChars_unicodeEscape by lia. by rewrite IH0. }
    apply N.ltb_ge in E32.
    destruct (isHighSurrogate c) eqn:Ehigh.
    { unfold isHighSurrogate in Ehigh. apply andb_true_iff in Ehigh as [_ Hhi].
      apply N.leb_le in Hhi.
      destruct s as [|d s'].
      - rewrite parseChars_unicodeEscape by lia. done.
      - destruct (isLowSurrogate d) eqn:Elow.
        + change ((c :: quoteChars true (d :: s')) ++ QUOTE :: rest)
            with (c :: (quoteChars true (d :: s') ++ QUOTE :: rest)).
          rewrite parseChars_verbatim by done.
          rewrite IH; [done|]. intros _. by exists d, s'.
        + rewrite <- app_assoc. rewrite parseChars_unicodeEscape by lia.
          by rewrite IH0. }
    destruct (isLowSurrogate c) eqn:Elow.
    { unfold isLowSurrogate in Elow. apply andb_true_iff in Elow as [_ Hhi].
      apply N.leb_le in Hhi.
      rewrite <- app_assoc. rewrite parseChars_unicodeEscape by lia. by rewrite IH0. }
    change ((c :: quoteChars false s) ++ QUOTE :: rest)
      with (c :: (quoteChars false s ++ QUOTE :: rest)).
    rewrite parseChars_verbatim by done. by rewrite IH0.
Qed.

(** *** Values *)

Lemma value_ind_nested (P : value → Prop) :
  P VNull →
  (∀ b, P (VBool b)) →
  (∀ literal, P (VNum literal)) →
  (∀ s, P (VStr s)) →
  (∀ elements, Forall P elements → P (VArr elements)) →
  (∀ props, Forall (λ p, P p.2) props → P (VObj props)) →
  ∀ v, P v.
Proof.
  intros Hnull Hbool Hnum Hstr Harr Hobj.
  fix IH 1. intros [|b|literal|s|elements|props].
  - exact Hnull.
  - apply Hbool.
  - apply Hnum.
  - apply Hstr.
  - apply Harr. induction elements as [|v elements IHel]; constructor.
    + apply IH.
    + exact IHel.
  - apply Hobj. induction props as [|[k v] props IHprops]; constructor.
    + apply IH.
    + exact IHprops.
Qed.

Lemma skipWs_nonws c (t : jsstring) :
  isJsonWhiteSpace c = false → skipWs (c :: t) = c :: t.
Proof. intros Hc. simpl. by rewrite Hc. Qed.

Lemma parseValue_object fuel (s : jsstring) :
  parseValue (S fuel) (chr "{" :: s)
  = match skipWs s with
    | c :: s' =>
        if (c =? chr "}")%N then Some (VObj [], s')
        else match parseMembers fuel s with
             | Some (members, r) => Some (VObj (createProperties members), r)
             | None => None
             end
    | [] => None
    end.
Proof. reflexivity. Qed.

Lemma parseValue_array fuel (s : jsstring) :
  parseValue (S fuel) (chr "[" :: s)
  = match skipWs s with
    | c :: s' =>
        if (c =? chr "]")%N then Some (VArr [], s')
        else match parseElements fuel s with
             | Some (elements, r) => Some (VArr elements, r)
             | None => None
             end
    | [] => None
    end.
Proof. reflexivity. Qed.

Lemma parseValue_string fuel (s : jsstring) :
  parseValue (S fuel) (QUOTE :: s)
  = match parseChars s with
    | Some (cs, r) => Some (VStr cs, r)
    | None => None
    end.
Proof. reflexivity. Qed.

Lemma parseElements_S fuel (s : jsstring) :
  parseElements (S fuel) s
  = match parseValue fuel s with
    | Some (v, r) =>
        match skipWs r with
        | c :: r1 =>
            if (c =? chr ",")%N then
              match parseElements fuel r1 with
              | Some (vs, r2) => Some (v :: vs, r2)
              | None => None
              end
            else if (c =? chr "]")%N then Some ([v], r1)
            else None
        | [] => None
        end
    | None => None
    end.
Proof. reflexivity. Qed.

Lemma parseMembers_quote fuel (s : jsstring) :
  parseMembers (S fuel) (QUOTE :: s)
  = match parseChars s with
    | Some (k, r) =>
        match skipWs r with
        | c' :: r1 =>
            if (c' =? chr ":")%N then
              match parseValue fuel r1 with
              | Some (v, r2) =>
                  match skipWs r2 with
                  | c'' :: r3 =>
                      if (c'' =? chr ",")%N then
                        match parseMembers fuel r3 with
                        | Some (ms, r4) => Some ((k, v) :: ms, r4)
                        | None => None
                        end
                      else if (c'' =? chr "}")%N then Some ([(k, v)], r3)
                      else None
                  | [] => None
                  end
              | None => None
              end
            else None
        | [] => None
        end
    | None => None
    end.
Proof. reflexivity. Qed.

Lemma setProperty_fresh props k v :
  k ∉ props.*1 → setProperty props k v = props ++ [(k, v)].
Proof.
  induction props as [|[k' v'] props IH]; intros Hk; [done|].
  simpl in *. apply not_elem_of_cons in Hk as [Hne Hk].
  rewrite decide_False by done. by rewrite IH.
Qed.

Lemma createProperties_NoDup members :
  NoDup members.*1 → createProperties members = members.
Proof.
  unfold createProperties.
  assert (∀ acc, NoDup ((acc ++ members).*1) →
            foldl (λ props '(k, v), setProperty props k v) acc members = acc ++ members)
    as Hgen.
  { induction members as [|[k v] members IH]; intros acc Hnd; simpl.
    - by rewrite app_nil_r.
    - rewrite setProperty_fresh.
      + rewrite IH; [by rewrite <- app_assoc|]. by rewrite <- app_assoc.
      + rewrite fmap_app in Hnd. apply NoDup_app in Hnd as (_ & Hdisj & _).
        intros Hin. apply (Hdisj k Hin). simpl. by left. }
  intros Hnd. by apply (Hgen []).
Qed.

Section ParseStringify.
Context `{Engine}.

(** The text of a printable value opens with a code unit that is no white
    space and no closing bracket. *)
Lemma JSON_stringify_head v :
  printable v →
  ∃ c t, JSON_stringify v = c :: t ∧ isJsonWhiteSpace c = false ∧ c ≠ chr "]".
Proof.
  destruct 1 as [|[|]|s|elements _|props _ _]; cbn [JSON_stringify];
    eexists _, _; (split; [reflexivity|]); by split.
Qed.

Lemma parseElements_comma fuel (s : jsstring) v t :
  parseValue fuel s = Some (v, js "," ++ t) →
  parseElements (S fuel) s
  = match parseElements fuel t with
    | Some (vs, r) => Some (v :: vs, r)
    | None => None
    end.
Proof. intros Hv. rewrite parseElements_S, Hv. reflexivity. Qed.

Lemma parseElements_close fuel (s : jsstring) v t :
  parseValue fuel s = Some (v, js "]" ++ t) →
  parseElements (S fuel) s = Some ([v], t).
Proof. intros Hv. rewrite parseElements_S, Hv. reflexivity. Qed.

Lemma parseElements_stringify (elements : list value) :
  elements ≠ [] →
  Forall (λ v, printable v ∧ parsesBack v) elements →
  ∀ fuel rest,
    weights (weight <$> elements) ≤ fuel →
    parseElements fuel (join (js ",") (JSON_stringify <$> elements) ++ js "]" ++ rest)
    = Some (elements, rest).
Proof.
  intros Hne Hall. induction Hall as [|v vs [Hp Hv] Hall IH]; [done|].
  intros fuel rest Hfuel. cbn [fmap list_fmap weights] in Hfuel.
  destruct fuel as [|fuel]; [lia|].
  destruct vs as [|v' vs].
  - cbn [fmap list_fmap join]. apply parseElements_close. apply Hv. lia.
  - cbn [fmap list_fmap]. rewrite join_cons_cons. rewrite <- !app_assoc.
    erewrite parseElements_comma; [| apply Hv; lia].
    change (JSON_stringify v' :: list_fmap value jsstring JSON_stringify vs)
      with (JSON_stringify <$> v' :: vs).
    rewrite IH; [done | done |].
    cbn [fmap list_fmap weights] in *. lia.
Qed.

Lemma parseValue_array_elements fuel c (t : jsstring) :
  isJsonWhiteSpace c = false → c ≠ chr "]" →
  parseValue (S fuel) (chr "[" :: c :: t)
  = match parseElements fuel (c :: t) with
    | Some (elements, r) => Some (VArr elements, r)
    | None => None
    end.
Proof.
  intros Hws Hc. rewrite parseValue_array, skipWs_nonws by done.
  apply N.eqb_neq in Hc. by rewrite Hc.
Qed.

Lemma parseMembers_comma fuel (s : jsstring) k r1 v t :
  parseChars s = Some (k, js ":" ++ r1) →
  parseValue fuel r1 = Some (v, js "," ++ t) →
  parseMembers (S fuel) (QUOTE :: s)
  = match parseMembers fuel t with
    | Some (ms, r) => Some ((k, v) :: ms, r)
    | None => None
    end.
Proof.
  intros Hk Hv. rewrite parseMembers_quote, Hk.
  change (skipWs (js ":" ++ r1)) with (chr ":" :: r1). cbv beta iota.
  replace (chr ":" =? chr ":")%N with true by done. rewrite Hv. reflexivity.
Qed.

Lemma parseMembers_close fuel (s : jsstring) k r1 v t :
  parseChars s = Some (k, js ":" ++ r1) →
  parseValue fuel r1 = Some (v, js "}" ++ t) →
  parseMembers (S fuel) (QUOTE :: s) = Some ([(k, v)], t).
Proof.
  intros Hk Hv. rewrite parseMembers_quote, Hk.
  change (skipWs (js ":" ++ r1)) with (chr ":" :: r1). cbv beta iota.
  replace (chr ":" =? chr ":")%N with true by done. rewrite Hv. reflexivity.
Qed.

(** The text of one member: the quoted key, a colon and the value. *)
Lemma parseMembers_stringify (props : list (jsstring * value)) :
  props ≠ [] →
  Forall (λ p, printable p.2 ∧ parsesBack p.2) props →
  ∀ fuel rest,
    weights ((λ p, weight p.2) <$> props) ≤ fuel →
    parseMembers fuel
      (join (js ",") ((λ p, quoteJSONString p.1 ++ js ":" ++ JSON_stringify p.2) <$> props)
         ++ js "}" ++ rest)
    = Some (props, rest).
Proof.
  intros Hne Hall. induction Hall as [|[k v] ps [Hp Hv] Hall IH]; [done|].
  intros fuel rest Hfuel. cbn [fmap list_fmap weights] in Hfuel. simpl in Hp, Hv, Hfuel.
  destruct fuel as [|fuel]; [lia|].
  destruct ps as [|p' ps].
  - cbn [fmap list_fmap join]. unfold quoteJSONString. cbn [fst snd].
    rewrite <- !app_assoc.
    change ([QUOTE] ++ quoteChars false k ++ [QUOTE] ++ js ":" ++ JSON_stringify v
              ++ js "}" ++ rest)
      with (QUOTE :: (quoteChars false k
                        ++ QUOTE :: (js ":" ++ JSON_stringify v ++ js "}" ++ rest))).
    eapply parseMembers_close.
    + by apply parseChars_quoteChars.
    + apply Hv. lia.
  - cbn [fmap list_fmap]. rewrite join_cons_cons. unfold quoteJSONString at 1.
    cbn [fst snd]. rewrite <- !app_assoc.
    match goal with
    | |- parseMembers _ (_ ++ _ ++ _ ++ _ ++ _ ++ _ ++ ?tail) = _ =>
        change (parseMembers (S fuel)
                  (QUOTE :: (quoteChars false k
                               ++ QUOTE :: (js ":" ++ JSON_stringify v ++ js "," ++ tail)))
                = Some ((k, v) :: p' :: ps, rest))
    end.
    erewrite parseMembers_comma;
      [| by apply parseChars_quoteChars | apply Hv; lia].
    change (join (js ",") _ ++ js "}" ++ rest)
      with (join (js ",")
              ((λ p, quoteJSONString p.1 ++ js ":" ++ JSON_stringify p.2) <$> p' :: ps)
              ++ js "}" ++ rest).
    rewrite IH; [done | done |].
    cbn [fmap list_fmap weights] in *. lia.
Qed.

Lemma parseValue_object_members fuel (t : jsstring) :
  parseValue (S fuel) (chr "{" :: QUOTE :: t)
  = match parseMembers fuel (QUOTE :: t) with
    | Some (members, r) => Some (VObj (createProperties members), r)
    | None => None
    end.
Proof. reflexivity. Qed.

(** Parsing the text of a printable value gives the value back. *)
Lemma parseValue_stringify v : printable v → parsesBack v.
Proof.
  induction v as [|b|literal|s|elements IH|props IH] using value_ind_nested;
    intros Hp fuel rest Hfuel; inversion Hp; subst.
  - destruct fuel as [|fuel]; [simpl in Hfuel; lia|]. reflexivity.
  - destruct fuel as [|fuel]; [simpl in Hfuel; lia|]. by destruct b.
  - destruct fuel as [|fuel]; [simpl in Hfuel; lia|].
    cbn [JSON_stringify]. unfold quoteJSONString. rewrite <- !app_assoc.
    change ([QUOTE] ++ quoteChars false s ++ [QUOTE] ++ rest)
      with (QUOTE :: (quoteChars false s ++ QUOTE :: rest)).
    rewrite parseValue_string. by rewrite parseChars_quoteChars.
  - destruct fuel as [|fuel]; [simpl in Hfuel; lia|].
    cbn [JSON_stringify weight] in *.
    destruct elements as [|v vs]; [reflexivity|].
    assert (Forall (λ v, printable v ∧ parsesBack v) (v :: vs)) as Hall.
    { apply Forall_forall. intros x Hx. rewrite Forall_forall in IH.
      match goal with Hpr : Forall printable _ |- _ => rewrite Forall_forall in Hpr end.
      split; [by auto | by apply IH; auto]. }
    pose proof (parseElements_stringify (v :: vs) ltac:(done) Hall fuel rest ltac:(lia))
      as Hparse.
    assert (printable v) as Hpv by (by inversion Hall as [|? ? [? ?]]).
    destruct (JSON_stringify_head v Hpv) as (c & t & Ht & Hws & Hc).
    rewrite <- !app_assoc.
    change (js "[" ++ join (js ",") (JSON_stringify <$> v :: vs) ++ js "]" ++ rest)
      with (chr "[" :: (join (js ",") (JSON_stringify <$> v :: vs) ++ js "]" ++ rest)).
    assert (∃ t', join (js ",") (JSON_stringify <$> v :: vs) ++ js "]" ++ rest = c :: t')
      as [t' Ht'].
    { destruct vs; cbn [fmap list_fmap]; [cbn [join]|rewrite join_cons_cons];
        rewrite Ht; by eexists. }
    rewrite Ht' in *. rewrite parseValue_array_elements by done. by rewrite Hparse.
  - destruct fuel as [|fuel]; [simpl in Hfuel; lia|].
    cbn [JSON_stringify weight] in *.
    destruct props as [|[k v] ps]; [reflexivity|].
    assert (Forall (λ p, printable p.2 ∧ parsesBack p.2) ((k, v) :: ps)) as Hall.
    { apply Forall_forall. intros x Hx. rewrite Forall_forall in IH.
      match goal with
      | Hpr : Forall (λ p, printable p.2) _ |- _ => rewrite Forall_forall in Hpr
      end.
      split; [by auto | by apply IH; auto]. }
    pose proof (parseMembers_stringify ((k, v) :: ps) ltac:(done) Hall fuel rest ltac:(lia))
      as Hparse.
    rewrite <- !app_assoc.
    assert (∃ t',
              join (js ",")
                ((λ p, quoteJSONString p.1 ++ js ":" ++ JSON_stringify p.2) <$> (k, v) :: ps)
                ++ js "}" ++ rest = QUOTE :: t') as [t' Ht'].
    { destruct ps; cbn [fmap list_fmap]; [cbn [join]|rewrite join_cons_cons];
        unfold quoteJSONString at 1; by eexists. }
    rewrite Ht' in *.
    change (js "{" ++ QUOTE :: t') with (chr "{" :: QUOTE :: t').
    rewrite parseValue_object_members, Hparse.
    by rewrite createProperties_NoDup.
Qed.
End ParseStringify.

Section ParsePrinted.
Context `{Engine}.

Lemma weights_le_join {A} (f : A → jsstring) (w : A → nat) (l : list A) :
  Forall (λ x, w x ≤ length (f x)) l →
  weights (w <$> l) ≤ length (join (js ",") (f <$> l)) + 1.
Proof.
  induction 1 as [|x l Hx Hl IH]; cbn [fmap list_fmap weights] in *; [simpl; lia|].
  destruct l as [|y l].
  - cbn [fmap list_fmap weights join]. lia.
  - cbn [fmap list_fmap] in *. rewrite join_cons_cons, !length_app.
    change (length (js ",")) with 1. lia.
Qed.

Lemma weight_le_length v : printable v → weight v ≤ length (JSON_stringify v).
Proof.
  induction v as [|b|literal|s|elements IH|props IH] using value_ind_nested;
    intros Hp; inversion Hp; subst; cbn [weight JSON_stringify].
  - change (length (js "null")) with 4. lia.
  - destruct b; [change (length (js "true")) with 4|change (length (js "false")) with 5]; lia.
  - unfold quoteJSONString. rewrite !length_app. simpl. lia.
  - rewrite !length_app. change (length (js "[")) with 1. change (length (js "]")) with 1.
    pose proof (weights_le_join JSON_stringify weight elements) as Hw.
    assert (Forall (λ x, weight x ≤ length (JSON_stringify x)) elements) as Hall.
    { apply Forall_forall. intros x Hx. rewrite Forall_forall in IH.
      match goal with Hpr : Forall printable _ |- _ => rewrite Forall_forall in Hpr end.
      auto. }
    specialize (Hw Hall). lia.
  - rewrite !length_app. change (length (js "{")) with 1. change (length (js "}")) with 1.
    pose proof (weights_le_join
                  (λ p : jsstring * value,
                     quoteJSONString p.1 ++ js ":" ++ JSON_stringify p.2)
                  (λ p, weight p.2) props) as Hw.
    assert (Forall (λ p : jsstring * value,
                      weight p.2
                      ≤ length (quoteJSONString p.1 ++ js ":" ++ JSON_stringify p.2)) props)
      as Hall.
    { apply Forall_forall. intros x Hx. rewrite Forall_forall in IH.
      match goal with
      | Hpr : Forall (λ p, printable p.2) _ |- _ =>
          rewrite Forall_forall in Hpr; specialize (IH x Hx (Hpr x Hx))
      end.
      rewrite !length_app. lia. }
    specialize (Hw Hall). lia.
Qed.

(** [JSON.parse(JSON.stringify(v))] is [v] for a printable [v]. *)
Lemma JSON_parse_stringify v : printable v → JSON_parse (JSON_stringify v) = Some v.
Proof.
  intros Hp. unfold JSON_parse.
  pose proof (weight_le_length v Hp) as Hw.
  pose proof (parseValue_stringify v Hp (2 * length (JSON_stringify v) + 2) []) as Hparse.
  rewrite app_nil_r in Hparse. rewrite Hparse by lia. done.
Qed.
End ParsePrinted.

(** ** The fuel of [JSON_parse] is enough

    Whatever some amount of fuel parses, twice the number of code units
    read parses as well; so [JSON_parse] rejects a text only when no
    amount of fuel parses it as one value followed by white space. *)

Lemma skipWs_length (s : jsstring) : length (skipWs s) ≤ length s.
Proof.
  induction s as [|c s IH]; simpl; [done|].
  destruct (isJsonWhiteSpace c); simpl; lia.
Qed.

Lemma parseChars_length_le (n : nat) :
  ∀ s cs r, length s ≤ n → parseChars s = Some (cs, r) → length r < length s.
Proof.
  induction n as [|n IH]; intros s cs r Hn Hp.
  - destruct s; [done|simpl in Hn; lia].
  - destruct s as [|c s1]; [done|]. simpl in Hn. cbn [parseChars] in Hp.
    destruct (c =? QUOTE)%N; [simplify_eq; simpl; lia|].
    destruct (c =? BACKSLASH)%N.
    + destruct s1 as [|e s2]; [done|]. simpl in Hn.
      destruct (e =? chr "u")%N.
      * destruct s2 as [|h1 [|h2 [|h3 [|h4 s3]]]]; try done.
        destruct (hexDigit h1), (hexDigit h2), (hexDigit h3), (hexDigit h4); try done.
        destruct (parseChars s3) as [[cs' r']|] eqn:E; [|done].
        simplify_eq. apply IH in E; simpl in *; lia.
      * destruct (unescape e); [|done].
        destruct (parseChars s2) as [[cs' r']|] eqn:E; [|done].
        simplify_eq. apply IH in E; simpl in *; lia.
    + destruct (c <? 32)%N; [done|].
      destruct (parseChars s1) as [[cs' r']|] eqn:E; [|done].
      simplify_eq. apply IH in E; simpl in *; lia.
Qed.

Lemma takeDigits_length (s : jsstring) : length (takeDigits s).2 ≤ length s.
Proof.
  induction s as [|c s IH]; simpl; [done|].
  destruct (isDigit c); simpl; [|lia].
  destruct (takeDigits s); simpl in *. lia.
Qed.

Lemma parseFraction_length (s ds r : jsstring) :
  parseFraction s = Some (ds, r) → length r ≤ length s.
Proof.
  unfold parseFraction. destruct s as [|c s]; [intros; simplify_eq; done|].
  destruct (c =? chr ".")%N; [|intros; simplify_eq; done].
  pose proof (takeDigits_length s) as Hl. destruct (takeDigits s) as [ds' r'].
  destruct (isEmpty ds'); [done|]. intros; simplify_eq. simpl in *. lia.
Qed.

Lemma parseExponent_length (s ds r : jsstring) :
  parseExponent s = Some (ds, r) → length r ≤ length s.
Proof.
  unfold parseExponent. destruct s as [|c s]; [intros; simplify_eq; done|].
  destruct (_ || _); [|intros; simplify_eq; done].
  destruct s as [|d t].
  - simpl. done.
  - destruct (_ || _).
    + pose proof (takeDigits_length t) as Hl. destruct (takeDigits t) as [ds' r'].
      destruct (isEmpty ds'); [done|]. intros; simplify_eq. simpl in *. lia.
    + pose proof (takeDigits_length (d :: t)) as Hl. destruct (takeDigits (d :: t)) as [ds' r'].
      destruct (isEmpty ds'); [done|]. intros; simplify_eq. simpl in *. lia.
Qed.

Ltac number_tail :=
  destruct (isDigit _); [|done];
  destruct (_ =? chr "0")%N;
  [|match goal with
    | |- context [takeDigits ?s] =>
        pose proof (takeDigits_length s); destruct (takeDigits s)
    end];
  (destruct (parseFraction _) as [[? ?]|] eqn:Ef; [|done];
   destruct (parseExponent _) as [[? ?]|] eqn:Ee; [|done];
   apply parseFraction_length in Ef; apply parseExponent_length in Ee;
   intros; simplify_eq; simpl in *; lia).

Lemma parseNumber_length (s l r : jsstring) :
  parseNumber s = Some (l, r) → length r < length s.
Proof.
  unfold parseNumber. destruct s as [|c s']; [done|].
  destruct (c =? chr "-")%N.
  - destruct s' as [|c' s2]; [done|]. number_tail.
  - number_tail.
Qed.

Lemma startsWith_length (p s : jsstring) :
  startsWith p s = true → length p ≤ length s.
Proof.
  revert s. induction p as [|c p IH]; intros s; [simpl; lia|].
  destruct s as [|d s]; [done|]. simpl.
  intros H. apply andb_prop in H as [_ H]. apply IH in H. lia.
Qed.

Lemma parseValue_S fuel (s : jsstring) :
  parseValue (S fuel) s
  = match skipWs s with
    | [] => None
    | c :: s1 =>
        if (c =? chr "{")%N then
          match skipWs s1 with
          | c' :: s2 =>
              if (c' =? chr "}")%N then Some (VObj [], s2)
              else match parseMembers fuel s1 with
                   | Some (members, r) => Some (VObj (createProperties members), r)
                   | None => None
                   end
          | [] => None
          end
        else if (c =? chr "[")%N then
          match skipWs s1 with
          | c' :: s2 =>
              if (c' =? chr "]")%N then Some (VArr [], s2)
              else match parseElements fuel s1 with
                   | Some (elements, r) => Some (VArr elements, r)
                   | None => None
                   end
          | [] => None
          end
        else if (c =? QUOTE)%N then
          match parseChars s1 with
          | Some (cs, r) => Some (VStr cs, r)
          | None => None
          end
        else if startsWith (js "true") (c :: s1) then Some (VBool true, drop 4 (c :: s1))
        else if startsWith (js "false") (c :: s1) then Some (VBool false, drop 5 (c :: s1))
        else if startsWith (js "null") (c :: s1) then Some (VNull, drop 4 (c :: s1))
        else match parseNumber (c :: s1) with
             | Some (literal, r) => Some (VNum literal, r)
             | None => None
             end
    end.
Proof. reflexivity. Qed.

Lemma parseMembers_S fuel (s : jsstring) :
  parseMembers (S fuel) s
  = match skipWs s with
    | c :: s1 =>
        if (c =? QUOTE)%N then
          match parseChars s1 with
          | Some (k, r) =>
              match skipWs r with
              | c' :: r1 =>
                  if (c' =? chr ":")%N then
                    match parseValue fuel r1 with
                    | Some (v, r2) =>
                        match skipWs r2 with
                        | c'' :: r3 =>
                            if (c'' =? chr ",")%N then
                              match parseMembers fuel r3 with
                              | Some (ms, r4) => Some ((k, v) :: ms, r4)
                              | None => None
                              end
                            else if (c'' =? chr "}")%N then Some ([(k, v)], r3)
                            else None
                        | [] => None
                        end
                    | None => None
                    end
                  else None
              | [] => None
              end
          | None => None
          end
        else None
    | [] => None
    end.
Proof. reflexivity. Qed.

Lemma parse_adequate fuel :
  adequate parseValue fuel ∧ adequate parseElements fuel ∧ adequate parseMembers fuel.
Proof.
  induction fuel as [|n (IHV & IHE & IHM)]; [by repeat split|].
  split; [|split]; intros s a r Hp.
  - rewrite parseValue_S in Hp.
    pose proof (skipWs_length s) as Hs.
    destruct (skipWs s) as [|c s1] eqn:Hws; [done|]. simpl in Hs.
    destruct (c =? chr "{")%N eqn:Ebrace.
    { pose proof (skipWs_length s1) as Hs1.
      destruct (skipWs s1) as [|c' s2] eqn:Hws1; [done|]. simpl in Hs1.
      destruct (c' =? chr "}")%N eqn:Eclose.
      - simplify_eq. split; [lia|]. intros [|m] Hm; [lia|].
        by rewrite parseValue_S, Hws, Ebrace, Hws1, Eclose.
      - destruct (parseMembers n s1) as [[members r']|] eqn:Em; [|done].
        simplify_eq. destruct (IHM _ _ _ Em) as [Hl Hfuel].
        split; [lia|]. intros [|m] Hm; [lia|].
        rewrite parseValue_S, Hws, Ebrace, Hws1, Eclose, Hfuel by lia. done. }
    destruct (c =? chr "[")%N eqn:Ebracket.
    { pose proof (skipWs_length s1) as Hs1.
      destruct (skipWs s1) as [|c' s2] eqn:Hws1; [done|]. simpl in Hs1.
      destruct (c' =? chr "]")%N eqn:Eclose.
      - simplify_eq. split; [lia|]. intros [|m] Hm; [lia|].
        by rewrite parseValue_S, Hws, Ebrace, Ebracket, Hws1, Eclose.
      - destruct (parseElements n s1) as [[elements r']|] eqn:Ee; [|done].
        simplify_eq. destruct (IHE _ _ _ Ee) as [Hl Hfuel].
        split; [lia|]. intros [|m] Hm; [lia|].
        rewrite parseValue_S, Hws, Ebrace, Ebracket, Hws1, Eclose, Hfuel by lia. done. }
    destruct (c =? QUOTE)%N eqn:Equote.
    { destruct (parseChars s1) as [[cs r']|] eqn:Ec; [|done].
      simplify_eq. pose proof (parseChars_length_le _ _ _ _ (le_n _) Ec) as Hl.
      split; [lia|]. intros [|m] Hm; [lia|].
      by rewrite parseValue_S, Hws, Ebrace, Ebracket, Equote, Ec. }
    destruct (startsWith (js "true") (c :: s1)) eqn:Etrue.
    { simplify_eq. pose proof (startsWith_length _ _ Etrue) as Hl.
      change (length (js "true")) with 4 in Hl.
      rewrite length_drop. cbn [length] in *. split; [lia|]. intros [|m] Hm; [lia|].
      by rewrite parseValue_S, Hws, Ebrace, Ebracket, Equote, Etrue. }
    destruct (startsWith (js "false") (c :: s1)) eqn:Efalse.
    { simplify_eq. pose proof (startsWith_length _ _ Efalse) as Hl.
      change (length (js "false")) with 5 in Hl.
      rewrite length_drop. cbn [length] in *. split; [lia|]. intros [|m] Hm; [lia|].
      by rewrite parseValue_S, Hws, Ebrace, Ebracket, Equote, Etrue, Efalse. }
    destruct (startsWith (js "null") (c :: s1)) eqn:Enull.
    { simplify_eq. pose proof (startsWith_length _ _ Enull) as Hl.
      change (length (js "null")) with 4 in Hl.
      rewrite length_drop. cbn [length] in *. split; [lia|]. intros [|m] Hm; [lia|].
      by rewrite parseValue_S, Hws, Ebrace, Ebracket, Equote, Etrue, Efalse, Enull. }
    destruct (parseNumber (c :: s1)) as [[literal r']|] eqn:En; [|done].
    simplify_eq. pose proof (parseNumber_length _ _ _ En) as Hl. simpl in Hl.
    split; [lia|]. intros [|m] Hm; [lia|].
    by rewrite parseValue_S, Hws, Ebrace, Ebracket, Equote, Etrue, Efalse, Enull, En.
  - rewrite parseElements_S in Hp.
    destruct (parseValue n s) as [[v r0]|] eqn:Ev; [|done].
    destruct (IHV _ _ _ Ev) as [Hl Hfuel].
    pose proof (skipWs_length r0) as Hs.
    destruct (skipWs r0) as [|c r1] eqn:Hws; [done|]. simpl in Hs.
    destruct (c =? chr ",")%N eqn:Ecomma.
    + destruct (parseElements n r1) as [[vs r2]|] eqn:Ee; [|done].
      simplify_eq. destruct (IHE _ _ _ Ee) as [Hl' Hfuel'].
      split; [lia|]. intros [|m] Hm; [lia|].
      rewrite parseElements_S, Hfuel, Hws, Ecomma, Hfuel' by lia. done.
    + destruct (c =? chr "]")%N eqn:Eclose; [|done].
      simplify_eq. split; [lia|]. intros [|m] Hm; [lia|].
      rewrite parseElements_S, Hfuel, Hws, Ecomma, Eclose by lia. done.
  - rewrite parseMembers_S in Hp.
    pose proof (skipWs_length s) as Hs.
    destruct (skipWs s) as [|c s1] eqn:Hws; [done|]. simpl in Hs.
    destruct (c =? QUOTE)%N eqn:Equote; [|done].
    destruct (parseChars s1) as [[k r0]|] eqn:Ec; [|done].
    pose proof (parseChars_length_le _ _ _ _ (le_n _) Ec) as Hk.
    pose proof (skipWs_length r0) as Hs0.
    destruct (skipWs r0) as [|c' r1] eqn:Hws0; [done|]. simpl in Hs0.
    destruct (c' =? chr ":")%N eqn:Ecolon; [|done].
    destruct (parseValue n r1) as [[v r2]|] eqn:Ev; [|done].
    destruct (IHV _ _ _ Ev) as [Hl Hfuel].
    pose proof (skipWs_length r2) as Hs2.
    destruct (skipWs r2) as [|c'' r3] eqn:Hws2; [done|]. simpl in Hs2.
    destruct (c'' =? chr ",")%N eqn:Ecomma.
    + destruct (parseMembers n r3) as [[ms r4]|] eqn:Em; [|done].
      simplify_eq. destruct (IHM _ _ _ Em) as [Hl' Hfuel'].
      split; [lia|]. intros [|m] Hm; [lia|].
      rewrite parseMembers_S, Hws, Equote, Ec, Hws0, Ecolon, Hfuel, Hws2, Ecomma, Hfuel' by lia.
      done.
    + destruct (c'' =? chr "}")%N eqn:Eclose; [|done].
      simplify_eq. split; [lia|]. intros [|m] Hm; [lia|].
      rewrite parseMembers_S, Hws, Equote, Ec, Hws0, Ecolon, Hfuel, Hws2, Ecomma, Eclose by lia.
      done.
Qed.

(** [JSON_parse] accepts every text that some amount of fuel parses as one
    value followed by white space only. *)
Lemma JSON_parse_enough_fuel fuel (text : jsstring) v r :
  parseValue fuel text = Some (v, r) → isEmpty (skipWs r) = true →
  JSON_parse text = Some v.
Proof.
  intros Hp Hr. destruct (parse_adequate fuel) as (HV & _ & _).
  destruct (HV _ _ _ Hp) as [Hl Hfuel].
  unfold JSON_parse. rewrite Hfuel by lia. by rewrite Hr.
Qed.

(** ** C10: the round trip through the serialized text *)

Section RoundTrip.
Context `{Engine}.

Lemma trimmedNonEmpty_nonBlank s : trimmedNonEmpty s → isEmpty (trim s) = false.
Proof. intros [-> Hs]. by apply isEmpty_false. Qed.

Lemma omap_nonBlankString_strings (l : list jsstring) :
  Forall trimmedNonEmpty l → omap nonBlankString (VStr <$> l) = l.
Proof.
  induction 1 as [|s l Hs _ IH]; [done|].
  cbn [fmap list_fmap omap list_omap nonBlankString].
  rewrite (trimmedNonEmpty_nonBlank s Hs). cbn [fmap list_fmap] in IH. by rewrite IH.
Qed.

Lemma reduceScores_strings (l : list (jsstring * jsstring)) acc :
  js "__proto__" ∉ l.*1 →
  reduceScores acc ((λ p, (p.1, VStr p.2)) <$> l)
  = Return (foldl (λ a p, <[p.1 := p.2]> a) acc l).
Proof.
  revert acc. induction l as [|[k v] l IH]; intros acc Hproto; [done|].
  cbn [fmap list_fmap reduceScores fst snd foldl].
  apply not_elem_of_cons in Hproto as [Hk Hproto].
  unfold assign. cbn in Hk. rewrite decide_False by done.
  cbn [mbind completion_bind]. by rewrite <- IH.
Qed.

Lemma foldl_insert_list_to_map (l : list (jsstring * jsstring)) (acc : gmap jsstring jsstring) :
  NoDup l.*1 →
  foldl (λ a p, <[p.1 := p.2]> a) acc l = list_to_map l ∪ acc.
Proof.
  revert acc. induction l as [|[k v] l IH]; intros acc Hnd.
  - simpl. by rewrite (left_id_L ∅ (∪)).
  - apply NoDup_cons in Hnd as [Hk Hnd]. cbn [foldl fst snd]. rewrite IH by done.
    cbn [list_to_map foldr fst snd].
    rewrite <- insert_union_l.
    rewrite <- insert_union_r; [done|].
    by apply not_elem_of_list_to_map_1.
Qed.

Lemma reduceScores_map_to_list (m : gmap jsstring jsstring) :
  m !! js "__proto__" = None →
  reduceScores ∅ ((λ p, (p.1, VStr p.2)) <$> map_to_list m) = Return m.
Proof.
  intros Hproto. rewrite reduceScores_strings.
  - rewrite foldl_insert_list_to_map by apply NoDup_fst_map_to_list.
    by rewrite (right_id_L ∅ (∪)), list_to_map_to_list.
  - intros Hin. apply list_elem_of_fmap in Hin as ([k v] & Hk & Hin).
    apply elem_of_map_to_list in Hin. simpl in Hk. subst k. congruence.
Qed.

Lemma validateOption_optionToValue o index :
  wellFormedOption o →
  OptionAnalysis.scores o !! js "__proto__" = None →
  validateOption (optionToValue o) index = Return o.
Proof.
  intros (Hname & Hpros & Hcons) Hproto. destruct o as [name pros' cons' scores].
  cbn [OptionAnalysis.name OptionAnalysis.pros OptionAnalysis.cons OptionAnalysis.scores] in *.
  unfold validateOption, optionToValue.
  cbn [OptionAnalysis.name OptionAnalysis.pros OptionAnalysis.cons OptionAnalysis.scores
       truthy typeofObject negb orb].
  change (getField (VObj ?props) (js "name")) with (Some (VStr name)).
  change (getField (VObj ?props) (js "pros")) with (Some (VArr (VStr <$> pros'))).
  change (getField (VObj ?props) (js "cons")) with (Some (VArr (VStr <$> cons'))).
  change (getField (VObj ?props) (js "scores"))
    with (Some (VObj ((λ p, (p.1, VStr p.2)) <$> map_to_list scores))).
  cbv beta iota. rewrite (trimmedNonEmpty_nonBlank name Hname).
  cbn [truthy typeofObject andb entries].
  rewrite reduceScores_map_to_list by done. cbn [mbind completion_bind].
  rewrite !omap_nonBlankString_strings by done.
  destruct Hname as [-> _]. done.
Qed.

Lemma mapIndexed_optionToValue os index :
  Forall wellFormedOption os →
  Forall (λ o, OptionAnalysis.scores o !! js "__proto__" = None) os →
  mapIndexed validateOption index (optionToValue <$> os) = Return os.
Proof.
  intros Hwf. revert index. induction Hwf as [|o os Ho _ IH]; intros index Hproto; [done|].
  apply Forall_cons in Hproto as [Hp Hproto].
  cbn [fmap list_fmap mapIndexed]. rewrite validateOption_optionToValue by done.
  cbn [mbind completion_bind]. cbn [fmap list_fmap] in IH. by rewrite IH.
Qed.

Lemma validateTradeOff_tradeOffToValue t index :
  wellFormedTradeOff t → validateTradeOff (tradeOffToValue t) index = Some t.
Proof.
  intros [Hs Hr]. destruct t as [scenario recommendation].
  cbn [TradeOff.scenario TradeOff.recommendation] in *.
  unfold validateTradeOff, tradeOffToValue.
  cbn [TradeOff.scenario TradeOff.recommendation truthy typeofObject negb orb].
  change (getField (VObj ?props) (js "scenario")) with (Some (VStr scenario)).
  change (getField (VObj ?props) (js "recommendation")) with (Some (VStr recommendation)).
  cbv beta iota. rewrite (trimmedNonEmpty_nonBlank scenario Hs).
  rewrite (trimmedNonEmpty_nonBlank recommendation Hr).
  destruct Hs as [-> _], Hr as [-> _]. done.
Qed.

Lemma omap_validateTradeOff (f : nat → value → option TradeOff) ts :
  (∀ i v, f i v = validateTradeOff v 0) →
  Forall wellFormedTradeOff ts →
  omap id (imap f (tradeOffToValue <$> ts)) = ts.
Proof.
  intros Hf Hwf. revert f Hf. induction Hwf as [|t ts Ht _ IH]; intros f Hf; [done|].
  cbn [fmap list_fmap]. rewrite imap_cons. cbn [omap list_omap]. unfold id at 1.
  rewrite Hf, validateTradeOff_tradeOffToValue by done.
  cbn [fmap list_fmap] in IH. rewrite IH; [done|]. intros i v. apply Hf.
Qed.

Lemma normalizeParsed_resultToValue r :
  wellFormed r →
  Forall (λ o, OptionAnalysis.scores o !! js "__proto__" = None)
    (NormalizedComparisonResult.options r) →
  normalizeParsed (resultToValue r) = Return r.
Proof.
  intros (Hne & Hopts & Htos) Hproto. destruct r as [os ts].
  cbn [NormalizedComparisonResult.options NormalizedComparisonResult.tradeOffs] in *.
  unfold normalizeParsed, resultToValue.
  cbn [NormalizedComparisonResult.options NormalizedComparisonResult.tradeOffs
       truthy typeofObject negb orb].
  change (getField (VObj ?props) (js "options")) with (Some (VArr (optionToValue <$> os))).
  change (getField (VObj ?props) (js "tradeOffs"))
    with (Some (VArr (tradeOffToValue <$> ts))).
  destruct os as [|o os]; [done|].
  change (optionToValue <$> o :: os) with (optionToValue o :: (optionToValue <$> os)).
  cbv beta iota.
  change (optionToValue o :: (optionToValue <$> os)) with (optionToValue <$> o :: os).
  rewrite mapIndexed_optionToValue by done. cbn [mbind completion_bind].
  by rewrite omap_validateTradeOff.
Qed.

Lemma printable_strings (l : list jsstring) : printable (VArr (VStr <$> l)).
Proof.
  constructor. apply Forall_forall. intros v Hv.
  apply list_elem_of_fmap in Hv as (s & -> & _). constructor.
Qed.

Lemma printable_optionToValue o : printable (optionToValue o).
Proof.
  unfold optionToValue. apply printable_obj.
  - apply (bool_decide_unpack _). by vm_compute.
  - apply Forall_cons. split; [constructor|].
    apply Forall_cons. split; [apply printable_strings|].
    apply Forall_cons. split; [apply printable_strings|].
    apply Forall_cons. split; [|apply Forall_nil_2].
    cbn [snd]. apply printable_obj.
    + rewrite <- list_fmap_compose.
      rewrite (list_fmap_ext _ fst (map_to_list (OptionAnalysis.scores o)));
        [apply NoDup_fst_map_to_list|].
      by intros i [k s] _.
    + apply Forall_forall. intros p Hp.
      apply list_elem_of_fmap in Hp as ([k s] & -> & _). constructor.
Qed.

Lemma printable_tradeOffToValue t : printable (tradeOffToValue t).
Proof.
  unfold tradeOffToValue. apply printable_obj.
  - apply (bool_decide_unpack _). by vm_compute.
  - apply Forall_cons. split; [constructor|].
    apply Forall_cons. split; [constructor|apply Forall_nil_2].
Qed.

Lemma printable_resultToValue r : printable (resultToValue r).
Proof.
  unfold resultToValue. apply printable_obj.
  - apply (bool_decide_unpack _). by vm_compute.
  - apply Forall_cons. split.
    + cbn [snd]. apply printable_arr. apply Forall_forall. intros v Hv.
      apply list_elem_of_fmap in Hv as (o & -> & _). apply printable_optionToValue.
    + apply Forall_cons. split; [|apply Forall_nil_2].
      cbn [snd]. apply printable_arr. apply Forall_forall. intros v Hv.
      apply list_elem_of_fmap in Hv as (t & -> & _). apply printable_tradeOffToValue.
Qed.

Lemma serialize_braces r : ∃ m, serialize r = [chr "{"] ++ m ++ [chr "}"].
Proof. unfold serialize, resultToValue. cbn [JSON_stringify]. by eexists. Qed.

Lemma extractJson_serialize r :
  ¬ hasFencedBlock (serialize r) → extractJson (serialize r) = serialize r.
Proof.
  intros Hnf. destruct (serialize_braces r) as [m Hm].
  rewrite (extractJson_braces (serialize r) [] m []); [done | done |].
  split; [by rewrite Hm, app_nil_r|]. split; apply not_elem_of_nil.
Qed.
End RoundTrip.

(** The fence pattern matches exactly the texts with a fenced block. *)
Lemma hasFencedBlock_matchFence (s : jsstring) :
  hasFencedBlock s ↔ is_Some (matchFence s).
Proof.
  split.
  - intros Hf. destruct (fencedBlock_exists s Hf) as (pre & tag & body & post & Hb).
    rewrite (matchFence_block s pre tag body post Hb). by eexists.
  - intros [m Hm]. by eapply matchFence_Some.
Qed.

(** C10, as stated, fails: the extraction looks for a fenced code block
    before anything else, also inside the strings of the serialized text.
    The well-formed result [fencesInName] serializes to a text from which
    [extractJson] takes the letter between the two fences of the name,
    and the normalization fails. (Likewise a score filed under the key
    [__proto__] is lost on the way back.) *)
Lemma C10_counterexample :
  wellFormed fencesInName
  ∧ @normalizeGrokResponse sampleEngine (VStr (@serialize sampleEngine fencesInName))
    = Throw (NormalizationError
               (js "Failed to parse JSON response: " ++ js "Unexpected token in JSON"))
  ∧ wellFormed protoScore
  ∧ @normalizeGrokResponse sampleEngine (VStr (@serialize sampleEngine protoScore))
    = Return (NormalizedComparisonResult.mk [optionA] []).
Proof.
  split; [|split; [reflexivity|split; [|reflexivity]]].
  - split; [done|]. split; [|constructor].
    constructor; [|constructor]. split; [by split|]. split; constructor.
  - split; [done|]. split; [|constructor].
    constructor; [|constructor]. split; [by split|]. split; constructor.
Qed.

(** C10 (amended). For every well-formed result (non-empty options, each
    with a trimmed non-empty name and trimmed non-empty pros and cons,
    string-valued scores; trade-offs with trimmed non-empty scenario and
    recommendation) whose serialized text contains no fenced code block
    and whose score keys are not [__proto__], serializing it to the
    documented JSON schema and normalizing that text succeeds and yields
    the original result. *)
Theorem C10_round_trip `{Engine} (r : NormalizedComparisonResult) :
  wellFormed r →
  ¬ hasFencedBlock (serialize r) →
  Forall (λ o, OptionAnalysis.scores o !! js "__proto__" = None)
    (NormalizedComparisonResult.options r) →
  normalizeGrokResponse (VStr (serialize r)) = Return r.
Proof.
  intros Hwf Hnf Hproto. unfold normalizeGrokResponse.
  destruct (serialize_braces r) as [m Hm].
  replace (isEmpty (serialize r)) with false by (by rewrite Hm).
  rewrite extractJson_serialize by done.
  unfold serialize. rewrite JSON_parse_stringify by apply printable_resultToValue.
  by apply normalizeParsed_resultToValue.
Qed.

Lemma C10_witness :
  @normalizeGrokResponse sampleEngine (VStr (@serialize sampleEngine fullResult))
  = Return fullResult.
Proof.
  apply (@C10_round_trip sampleEngine fullResult).
  - split; [done|]. split.
    + constructor; [|constructor; [|constructor]].
      * split; [by split|]. split; (constructor; [by split|constructor]).
      * split; [by split|]. split; [constructor|]. constructor; [by split|constructor].
    + constructor; [|constructor]. split; by split.
  - intros Hf. apply hasFencedBlock_matchFence in Hf as [m Hm].
    vm_compute in Hm. discriminate Hm.
  - constructor; [reflexivity|]. constructor; [reflexivity|constructor].
Defined.

(** * Properties of the rest of the application *)

(** ** Request validation *)

Lemma isNonEmptyString_spec v :
  isNonEmptyString v = true ↔ ∃ s, v = VStr s ∧ trim s ≠ [].
Proof.
  destruct v as [|b|literal|s|elements|props]; simpl;
    try (split; [done | by intros (? & ? & _)]).
  split.
  - intros Hl. exists s. split; [done|]. intros E. by rewrite E in Hl.
  - intros (s' & [= <-] & Hs). destruct (trim s); [done|]. done.
Qed.

Lemma pushErrors_app fieldName index arr errors :
  pushErrors fieldName index arr errors = errors ++ pushErrors fieldName index arr [].
Proof.
  revert index errors. induction arr as [|item arr IH]; intros index errors; simpl.
  - by rewrite app_nil_r.
  - destruct (isNonEmptyString item); simpl; [apply IH|].
    rewrite IH. rewrite (IH _ [_]). by rewrite <- app_assoc.
Qed.

Lemma pushErrors_nil fieldName index arr :
  pushErrors fieldName index arr [] = [] ↔ Forall (λ v, isNonEmptyString v = true) arr.
Proof.
  revert index. induction arr as [|item arr IH]; intros index; simpl.
  - split; [constructor | done].
  - destruct (isNonEmptyString item) eqn:E; simpl.
    + rewrite IH. split; [by constructor | by intros [_ ?]%Forall_cons].
    + rewrite pushErrors_app. simpl. split; [done|]. intros [? _]%Forall_cons. congruence.
Qed.

Lemma Forall_isNonEmptyString arr :
  Forall (λ v, isNonEmptyString v = true) arr ↔
  ∃ l, arr = VStr <$> l ∧ Forall (λ s, trim s ≠ []) l.
Proof.
  induction arr as [|v arr IH].
  - split; [by exists [] | constructor].
  - rewrite Forall_cons, IH, isNonEmptyString_spec. split.
    + intros [(s & -> & Hs) (l & -> & Hl)]. exists (s :: l). by split; [|constructor].
    + intros ([|s l] & E & Hl); [done|]. injection E as -> ->.
      apply Forall_cons in Hl as [Hs Hl]. split; [by exists s | by exists l].
Qed.

Section MiddlewareFacts.
Context `{Engine} `{Host}.

Lemma mapIndexed_trim (l : list jsstring) index :
  mapIndexed (λ s (_ : nat),
      match s with
      | VStr s => Return (trim s)
      | VNull => Throw (TypeError nullReadMessage)
      | _ => Throw (TypeError notAFunctionMessage)
      end) index (VStr <$> l)
  = Return (trim <$> l).
Proof.
  revert index. induction l as [|s l IH]; intros index; simpl; [done|].
  by rewrite IH.
Qed.

Lemma trimAll_strings (l : list jsstring) :
  trimAll (Some (VArr (VStr <$> l))) = Return (trim <$> l).
Proof. apply mapIndexed_trim. Qed.
End MiddlewareFacts.

Section ValidationFacts.
Context `{Engine} `{Host}.

(** The block that checks one field leaves the list of errors empty
    exactly when the list was empty and the field is an array of at
    least [minimum] strings, none of them blank. *)
Lemma fieldErrors_nil (field : option value) fieldName minimum required tooFew mustBeArray
    (errors : list jsstring) :
  match field with
  | Some v =>
      if negb (truthy v) then errors ++ [required]
      else
        match v with
        | VArr arr =>
            (if length arr <? minimum then errors ++ [tooFew] else errors)
              ++ validateStringArray arr fieldName
        | _ => errors ++ [mustBeArray]
        end
  | None => errors ++ [required]
  end = []
  ↔ errors = []
    ∧ ∃ l, field = Some (VArr (VStr <$> l)) ∧ minimum ≤ length l
           ∧ Forall (λ s, trim s ≠ []) l.
Proof.
  assert (∀ x : jsstring, errors ++ [x] ≠ []) as Hne by (intros x; by destruct errors).
  destruct field as [v|]; [|split; [by intros ?%Hne | by intros (_ & ? & ? & _)]].
  destruct (negb (truthy v)) eqn:Et.
  { split; [by intros ?%Hne|]. intros (_ & l & [= ->] & _). done. }
  destruct v as [|b|literal|s|arr|props];
    try (split; [by intros ?%Hne | by intros (_ & ? & ? & _)]).
  unfold validateStringArray. rewrite app_nil, pushErrors_nil, Forall_isNonEmptyString.
  destruct (length arr <? minimum) eqn:El.
  - apply Nat.ltb_lt in El. split; [by intros [?%Hne _]|].
    intros (_ & l & [= ->] & Hl & _). rewrite length_fmap in El. lia.
  - apply Nat.ltb_ge in El. split.
    + intros (-> & l & -> & Hl). split; [done|]. exists l.
      rewrite length_fmap in El. done.
    + intros (-> & l & [= ->] & Hl & Hf). split; [done|]. by exists l.
Qed.

Lemma fieldErrors_app (field : option value) fieldName minimum required tooFew mustBeArray
    (errors : list jsstring) :
  match field with
  | Some v =>
      if negb (truthy v) then errors ++ [required]
      else
        match v with
        | VArr arr =>
            (if length arr <? minimum then errors ++ [tooFew] else errors)
              ++ validateStringArray arr fieldName
        | _ => errors ++ [mustBeArray]
        end
  | None => errors ++ [required]
  end
  = errors
      ++ match field with
         | Some v =>
             if negb (truthy v) then [required]
             else
               match v with
               | VArr arr =>
                   (if length arr <? minimum then [tooFew] else [])
                     ++ validateStringArray arr fieldName
               | _ => [mustBeArray]
               end
         | None => [required]
         end.
Proof.
  destruct field as [v|]; [|done]. destruct (negb (truthy v)); [done|].
  destruct v; try done. destruct (_ <? _); [by rewrite <- app_assoc | done].
Qed.

(** The errors the middleware collects for a body: those of [options],
    then those of [constraints]. Each part is empty exactly when its
    field is as required, and ends with the errors of the elements. *)
Lemma validateComparisonRequest_errors body :
  body ≠ VNull →
  ∃ eo ec,
    (eo = [] ↔
       ∃ l, getField body (js "options") = Some (VArr (VStr <$> l)) ∧ 2 ≤ length l
            ∧ Forall (λ s, trim s ≠ []) l)
    ∧ (ec = [] ↔
         ∃ l, getField body (js "constraints") = Some (VArr (VStr <$> l)) ∧ 1 ≤ length l
              ∧ Forall (λ s, trim s ≠ []) l)
    ∧ (∀ arr, getField body (js "options") = Some (VArr arr) →
         ∃ pre, eo = pre ++ validateStringArray arr (js "options"))
    ∧ (∀ arr, getField body (js "constraints") = Some (VArr arr) →
         ∃ pre, ec = pre ++ validateStringArray arr (js "constraints"))
    ∧ validateComparisonRequest body
      = if 0 <? length (eo ++ ec) then
          Return (Responded
                    (HttpResponse.mk 400
                       (ValidationPayload (js "validation_error")
                          (js "Invalid comparison request") (eo ++ ec))))
        else
          options ← trimAll (getField body (js "options"));
          constraints ← trimAll (getField body (js "constraints"));
          Return (Next (ComparisonInput.mk options constraints)).
Proof.
  intros Hbody.
  assert (∀ field fieldName minimum required tooFew mustBeArray arr,
            field = Some (VArr arr) →
            ∃ pre,
              match field with
              | Some v =>
                  if negb (truthy v) then [required]
                  else
                    match v with
                    | VArr arr =>
                        (if length arr <? minimum then [tooFew] else [])
                          ++ validateStringArray arr fieldName
                    | _ => [mustBeArray]
                    end
              | None => [required]
              end = pre ++ validateStringArray arr fieldName) as Hpre.
  { intros field fieldName minimum required tooFew mustBeArray arr ->. simpl. by eexists. }
  destruct body as [|b|literal|s|elements|props]; [done|..];
    (eexists _, _; split; [|split; [|split; [|split]]]; cycle 4;
     [ cbv zeta; unfold validateComparisonRequest; rewrite fieldErrors_app; reflexivity
     | rewrite (fieldErrors_nil _ _ _ _ _ _ []); split; [by intros [_ ?] | by split]
     | rewrite <- (app_nil_l [js "constraints is required"]),
         <- (app_nil_l [js "At least 1 constraint is required"]),
         <- (app_nil_l [js "constraints must be an array"]);
       rewrite (fieldErrors_nil _ _ _ _ _ _ []); split; [by intros [_ ?] | by split]
     | apply Hpre
     | apply Hpre ]).
Qed.
End ValidationFacts.

Lemma pushErrors_elem_of fieldName index arr errors i v :
  arr !! i = Some v → isNonEmptyString v = false →
  elementError fieldName (index + i) ∈ pushErrors fieldName index arr errors.
Proof.
  revert index errors i. induction arr as [|item arr IH]; intros index errors i; [done|].
  destruct i as [|i]; simpl.
  - intros [= ->] ->. simpl. rewrite pushErrors_app, Nat.add_0_r.
    apply elem_of_app. left. apply elem_of_app. right. by apply list_elem_of_singleton.
  - intros Hi Hv. replace (index + S i) with (S index + i) by lia. by apply IH.
Qed.

Lemma trimmedNonEmpty_trim s : trim s ≠ [] → trimmedNonEmpty (trim s).
Proof. intros Hs. split; [apply trim_idem | done]. Qed.

Lemma fmap_VStr_inj (a b : list jsstring) : VStr <$> a = VStr <$> b → a = b.
Proof.
  revert b. induction a as [|x a IH]; intros [|y b]; try done.
  intros [= -> ?]. f_equal. by apply IH.
Qed.

Lemma value_null_or (v : value) : v = VNull ∨ v ≠ VNull.
Proof. destruct v; (by left) || (by right). Qed.

(** When the middleware calls [next()], and with what. *)
Lemma validateComparisonRequest_Next `{Engine} `{Host} (body : value) (input : ComparisonInput) :
  validateComparisonRequest body = Return (Next input)
  ↔ ∃ options constraints,
      getField body (js "options") = Some (VArr (VStr <$> options))
      ∧ getField body (js "constraints") = Some (VArr (VStr <$> constraints))
      ∧ 2 ≤ length options
      ∧ 1 ≤ length constraints
      ∧ Forall (λ s, trim s ≠ []) options
      ∧ Forall (λ s, trim s ≠ []) constraints
      ∧ input = ComparisonInput.mk (trim <$> options) (trim <$> constraints).
Proof.
  destruct (value_null_or body) as [->|Hbody].
  { split; [done | by intros (? & ? & ? & _)]. }
  destruct (validateComparisonRequest_errors body Hbody)
    as (eo & ec & Hno & Hnc & _ & _ & ->).
  destruct (eo ++ ec) as [|e errors] eqn:Ee; simpl.
  - apply app_nil in Ee as [-> ->].
    destruct (proj1 Hno eq_refl) as (l1 & E1 & Hl1 & Hf1).
    destruct (proj1 Hnc eq_refl) as (l2 & E2 & Hl2 & Hf2).
    rewrite E1, E2, !trimAll_strings. simpl. split.
    + intros [= <-]. by exists l1, l2.
    + intros (o & c & [= Eo] & [= Ec] & _ & _ & _ & _ & ->).
      apply fmap_VStr_inj in Eo, Ec. by subst.
  - split; [done|]. intros (o & c & Eo & Ec & Ho & Hc & Hfo & Hfc & _).
    assert (eo = []) as -> by (apply Hno; by exists o).
    assert (ec = []) as -> by (apply Hnc; by exists c).
    done.
Qed.

(** X1. The middleware calls [next()] exactly for a body
    whose [options] is an array of at least two strings and whose
    [constraints] is an array of at least one string, none of them blank
    once trimmed; the body it passes on holds these strings trimmed, in
    their order. *)
Theorem validation_accepts `{Engine} `{Host} (body : value) (input : ComparisonInput) :
  validateComparisonRequest body = Return (Next input)
  ↔ ∃ options constraints,
      getField body (js "options") = Some (VArr (VStr <$> options))
      ∧ getField body (js "constraints") = Some (VArr (VStr <$> constraints))
      ∧ 2 ≤ length options
      ∧ 1 ≤ length constraints
      ∧ Forall (λ s, trim s ≠ []) options
      ∧ Forall (λ s, trim s ≠ []) constraints
      ∧ input = ComparisonInput.mk (trim <$> options) (trim <$> constraints).
Proof. apply validateComparisonRequest_Next. Qed.

(** The three ways the middleware ends. *)
Lemma validateComparisonRequest_outcome `{Engine} `{Host} (body : value) :
  match validateComparisonRequest body with
  | Return (Next input) => validInput input
  | Return (Responded response) =>
      HttpResponse.status response = 400%Z
      ∧ ∃ details,
          details ≠ []
          ∧ HttpResponse.body response
            = ValidationPayload (js "validation_error") (js "Invalid comparison request")
                details
  | Throw _ => body = VNull
  end.
Proof.
  destruct (value_null_or body) as [->|Hbody]; [done|].
  destruct (validateComparisonRequest_errors body Hbody)
    as (eo & ec & Hno & Hnc & _ & _ & ->).
  destruct (eo ++ ec) as [|e errors] eqn:Ee; simpl.
  - apply app_nil in Ee as [-> ->].
    destruct (proj1 Hno eq_refl) as (l1 & E1 & Hl1 & Hf1).
    destruct (proj1 Hnc eq_refl) as (l2 & E2 & Hl2 & Hf2).
    rewrite E1, E2, !trimAll_strings. simpl.
    unfold validInput. simpl. rewrite !length_fmap.
    repeat split; try done; apply Forall_fmap;
      (eapply Forall_impl; [eassumption|]); intros s Hs; by apply trimmedNonEmpty_trim.
  - split; [done|]. eexists. split; [|reflexivity]. done.
Qed.

(** X2. Whatever the body, the middleware ends in one
    of three ways. It passes on a request with at least two options and
    one constraint, all trimmed and non-empty. Or it answers 400 with
    the error [validation_error] and at least one detail. Or, for the
    body [null] only, it throws. *)
Theorem validation_outcome `{Engine} `{Host} (body : value) :
  match validateComparisonRequest body with
  | Return (Next input) => validInput input
  | Return (Responded response) =>
      HttpResponse.status response = 400%Z
      ∧ ∃ details,
          details ≠ []
          ∧ HttpResponse.body response
            = ValidationPayload (js "validation_error") (js "Invalid comparison request")
                details
  | Throw _ => body = VNull
  end.
Proof. apply validateComparisonRequest_outcome. Qed.

(** X3. A request that the middleware passed on
    passes again, and unchanged, when it is sent as a body. *)
Theorem validation_idempotent `{Engine} `{Host} (body : value) (input : ComparisonInput) :
  validateComparisonRequest body = Return (Next input) →
  validateComparisonRequest (requestBody input) = Return (Next input).
Proof.
  intros Hv.
  apply validateComparisonRequest_Next in Hv as (o & c & _ & _ & Ho & Hc & Hfo & Hfc & ->).
  apply validateComparisonRequest_Next. exists (trim <$> o), (trim <$> c).
  rewrite !length_fmap. repeat split; try done.
  - apply Forall_fmap. eapply Forall_impl; [exact Hfo|]. intros s Hs. simpl.
    by rewrite trim_idem.
  - apply Forall_fmap. eapply Forall_impl; [exact Hfc|]. intros s Hs. simpl.
    by rewrite trim_idem.
  - f_equal; rewrite <- list_fmap_compose; apply list_fmap_ext; intros ? s _; simpl;
      by rewrite trim_idem.
Qed.

Lemma validation_idempotent_witness :
  @validateComparisonRequest sampleEngine sampleHost paddedBody
  = Return (Next (ComparisonInput.mk [js "AWS"; js "Azure"] [js "cost"]))
  ∧ @validateComparisonRequest sampleEngine sampleHost
      (requestBody (ComparisonInput.mk [js "AWS"; js "Azure"] [js "cost"]))
    = Return (Next (ComparisonInput.mk [js "AWS"; js "Azure"] [js "cost"])).
Proof.
  split; [reflexivity|].
  apply (@validation_idempotent sampleEngine sampleHost paddedBody). reflexivity.
Defined.

(** X4. Every element of [options] and of
    [constraints] that is not a string, or is blank once trimmed, is
    reported: the middleware answers 400 and the details name the field
    and the index of the element. Both fields are checked, whatever the
    other one holds, and the details of [options] come first. *)
Theorem validation_reports `{Engine} `{Host} (body : value) :
  body ≠ VNull →
  ∃ eo ec,
    (validateComparisonRequest body
     = Return (Responded
                 (HttpResponse.mk 400
                    (ValidationPayload (js "validation_error")
                       (js "Invalid comparison request") (eo ++ ec))))
     ∨ (eo = [] ∧ ec = []))
    ∧ (∀ arr i v,
         getField body (js "options") = Some (VArr arr) →
         arr !! i = Some v → isNonEmptyString v = false →
         elementError (js "options") i ∈ eo)
    ∧ (∀ arr i v,
         getField body (js "constraints") = Some (VArr arr) →
         arr !! i = Some v → isNonEmptyString v = false →
         elementError (js "constraints") i ∈ ec).
Proof.
  intros Hbody.
  destruct (validateComparisonRequest_errors body Hbody)
    as (eo & ec & _ & _ & Hpo & Hpc & ->).
  exists eo, ec. split; [|split].
  - destruct (eo ++ ec) as [|e errors] eqn:Ee; simpl; [|by left].
    right. by apply app_nil in Ee.
  - intros arr i v Ha Hi Hv. destruct (Hpo arr Ha) as [pre ->].
    apply elem_of_app. right. apply (pushErrors_elem_of _ 0 arr [] i v Hi Hv).
  - intros arr i v Ha Hi Hv. destruct (Hpc arr Ha) as [pre ->].
    apply elem_of_app. right. apply (pushErrors_elem_of _ 0 arr [] i v Hi Hv).
Qed.

Lemma validation_reports_witness :
  ∃ details,
    @validateComparisonRequest sampleEngine sampleHost faultyBody
    = Return (Responded
                (HttpResponse.mk 400
                   (ValidationPayload (js "validation_error")
                      (js "Invalid comparison request") details)))
    ∧ elementError (js "options") 1 ∈ details
    ∧ elementError (js "constraints") 0 ∈ details.
Proof.
  destruct (@validation_reports sampleEngine sampleHost faultyBody)
    as (eo & ec & Hv & Ho & Hc); [discriminate|].
  exists (eo ++ ec).
  pose proof (Ho _ 1 _ eq_refl eq_refl eq_refl) as Ho1.
  pose proof (Hc _ 0 _ eq_refl eq_refl eq_refl) as Hc0.
  split; [|split; apply elem_of_app; [by left | by right]].
  destruct Hv as [Hv|[-> _]]; [exact Hv|]. by apply elem_of_nil in Ho1.
Defined.

(** ** What the normalizer throws *)

Section NormalizerErrors.
Context `{Engine}.

Lemma toString_cons v rest :
  toString (VArr (v :: rest))
  = s ← match v with
        | VNull => Return []
        | _ => toString v
        end;
    match rest with
    | [] => Return s
    | _ :: _ => r ← toString (VArr rest); Return (s ++ js "," ++ r)
    end.
Proof. reflexivity. Qed.

Lemma toString_Throw v e : toString v = Throw e → e = TypeError toPrimitiveMessage.
Proof.
  revert e. induction v as [|b|literal|s|elements IH|props _] using value_ind_nested;
    intros e; try done.
  - induction IH as [|v rest Hv _ IHrest]; [done|]. rewrite toString_cons.
    destruct (match v with VNull => Return [] | _ => toString v end) as [s|e'] eqn:Ev.
    + change (match rest with
              | [] => Return s
              | _ :: _ => r ← toString (VArr rest); Return (s ++ js "," ++ r)
              end = Throw e → e = TypeError toPrimitiveMessage).
      destruct rest as [|v' rest']; [done|].
      destruct (toString (VArr (v' :: rest'))) as [r|e'] eqn:Er; [done|].
      intros [= <-]. by apply IHrest.
    + intros [= <-]. destruct v; try done; by apply Hv.
  - simpl. destruct (hasKey _ _); [by intros [= <-] | done].
Qed.

Lemma reduceScores_cons acc key v rest :
  reduceScores acc ((key, v) :: rest)
  = acc' ← match v with
           | VStr s => Return (assign acc key s)
           | VNull => Return acc
           | _ => s ← toString v; Return (assign acc key s)
           end;
    reduceScores acc' rest.
Proof. reflexivity. Qed.

Lemma reduceScores_Throw es acc e :
  reduceScores acc es = Throw e → e = TypeError toPrimitiveMessage.
Proof.
  revert acc. induction es as [|[key v] es IH]; intros acc; [done|].
  rewrite reduceScores_cons.
  assert (∀ v' : value,
            (acc' ← (s ← toString v'; Return (assign acc key s)); reduceScores acc' es)
            = Throw e → e = TypeError toPrimitiveMessage) as Hconv.
  { intros v'. destruct (toString v') as [s|e'] eqn:Es.
    - apply IH.
    - intros [= <-]. by eapply toString_Throw. }
  destruct v as [|b|literal|s|elements|props]; try apply Hconv; apply IH.
Qed.

Lemma bind_Throw {A B} (c : completion A) (k : A → completion B) e :
  c ≫= k = Throw e → c = Throw e ∨ ∃ a, c = Return a ∧ k a = Throw e.
Proof. destruct c as [a|e']; simpl; [eauto | intros [= <-]; by left]. Qed.

Lemma validateOption_Throw option index e :
  validateOption option index = Throw e →
  (∃ msg, e = NormalizationError msg) ∨ e = TypeError toPrimitiveMessage.
Proof.
  unfold validateOption. intros Hv.
  repeat case_match; try (injection Hv as <-; eauto; fail);
    apply bind_Throw in Hv as [Hv|(? & _ & [=])]; try done;
    right; by eapply reduceScores_Throw.
Qed.

Lemma mapIndexed_validateOption_Throw options index e :
  mapIndexed validateOption index options = Throw e →
  (∃ msg, e = NormalizationError msg) ∨ e = TypeError toPrimitiveMessage.
Proof.
  revert index. induction options as [|option options IH]; intros index; [done|]. simpl.
  destruct (validateOption option index) as [o|e'] eqn:Eo; simpl.
  - destruct (mapIndexed validateOption (S index) options) as [os|e'] eqn:Eos; simpl;
      [done|].
    intros [= <-]. by eapply IH.
  - intros [= <-]. by eapply validateOption_Throw.
Qed.

Lemma normalizeGrokResponse_Throw raw e :
  normalizeGrokResponse raw = Throw e →
  (∃ msg, e = NormalizationError msg) ∨ e = TypeError toPrimitiveMessage.
Proof.
  unfold normalizeGrokResponse, normalizeParsed. intros Hn.
  repeat case_match; try (injection Hn as <-; eauto; fail);
    apply bind_Throw in Hn as [Hn|(? & _ & [=])];
    by eapply mapIndexed_validateOption_Throw.
Qed.
End NormalizerErrors.

(** ** The runs of the orchestrator *)

Section OrchestratorRuns.
Context `{Engine} (env : Env).

Lemma storeComparisonRequest_Rejected input w :
  database env (queryCount w) = QueryRejected →
  storeComparisonRequest env input w
  = (Throw (ComparisonServiceError (js "Failed to store comparison request")
              (js "database_error") 500),
     extend w [Query (InsertComparison (ComparisonInput.options input)
                        (ComparisonInput.constraints input))]).
Proof. intros Hdb. unfold storeComparisonRequest, runQuery. by rewrite Hdb. Qed.

Lemma storeComparisonResult_Inserted id result w id' :
  database env (queryCount w) = Inserted id' →
  storeComparisonResult env id result w
  = (Return (), afterResult w id (JSON_stringify (resultToValue result))).
Proof. intros Hdb. unfold storeComparisonResult, runQuery. by rewrite Hdb. Qed.

Lemma storeComparisonResult_Rejected id result w :
  database env (queryCount w) = QueryRejected →
  storeComparisonResult env id result w
  = (Throw (ComparisonServiceError (js "Failed to store comparison result")
              (js "database_error") 500),
     extend w [Query (InsertResult id (JSON_stringify (resultToValue result)))]).
Proof. intros Hdb. unfold storeComparisonResult, runQuery. by rewrite Hdb. Qed.

(** Every way [executeComparison] can end, by the answers it gets. *)
Lemma executeComparison_cases input w :
  (database env (queryCount w) = QueryRejected
   ∧ executeComparison env input w
     = (Throw (ComparisonServiceError (js "Failed to store comparison request")
                 (js "database_error") 500),
        extend w [Query (InsertComparison (ComparisonInput.options input)
                           (ComparisonInput.constraints input))]))
  ∨ ∃ id,
      database env (queryCount w) = Inserted id
      ∧ ((∃ error w2,
            callGrokWithRetry env (promptFor input) MAX_RETRIES (afterRequest w input id)
            = (Throw error, w2)
            ∧ executeComparison env input w
              = (Throw (ComparisonServiceError
                          (js "AI service is currently unavailable: " ++ message error)
                          (js "ai_service_error") 502), w2))
         ∨ ∃ raw w2,
             callGrokWithRetry env (promptFor input) MAX_RETRIES (afterRequest w input id)
             = (Return raw, w2)
             ∧ ((∃ detail,
                   normalizeGrokResponse raw = Throw (NormalizationError detail)
                   ∧ executeComparison env input w
                     = (Throw (ComparisonServiceError
                                 (js "Failed to process AI response. Please try again.")
                                 (js "normalization_error") 502), w2))
                ∨ (normalizeGrokResponse raw = Throw (TypeError toPrimitiveMessage)
                   ∧ executeComparison env input w
                     = (Throw (TypeError toPrimitiveMessage), w2))
                ∨ ∃ result,
                    normalizeGrokResponse raw = Return result
                    ∧ ((database env (queryCount w2) = QueryRejected
                        ∧ executeComparison env input w
                          = (Throw (ComparisonServiceError
                                      (js "Failed to store comparison result")
                                      (js "database_error") 500),
                             extend w2
                               [Query (InsertResult id
                                         (JSON_stringify (resultToValue result)))]))
                       ∨ ∃ id',
                           database env (queryCount w2) = Inserted id'
                           ∧ executeComparison env input w
                             = (Return (ComparisonResponse.mk id
                                          (NormalizedComparisonResult.options result)
                                          (NormalizedComparisonResult.tradeOffs result)
                                          (now env)),
                                afterResult w2 id
                                  (JSON_stringify (resultToValue result)))))).
Proof.
  unfold executeComparison. fold (promptFor input).
  destruct (database env (queryCount w)) as [|id] eqn:Hdb.
  { left. split; [done|]. by rewrite storeComparisonRequest_Rejected. }
  right. exists id. split; [done|]. rewrite (storeComparisonRequest_Inserted env input w id Hdb).
  destruct (callGrokWithRetry env (promptFor input) MAX_RETRIES (afterRequest w input id))
    as [[raw|error] w2] eqn:Hcall.
  2: { left. by exists error, w2. }
  right. exists raw, w2. split; [done|].
  destruct (normalizeGrokResponse raw) as [result|e] eqn:Hnorm.
  - right. right. exists result. split; [done|].
    destruct (database env (queryCount w2)) as [|id'] eqn:Hdb2.
    + left. split; [done|]. by rewrite storeComparisonResult_Rejected.
    + right. exists id'. split; [done|].
      by rewrite (storeComparisonResult_Inserted _ _ _ id').
  - destruct (normalizeGrokResponse_Throw raw e Hnorm) as [[detail ->] | ->].
    + left. by exists detail.
    + right. left. done.
Qed.
End OrchestratorRuns.

Section ClientRuns.
Context `{Engine} (env : Env).

(** What the completion client adds to the trace: the tables are left
    alone, no statement is sent, and at most [maxRetries] calls of the
    endpoint are made. *)
Lemma callGrokWithRetry_events options maxRetries w :
  ∃ events,
    (callGrokWithRetry env options maxRetries w).2 = extend w events
    ∧ count isFetch events ≤ Z.to_nat maxRetries
    ∧ Forall (λ e, isQuery e = false) events.
Proof.
  unfold callGrokWithRetry. destruct (getApiKey env) as [apiKey|e].
  - apply attempts_trace.
  - exists []. rewrite extend_nil. repeat split; [unfold count; simpl; lia | constructor].
Qed.

Lemma count_isQuery_none events :
  Forall (λ e, isQuery e = false) events → count isQuery events = 0.
Proof.
  unfold count. induction 1 as [|e events He _ IH]; [done|]. simpl. by rewrite He.
Qed.
End ClientRuns.

(** X5. When the database accepts both
    statements, the completion client returns and its text normalizes,
    [executeComparison] returns the generated id, the normalized options
    and trade-offs and the time of the clock. The run leaves one more
    request row and one more result row, both under that id, and the
    text of the result row is JSON that reads back as the result. *)
Theorem executeComparison_success `{Engine} (env : Env) (input : ComparisonInput)
    (w w2 : World) (id id' : jsstring) (raw : value) (result : NormalizedComparisonResult) :
  database env (queryCount w) = Inserted id →
  callGrokWithRetry env (promptFor input) MAX_RETRIES (afterRequest w input id)
  = (Return raw, w2) →
  normalizeGrokResponse raw = Return result →
  database env (queryCount w2) = Inserted id' →
  executeComparison env input w
  = (Return (ComparisonResponse.mk id
               (NormalizedComparisonResult.options result)
               (NormalizedComparisonResult.tradeOffs result)
               (now env)),
     afterResult w2 id (JSON_stringify (resultToValue result)))
  ∧ comparisons (afterResult w2 id (JSON_stringify (resultToValue result)))
    = comparisons w ++ [(id, (ComparisonInput.options input,
                              ComparisonInput.constraints input))]
  ∧ comparison_results (afterResult w2 id (JSON_stringify (resultToValue result)))
    = comparison_results w ++ [(id, JSON_stringify (resultToValue result))]
  ∧ JSON_parse (JSON_stringify (resultToValue result)) = Some (resultToValue result).
Proof.
  intros Hdb Hcall Hnorm Hdb2.
  destruct (executeComparison_cases env input w) as [[Hr _]|(id0 & Hid & Hcases)];
    [congruence|].
  assert (id0 = id) as -> by congruence.
  destruct Hcases as [(error & w2' & Hc & _)|(raw' & w2' & Hc & Hcases)]; [congruence|].
  assert (raw' = raw ∧ w2' = w2) as [-> ->] by (split; congruence).
  destruct Hcases as [(detail & Hn & _)|[[Hn _]|(result' & Hr & Hcases)]]; try congruence.
  assert (result' = result) as -> by congruence.
  destruct Hcases as [[Hq _]|(id'' & _ & Hrun)]; [congruence|].
  split; [exact Hrun|].
  destruct (callGrokWithRetry_events env (promptFor input) MAX_RETRIES
              (afterRequest w input id)) as (events & Hw & _ & _).
  rewrite Hcall in Hw. simpl in Hw. subst w2.
  repeat split; try done. apply JSON_parse_stringify, printable_resultToValue.
Qed.

Lemma executeComparison_success_witness :
  @executeComparison sampleEngine fencedEnv twoOptions emptyWorld
  = (Return (ComparisonResponse.mk (js "id-1") [optionA] []
               (js "2024-01-01T00:00:00.000Z")),
     afterResult
       (extend (afterRequest emptyWorld twoOptions (js "id-1"))
          [Fetch (buildRequest (js "key") (promptFor twoOptions))])
       (js "id-1")
       (jsq "{'options':[{'name':'A','pros':[],'cons':[],'scores':{}}],'tradeOffs':[]}")).
Proof.
  refine (proj1 (@executeComparison_success sampleEngine fencedEnv twoOptions emptyWorld
                   (extend (afterRequest emptyWorld twoOptions (js "id-1"))
                      [Fetch (buildRequest (js "key") (promptFor twoOptions))])
                   (js "id-1") (js "id-2") (VStr fencedExample)
                   (NormalizedComparisonResult.mk [optionA] []) _ _ _ _)).
  - reflexivity.
  - vm_compute. reflexivity.
  - vm_compute. reflexivity.
  - reflexivity.
Defined.

(** What [executeComparison] throws. *)
Lemma executeComparison_Throw `{Engine} (env : Env) (input : ComparisonInput)
    (w w' : World) (e : exn) :
  executeComparison env input w = (Throw e, w') →
  e = ComparisonServiceError (js "Failed to store comparison request")
        (js "database_error") 500
  ∨ (∃ error,
       e = ComparisonServiceError
             (js "AI service is currently unavailable: " ++ message error)
             (js "ai_service_error") 502)
  ∨ e = ComparisonServiceError (js "Failed to process AI response. Please try again.")
          (js "normalization_error") 502
  ∨ e = ComparisonServiceError (js "Failed to store comparison result")
          (js "database_error") 500
  ∨ e = TypeError toPrimitiveMessage.
Proof.
  intros Hrun.
  destruct (executeComparison_cases env input w) as [[_ Hr]|(id & _ & Hcases)].
  { rewrite Hr in Hrun. injection Hrun as <- _. by left. }
  destruct Hcases as [(error & w2 & _ & Hr)|(raw & w2 & _ & Hcases)].
  { rewrite Hr in Hrun. injection Hrun as <- _. right. left. by exists error. }
  destruct Hcases as [(detail & _ & Hr)|[[_ Hr]|(result & _ & Hcases)]].
  - rewrite Hr in Hrun. injection Hrun as <- _. by do 2 right; left.
  - rewrite Hr in Hrun. injection Hrun as <- _. by do 4 right.
  - destruct Hcases as [[_ Hr]|(id' & _ & Hr)]; rewrite Hr in Hrun; [|done].
    injection Hrun as <- _. by do 3 right; left.
Qed.

(** X6. [executeComparison] throws one of five
    errors and nothing else: the two database errors with status 500,
    the error of the completion client with status 502 and the client's
    message after a fixed prefix, the normalization error with status
    502 and a fixed message, or the [TypeError] of a score that has no
    string conversion, which it lets through as it is. *)
Theorem executeComparison_errors `{Engine} (env : Env) (input : ComparisonInput)
    (w w' : World) (e : exn) :
  executeComparison env input w = (Throw e, w') →
  e = ComparisonServiceError (js "Failed to store comparison request")
        (js "database_error") 500
  ∨ (∃ error,
       e = ComparisonServiceError
             (js "AI service is currently unavailable: " ++ message error)
             (js "ai_service_error") 502)
  ∨ e = ComparisonServiceError (js "Failed to process AI response. Please try again.")
          (js "normalization_error") 502
  ∨ e = ComparisonServiceError (js "Failed to store comparison result")
          (js "database_error") 500
  ∨ e = TypeError toPrimitiveMessage.
Proof. apply executeComparison_Throw. Qed.

Lemma executeComparison_errors_witness :
  @executeComparison sampleEngine
    (constantEnv (Response 200 (completionBody scoreWithToString))) twoOptions emptyWorld
  = (Throw (TypeError (js "Cannot convert object to primitive value")),
     extend (afterRequest emptyWorld twoOptions (js "id-1"))
       [Fetch (buildRequest (js "key") (promptFor twoOptions))])
  ∧ ∃ e, (@executeComparison sampleEngine
            (constantEnv (Response 200 (completionBody scoreWithToString)))
            twoOptions emptyWorld).1 = Throw e
         ∧ (e = ComparisonServiceError (js "Failed to store comparison request")
                  (js "database_error") 500
            ∨ (∃ error,
                 e = ComparisonServiceError
                       (js "AI service is currently unavailable: " ++ message error)
                       (js "ai_service_error") 502)
            ∨ e = ComparisonServiceError
                    (js "Failed to process AI response. Please try again.")
                    (js "normalization_error") 502
            ∨ e = ComparisonServiceError (js "Failed to store comparison result")
                    (js "database_error") 500
            ∨ e = TypeError (@toPrimitiveMessage sampleEngine)).
Proof.
  assert (@executeComparison sampleEngine
            (constantEnv (Response 200 (completionBody scoreWithToString)))
            twoOptions emptyWorld
          = (Throw (TypeError (js "Cannot convert object to primitive value")),
             extend (afterRequest emptyWorld twoOptions (js "id-1"))
               [Fetch (buildRequest (js "key") (promptFor twoOptions))])) as Hrun
    by (vm_compute; reflexivity).
  split; [exact Hrun|]. eexists. split; [by rewrite Hrun|].
  exact (@executeComparison_errors sampleEngine _ _ _ _ _ Hrun).
Defined.

Ltac rows_simpl :=
  cbn [fst snd trace comparisons comparison_results afterResult extend afterRequest].


(** ** The comparison route *)

Lemma normalizeGrokResponse_options_length `{Engine} raw result :
  normalizeGrokResponse raw = Return result →
  ∃ text parsed entries,
    raw = VStr text
    ∧ JSON_parse (extractJson text) = Some parsed
    ∧ getField parsed (js "options") = Some (VArr entries)
    ∧ entries ≠ []
    ∧ mapIndexed validateOption 0 entries
      = Return (NormalizedComparisonResult.options result)
    ∧ length (NormalizedComparisonResult.options result) = length entries.
Proof.
  intros Hn. apply normalizeGrokResponse_Return in Hn as (text & parsed & -> & _ & Hp & Hn).
  apply normalizeParsed_Return in Hn as (entries & Hf & Hne & Hm).
  exists text, parsed, entries. repeat split; try done.
  by apply mapIndexed_Return in Hm as [? _].
Qed.

Section RouteFacts.
Context `{Engine} `{Host} (env : Env).

Lemma createComparison_cases input w :
  (∃ result,
     (executeComparison env input w).1 = Return result
     ∧ createComparison env input w
       = (HttpResponse.mk 200 (ComparisonPayload result), (executeComparison env input w).2))
  ∨ (∃ message code statusCode,
       (executeComparison env input w).1
       = Throw (ComparisonServiceError message code statusCode)
       ∧ createComparison env input w
         = (HttpResponse.mk statusCode (ErrorPayload code message),
            (executeComparison env input w).2))
  ∨ ((executeComparison env input w).1 = Throw (TypeError toPrimitiveMessage)
     ∧ createComparison env input w = (internalError, (executeComparison env input w).2)).
Proof.
  unfold createComparison.
  destruct (executeComparison env input w) as [[result|e] w'] eqn:Hrun.
  - left. by exists result.
  - right. destruct (executeComparison_Throw env input w w' e Hrun)
      as [->|[[error ->]|[->|[->| ->]]]]; try (left; by eexists _, _, _).
    by right.
Qed.
End RouteFacts.

(** The answers of [POST /compare]. *)
Lemma compareRoute_answers `{Engine} `{Host} (env : Env) (body : value) (w : World) :
  match HttpResponse.body (compareRoute env body w).1 with
  | ComparisonPayload result =>
      HttpResponse.status (compareRoute env body w).1 = 200%Z
      ∧ ComparisonResponse.options result ≠ []
      ∧ ComparisonResponse.createdAt result = now env
  | ValidationPayload error message details =>
      HttpResponse.status (compareRoute env body w).1 = 400%Z
      ∧ error = js "validation_error"
      ∧ message = js "Invalid comparison request"
      ∧ details ≠ []
      ∧ (compareRoute env body w).2 = w
  | ErrorPayload error message =>
      (HttpResponse.status (compareRoute env body w).1 = 500%Z
       ∧ error = js "database_error"
       ∧ (message = js "Failed to store comparison request"
          ∨ message = js "Failed to store comparison result"))
      ∨ (HttpResponse.status (compareRoute env body w).1 = 502%Z
         ∧ error = js "ai_service_error"
         ∧ ∃ detail, message = js "AI service is currently unavailable: " ++ detail)
      ∨ (HttpResponse.status (compareRoute env body w).1 = 502%Z
         ∧ error = js "normalization_error"
         ∧ message = js "Failed to process AI response. Please try again.")
      ∨ (HttpResponse.status (compareRoute env body w).1 = 500%Z
         ∧ error = js "internal_error"
         ∧ message = js "An unexpected error occurred")
  | HealthPayload _ _ _ _ => False
  end.
Proof.
  unfold compareRoute. pose proof (validateComparisonRequest_outcome body) as Hv.
  destruct (validateComparisonRequest body) as [[response|input]|e].
  - destruct Hv as (Hs & details & Hd & Hb). cbn [fst snd]. rewrite Hb. done.
  - destruct (createComparison_cases env input w)
      as [(result & Hr & ->)|[(message & code & statusCode & Hr & ->)|[Hr ->]]];
      cbn [fst snd HttpResponse.body HttpResponse.status internalError].
    + destruct (executeComparison_cases env input w) as [[_ Hc]|(id & _ & Hcases)];
        [rewrite Hc in Hr; done|].
      destruct Hcases as [(error & w2 & _ & Hc)|(raw & w2 & _ & Hcases)];
        [rewrite Hc in Hr; done|].
      destruct Hcases as [(detail & _ & Hc)|[[_ Hc]|(nr & Hn & Hcases)]];
        try (rewrite Hc in Hr; done).
      destruct Hcases as [[_ Hc]|(id' & _ & Hc)]; rewrite Hc in Hr; [done|].
      injection Hr as <-. cbn. split; [done|]. split; [|done].
      apply normalizeGrokResponse_options_length in Hn
        as (text & parsed & entries & _ & _ & _ & Hne & _ & Hlen).
      destruct (NormalizedComparisonResult.options nr); [|done].
      by destruct entries.
    + destruct (executeComparison env input w) as [c w'] eqn:Hrun. cbn [fst] in Hr.
      subst c.
      destruct (executeComparison_Throw env input w w' _ Hrun)
        as [E|[[error E]|[E|[E|E]]]]; try discriminate E; injection E as -> -> ->.
      * left. repeat split. by left.
      * right. left. repeat split. by eexists.
      * right. right. left. done.
      * left. repeat split. by right.
    + by do 3 right.
  - by do 3 right.
Qed.

(** X7. Whatever the body, the endpoint and the
    database, [POST /compare] answers in one of these ways. With 200
    and a comparison that has at least one option. With 400, the error
    [validation_error] and at least one detail, having called neither
    the database nor the endpoint. With 500, [database_error] and one
    of two fixed messages. With
    502 and [ai_service_error], the message of the client after a fixed
    prefix. With 502, [normalization_error] and a fixed message. Or with
    500, [internal_error] and a fixed message. *)
Theorem compareRoute_contract `{Engine} `{Host} (env : Env) (body : value) (w : World) :
  match HttpResponse.body (compareRoute env body w).1 with
  | ComparisonPayload result =>
      HttpResponse.status (compareRoute env body w).1 = 200%Z
      ∧ ComparisonResponse.options result ≠ []
      ∧ ComparisonResponse.createdAt result = now env
  | ValidationPayload error message details =>
      HttpResponse.status (compareRoute env body w).1 = 400%Z
      ∧ error = js "validation_error"
      ∧ message = js "Invalid comparison request"
      ∧ details ≠ []
      ∧ (compareRoute env body w).2 = w
  | ErrorPayload error message =>
      (HttpResponse.status (compareRoute env body w).1 = 500%Z
       ∧ error = js "database_error"
       ∧ (message = js "Failed to store comparison request"
          ∨ message = js "Failed to store comparison result"))
      ∨ (HttpResponse.status (compareRoute env body w).1 = 502%Z
         ∧ error = js "ai_service_error"
         ∧ ∃ detail, message = js "AI service is currently unavailable: " ++ detail)
      ∨ (HttpResponse.status (compareRoute env body w).1 = 502%Z
         ∧ error = js "normalization_error"
         ∧ message = js "Failed to process AI response. Please try again.")
      ∨ (HttpResponse.status (compareRoute env body w).1 = 500%Z
         ∧ error = js "internal_error"
         ∧ message = js "An unexpected error occurred")
  | HealthPayload _ _ _ _ => False
  end.
Proof. apply compareRoute_answers. Qed.

(** ** The runs of the completion client *)

Lemma waited_app a b : waited (a ++ b) = (waited a + waited b)%Z.
Proof.
  induction a as [|e a IH]; [done|]. destruct e; simpl; rewrite ?IH; lia.
Qed.

Lemma waited_retries r k attempt :
  (1 ≤ attempt)%Z →
  waited (retries r k attempt) = (1000 * 2 ^ (attempt - 1) * (2 ^ Z.of_nat k - 1))%Z.
Proof.
  revert attempt. induction k as [|k IH]; intros attempt Ha.
  - simpl. lia.
  - change (retries r (S k) attempt)
      with (Fetch r :: Delay (1000 * 2 ^ (attempt - 1))%Z :: retries r k (attempt + 1)%Z).
    cbn [waited]. rewrite IH by lia.
    replace (attempt + 1 - 1)%Z with (Z.succ (attempt - 1)) by lia.
    rewrite Z.pow_succ_r by lia.
    rewrite Nat2Z.inj_succ, Z.pow_succ_r by lia. lia.
Qed.

Section ClientShape.
Context `{Engine} (env : Env).

(** The [try] block leaves the world as it is, or waits and asks for
    the next attempt, which it does on no last attempt. *)
Lemma tryBlock_world maxRetries attempt o w :
  ((tryBlock maxRetries attempt o w).2 = w
   ∧ (tryBlock maxRetries attempt o w).1 ≠ Return Continue
   ∧ ∀ msg code, (tryBlock maxRetries attempt o w).1 = Throw (GrokApiError msg code true) →
                  attempt = maxRetries)
  ∨ ((tryBlock maxRetries attempt o w).2 = record (Delay (backoff attempt)) w
     ∧ (tryBlock maxRetries attempt o w).1 = Return Continue
     ∧ attempt ≠ maxRetries).
Proof.
  unfold tryBlock. destruct o as [reason|status body].
  { left. repeat split; done. }
  destruct (negb (ok status)) eqn:Eok.
  - unfold createGrokError. cbv zeta.
    destruct ((status =? 429) || (status >=? 500))%Z eqn:Er; cbn [negb orb].
    + destruct (attempt =? maxRetries)%Z eqn:Ea.
      * left. apply Z.eqb_eq in Ea. repeat split; done.
      * right. apply Z.eqb_neq in Ea. repeat split; done.
    + left. repeat split; done.
  - left. repeat case_match; repeat split; done.
Qed.

Lemma attempts_shape r maxRetries n attempt w :
  (attempt + Z.of_nat n = maxRetries + 1)%Z → 0 < n →
  ∃ k, k < n
       ∧ (attempts env r maxRetries n attempt w).2
         = extend w (retries r k attempt ++ [Fetch r]).
Proof.
  revert attempt w. induction n as [|n IH]; intros attempt w Hn Hpos; [lia|].
  rewrite attempts_S.
  assert (attempt ≠ maxRetries →
          ∃ k, k < S n
               ∧ (attempts env r maxRetries n (attempt + 1)
                    (record (Delay (backoff attempt)) (record (Fetch r) w))).2
                 = extend w (retries r k attempt ++ [Fetch r])) as Hnext.
  { intros Ha.
    destruct (IH (attempt + 1)%Z (record (Delay (backoff attempt)) (record (Fetch r) w)))
      as (k & Hk & ->); [lia|lia|].
    exists (S k). split; [lia|]. rewrite !record_extend, !extend_extend. done. }
  assert (∃ k, k < S n ∧ record (Fetch r) w = extend w (retries r k attempt ++ [Fetch r]))
    as Hstop by (exists 0; split; [lia | done]).
  destruct (tryBlock_world maxRetries attempt (endpoint env (fetchCount w))
              (record (Fetch r) w)) as [(Hw & Hc & Hlast)|(Hw & Hc & Ha)].
  - destruct (tryBlock maxRetries attempt (endpoint env (fetchCount w))
                (record (Fetch r) w)) as [[[v|]|e] w'] eqn:Ht; cbn [fst snd] in *; subst w'.
    + exact Hstop.
    + done.
    + destruct e as [| | | |msg code [|]|]; cbn [negb orb];
        try (destruct (attempt =? maxRetries)%Z eqn:Ea;
             [exact Hstop | apply Hnext; by apply Z.eqb_neq]).
      exact Hstop.
  - destruct (tryBlock maxRetries attempt (endpoint env (fetchCount w))
                (record (Fetch r) w)) as [c w'] eqn:Ht; cbn [fst snd] in *; subst.
    by apply Hnext.
Qed.
End ClientShape.

Lemma retries_Forall (P : event → Prop) r k attempt :
  P (Fetch r) → (∀ ms, P (Delay ms)) → Forall P (retries r k attempt).
Proof.
  intros Hf Hd. revert attempt. induction k as [|k IH]; intros attempt; [constructor|].
  simpl. by repeat constructor.
Qed.

(** The waits of the completion client add up to at most
    [1000 * (2^(maxRetries-1) - 1)] ms. *)
Lemma callGrokWithRetry_waited `{Engine} (env : Env) options maxRetries w :
  (1 ≤ maxRetries)%Z →
  ∃ events,
    (callGrokWithRetry env options maxRetries w).2 = extend w events
    ∧ count isFetch events ≤ Z.to_nat maxRetries
    ∧ Forall (λ e, isQuery e = false) events
    ∧ (0 ≤ waited events ≤ 1000 * (2 ^ (maxRetries - 1) - 1))%Z.
Proof.
  intros Hmax. unfold callGrokWithRetry. destruct (getApiKey env) as [apiKey|e].
  - destruct (attempts_shape env (buildRequest apiKey options) maxRetries
                (Z.to_nat maxRetries) 1 w) as (k & Hk & ->); [lia|lia|].
    eexists. split; [done|]. split; [|split].
    + rewrite count_app, retries_fetches. unfold count. simpl. lia.
    + apply Forall_app. split; [by apply retries_Forall | by repeat constructor].
    + rewrite waited_app, waited_retries by lia. simpl.
      assert (2 ^ Z.of_nat k ≤ 2 ^ (maxRetries - 1))%Z by (apply Z.pow_le_mono_r; lia).
      assert (0 < 2 ^ Z.of_nat k)%Z by (apply Z.pow_pos_nonneg; lia). lia.
  - exists []. rewrite extend_nil. split; [done|]. split; [unfold count; simpl; lia|].
    split; [constructor|]. simpl.
    assert (0 < 2 ^ (maxRetries - 1))%Z by (apply Z.pow_pos_nonneg; lia). lia.
Qed.

(** X8. Whatever the endpoint and the database
    answer, a run of [executeComparison] first sends the statement that
    stores the request, then makes at most three calls of the endpoint,
    waiting no more than 3000 ms in all between them, and sends at most
    one more statement. It adds at most one request
    row, and a result row only under the id of the request row it just
    added, and only when it returns; what it returns carries that id. *)
Theorem executeComparison_rows `{Engine} (env : Env) (input : ComparisonInput) (w : World) :
  ∃ events,
    trace (executeComparison env input w).2
    = trace w
        ++ Query (InsertComparison (ComparisonInput.options input)
                    (ComparisonInput.constraints input)) :: events
    ∧ count isFetch events ≤ 3
    ∧ count isQuery events ≤ 1
    ∧ (0 ≤ waited events ≤ 3000)%Z
    ∧ ((comparisons (executeComparison env input w).2 = comparisons w
        ∧ comparison_results (executeComparison env input w).2 = comparison_results w
        ∧ events = [])
       ∨ ∃ id,
           comparisons (executeComparison env input w).2
           = comparisons w ++ [(id, (ComparisonInput.options input,
                                     ComparisonInput.constraints input))]
           ∧ ((comparison_results (executeComparison env input w).2
               = comparison_results w
               ∧ ∃ e, (executeComparison env input w).1 = Throw e)
              ∨ ∃ result,
                  comparison_results (executeComparison env input w).2
                  = comparison_results w ++ [(id, JSON_stringify (resultToValue result))]
                  ∧ (executeComparison env input w).1
                    = Return (ComparisonResponse.mk id
                                (NormalizedComparisonResult.options result)
                                (NormalizedComparisonResult.tradeOffs result)
                                (now env)))).
Proof.
  destruct (executeComparison_cases env input w) as [[_ ->]|(id & _ & Hcases)].
  { exists []. rows_simpl. repeat split; try (unfold count; simpl; lia); try done.
    by left. }
  destruct (callGrokWithRetry_waited env (promptFor input) MAX_RETRIES
              (afterRequest w input id)) as (events & Hw & Hf & Hq & Hwait);
    [unfold MAX_RETRIES; lia|].
  change (Z.to_nat MAX_RETRIES) with 3 in Hf.
  change (1000 * (2 ^ (MAX_RETRIES - 1) - 1))%Z with 3000%Z in Hwait.
  pose proof (count_isQuery_none events Hq) as Hq0.
  destruct Hcases as [(error & w2 & Hc & ->)|(raw & w2 & Hc & Hcases)].
  { rewrite Hc in Hw. cbn [snd] in Hw. subst w2. exists events. rows_simpl.
    rewrite <- app_assoc. repeat split; try done; try lia.
    right. exists id. split; [done|]. left. split; [done|]. by eexists. }
  rewrite Hc in Hw. cbn [snd] in Hw. subst w2.
  destruct Hcases as [(detail & _ & ->)|[[_ ->]|(result & _ & Hcases)]].
  - exists events. rows_simpl. rewrite <- app_assoc. repeat split; try done; try lia.
    right. exists id. split; [done|]. left. split; [done|]. by eexists.
  - exists events. rows_simpl. rewrite <- app_assoc. repeat split; try done; try lia.
    right. exists id. split; [done|]. left. split; [done|]. by eexists.
  - destruct Hcases as [[_ ->]|(id' & _ & ->)].
    + exists (events ++ [Query (InsertResult id (JSON_stringify (resultToValue result)))]).
      rows_simpl. rewrite <- !app_assoc. rewrite !count_app, waited_app, Hq0.
      change (waited [Query _]) with 0%Z.
      repeat split; try done; try (unfold count; simpl; lia); try lia.
      * change (count isFetch [Query _]) with 0. lia.
      * right. exists id. split; [done|]. left. split; [done|]. by eexists.
    + exists (events ++ [Query (InsertResult id (JSON_stringify (resultToValue result)))]).
      rows_simpl. rewrite <- !app_assoc. rewrite !count_app, waited_app, Hq0.
      change (waited [Query _]) with 0%Z.
      repeat split; try done; try (unfold count; simpl; lia); try lia.
      * change (count isFetch [Query _]) with 0. lia.
      * right. exists id. split; [done|]. right. exists result. split; reflexivity.
Qed.

(** X9. With a configured key and a positive
    [maxRetries], every run of the completion client, whatever the
    endpoint answers, is a number [k] of failed attempts below
    [maxRetries], each followed by its wait, and one last attempt, all
    sending the same request. The waits double from 1000 ms and add up
    to [1000 * (2^k - 1)] ms, at most [1000 * (2^(maxRetries-1) - 1)]. *)
Theorem callGrokWithRetry_run `{Engine} (env : Env) (options : GrokCompletionOptions)
    (maxRetries : Z) (w : World) (apiKey : jsstring) :
  getApiKey env = Return apiKey →
  (1 ≤ maxRetries)%Z →
  ∃ k,
    k < Z.to_nat maxRetries
    ∧ (callGrokWithRetry env options maxRetries w).2
      = extend w (retries (buildRequest apiKey options) k 1
                    ++ [Fetch (buildRequest apiKey options)])
    ∧ waited (retries (buildRequest apiKey options) k 1
                ++ [Fetch (buildRequest apiKey options)])
      = (1000 * (2 ^ Z.of_nat k - 1))%Z
    ∧ (1000 * (2 ^ Z.of_nat k - 1) ≤ 1000 * (2 ^ (maxRetries - 1) - 1))%Z.
Proof.
  intros Hkey Hmax. unfold callGrokWithRetry. rewrite Hkey.
  destruct (attempts_shape env (buildRequest apiKey options) maxRetries
              (Z.to_nat maxRetries) 1 w) as (k & Hk & Hw); [lia|lia|].
  exists k. split; [done|]. split; [done|]. split.
  - rewrite waited_app, waited_retries by lia. simpl. lia.
  - apply Z.mul_le_mono_nonneg_l; [lia|].
    apply Z.sub_le_mono_r. apply Z.pow_le_mono_r; lia.
Qed.

Lemma callGrokWithRetry_run_witness :
  ∃ k,
    k < 3
    ∧ (@callGrokWithRetry sampleEngine (constantEnv (Response 503 (js "busy")))
         (promptOnly (js "hi")) 3 emptyWorld).2
      = extend emptyWorld
          (retries (buildRequest (js "key") (promptOnly (js "hi"))) k 1
             ++ [Fetch (buildRequest (js "key") (promptOnly (js "hi")))])
    ∧ waited (retries (buildRequest (js "key") (promptOnly (js "hi"))) k 1
                ++ [Fetch (buildRequest (js "key") (promptOnly (js "hi")))])
      = (1000 * (2 ^ Z.of_nat k - 1))%Z
    ∧ (1000 * (2 ^ Z.of_nat k - 1) ≤ 1000 * (2 ^ (3 - 1) - 1))%Z.
Proof.
  apply (@callGrokWithRetry_run sampleEngine (constantEnv (Response 503 (js "busy")))
           (promptOnly (js "hi")) 3 emptyWorld (js "key")).
  - reflexivity.
  - lia.
Defined.

Section ClientSuccess.
Context `{Engine} (env : Env).

Lemma attempts_success r maxRetries n attempt w status body data :
  endpoint env (fetchCount w) = Response status body →
  ok status = true →
  JSON_parse body = Some data →
  data ≠ VNull →
  attempts env r maxRetries (S n) attempt w
  = (match messageOf data with
     | Some message => Return (contentOf message)
     | None =>
         Throw (GrokApiError (js "Invalid response structure from Groq API") None false)
     end,
     extend w [Fetch r]).
Proof.
  intros Hout Hok Hparse Hnull.
  rewrite attempts_S, Hout. unfold tryBlock. rewrite Hok, Hparse. cbn [negb].
  unfold messageOf, contentOf.
  destruct data as [|b|literal|s|elements|props]; try done. cbn.
  destruct (lookupProperty (js "choices") props) as [choices|]; cbn; [|done].
  destruct (truthy choices); [|done].
  destruct (getIndex choices 0) as [choice|]; cbn; [|done].
  destruct (truthy choice); [|done].
  destruct (getField choice (js "message")) as [message|]; cbn; [|done].
  destruct (truthy message); [|done].
  destruct (getField message (js "content")) as [content|]; [|done].
  by destruct (truthy content).
Qed.
End ClientSuccess.

(** X10. When the first [k] attempts fail with
    a retryable outcome, [k] being below [maxRetries], and the next one
    gets a success response with a payload, the client makes no further
    attempt: it returns the content of the message of that payload (or,
    if the payload has no message, throws the malformed-response error),
    after the [k] waits of the failed attempts. *)
Theorem callGrokWithRetry_recovers `{Engine} (env : Env) (options : GrokCompletionOptions)
    (maxRetries : Z) (w : World) (apiKey : jsstring) (k : nat) (status : Z)
    (body : jsstring) (data : value) :
  getApiKey env = Return apiKey →
  k < Z.to_nat maxRetries →
  (∀ i, i < k → retryable (endpoint env (fetchCount w + i))) →
  endpoint env (fetchCount w + k) = Response status body →
  ok status = true →
  JSON_parse body = Some data →
  data ≠ VNull →
  callGrokWithRetry env options maxRetries w
  = (match messageOf data with
     | Some message => Return (contentOf message)
     | None =>
         Throw (GrokApiError (js "Invalid response structure from Groq API") None false)
     end,
     extend w (retries (buildRequest apiKey options) k 1
                 ++ [Fetch (buildRequest apiKey options)])).
Proof.
  intros Hkey Hk Hretry Hout Hok Hparse Hnull.
  unfold callGrokWithRetry. rewrite Hkey.
  replace (Z.to_nat maxRetries) with (k + S (Z.to_nat maxRetries - k - 1)) by lia.
  rewrite attempts_retries; [|done|lia].
  erewrite attempts_success; try done.
  - by rewrite extend_extend.
  - by rewrite fetchCount_extend, retries_fetches.
Qed.

Lemma callGrokWithRetry_recovers_witness :
  @callGrokWithRetry sampleEngine (busyTwiceEnv (js "done")) (promptOnly (js "hi")) 3
    emptyWorld
  = (Return (VStr (js "done")),
     extend emptyWorld
       [Fetch (buildRequest (js "key") (promptOnly (js "hi"))); Delay 1000;
        Fetch (buildRequest (js "key") (promptOnly (js "hi"))); Delay 2000;
        Fetch (buildRequest (js "key") (promptOnly (js "hi")))]).
Proof.
  refine (@callGrokWithRetry_recovers sampleEngine (busyTwiceEnv (js "done"))
            (promptOnly (js "hi")) 3 emptyWorld (js "key") 2 200
            (completionBody (js "done"))
            (VObj [(js "choices",
                    VArr [VObj [(js "message", VObj [(js "content", VStr (js "done"))])]])])
            _ _ _ _ _ _ _).
  - reflexivity.
  - simpl. lia.
  - intros [|[|i]] Hi; simpl; [right; lia | right; lia | lia].
  - reflexivity.
  - reflexivity.
  - vm_compute. reflexivity.
  - discriminate.
Defined.

Lemma extend_inv w events : extend w events = w → events = [].
Proof.
  intros Hw. apply (f_equal trace) in Hw. simpl in Hw.
  apply (f_equal length) in Hw. rewrite length_app in Hw.
  destruct events; [done | simpl in Hw; lia].
Qed.

Lemma getApiKey_cases `{Engine} (env : Env) :
  ((GROQ_API_KEY env = None ∨ GROQ_API_KEY env = Some [])
   ∧ getApiKey env
     = Throw (GrokApiError (js "GROQ_API_KEY environment variable is not configured")
                None false))
  ∨ ∃ apiKey, GROQ_API_KEY env = Some apiKey ∧ apiKey ≠ [] ∧ getApiKey env = Return apiKey.
Proof.
  unfold getApiKey. destruct (GROQ_API_KEY env) as [[|c apiKey]|]; simpl.
  - left. split; [by right | done].
  - right. by exists (c :: apiKey).
  - left. split; [by left | done].
Qed.

Lemma callGrokWithRetry_unconfigured `{Engine} (env : Env) options maxRetries w :
  GROQ_API_KEY env = None ∨ GROQ_API_KEY env = Some [] →
  callGrokWithRetry env options maxRetries w
  = (Throw (GrokApiError (js "GROQ_API_KEY environment variable is not configured")
              None false), w).
Proof.
  intros Hk. unfold callGrokWithRetry.
  destruct (getApiKey_cases env) as [[_ ->]|(apiKey & E & Hne & _)]; [done|].
  destruct Hk as [Hk|Hk]; rewrite Hk in E; [done|]. by injection E as <-.
Qed.

Lemma callGrokWithRetry_no_loop `{Engine} (env : Env) options maxRetries w apiKey :
  GROQ_API_KEY env = Some apiKey → apiKey ≠ [] → (maxRetries ≤ 0)%Z →
  callGrokWithRetry env options maxRetries w
  = (Throw (GrokApiError (js "Unexpected error in retry logic") None false), w).
Proof.
  intros E Hne Hmax. unfold callGrokWithRetry.
  destruct (getApiKey_cases env) as [[[Hk|Hk] _]|(apiKey' & _ & _ & ->)];
    [rewrite Hk in E; done | rewrite Hk in E; by injection E as <- |].
  replace (Z.to_nat maxRetries) with 0 by lia. done.
Qed.

(** X11. The completion client makes no call of
    the endpoint exactly when the credential is missing or empty, or
    [maxRetries] is not positive. In the first case it throws the
    configuration error, in the second the error of the line after the
    loop; neither is retryable and neither carries a status. *)
Theorem callGrokWithRetry_no_call `{Engine} (env : Env) (options : GrokCompletionOptions)
    (maxRetries : Z) (w : World) :
  ((callGrokWithRetry env options maxRetries w).2 = w
   ↔ GROQ_API_KEY env = None ∨ GROQ_API_KEY env = Some [] ∨ (maxRetries ≤ 0)%Z)
  ∧ (GROQ_API_KEY env = None ∨ GROQ_API_KEY env = Some [] →
     callGrokWithRetry env options maxRetries w
     = (Throw (GrokApiError (js "GROQ_API_KEY environment variable is not configured")
                 None false), w))
  ∧ (∀ apiKey,
       GROQ_API_KEY env = Some apiKey → apiKey ≠ [] → (maxRetries ≤ 0)%Z →
       callGrokWithRetry env options maxRetries w
       = (Throw (GrokApiError (js "Unexpected error in retry logic") None false), w)).
Proof.
  split; [|split; [apply callGrokWithRetry_unconfigured
                   | intros apiKey; apply callGrokWithRetry_no_loop]].
  split.
  - intros Hw. destruct (getApiKey_cases env) as [[Hk _]|(apiKey & E & Hne & Hkey)];
      [tauto|].
    destruct (Z_le_gt_dec maxRetries 0) as [Hle|Hgt]; [tauto|].
    unfold callGrokWithRetry in Hw. rewrite Hkey in Hw.
    destruct (attempts_shape env (buildRequest apiKey options) maxRetries
                (Z.to_nat maxRetries) 1 w) as (k & _ & Hrun); [lia|lia|].
    rewrite Hrun in Hw. apply extend_inv in Hw. by destruct (retries _ k 1).
  - intros [Hk|[Hk|Hmax]];
      [by rewrite callGrokWithRetry_unconfigured; auto
      | by rewrite callGrokWithRetry_unconfigured; auto |].
    destruct (getApiKey_cases env) as [[Hk _]|(apiKey & E & Hne & Hkey)].
    + by rewrite callGrokWithRetry_unconfigured.
    + by rewrite (callGrokWithRetry_no_loop env options maxRetries w apiKey).
Qed.

(** X12. Without a credential, a valid request
    is still stored: [POST /compare] sends the statement that stores
    it, makes no call of the endpoint, and answers 502 with
    [ai_service_error] and a message that names the missing
    environment variable. *)
Theorem compareRoute_unconfigured `{Engine} `{Host} (env : Env) (body : value)
    (input : ComparisonInput) (w : World) (id : jsstring) :
  GROQ_API_KEY env = None ∨ GROQ_API_KEY env = Some [] →
  validateComparisonRequest body = Return (Next input) →
  database env (queryCount w) = Inserted id →
  compareRoute env body w
  = (HttpResponse.mk 502
       (ErrorPayload (js "ai_service_error")
          (js "AI service is currently unavailable: GROQ_API_KEY environment variable is not configured")),
     afterRequest w input id).
Proof.
  intros Hkey Hv Hdb. unfold compareRoute, createComparison, executeComparison.
  rewrite Hv, (storeComparisonRequest_Inserted env input w id Hdb).
  by rewrite callGrokWithRetry_unconfigured.
Qed.

Lemma compareRoute_unconfigured_witness :
  @compareRoute sampleEngine sampleHost unconfiguredEnv paddedBody emptyWorld
  = (HttpResponse.mk 502
       (ErrorPayload (js "ai_service_error")
          (js "AI service is currently unavailable: GROQ_API_KEY environment variable is not configured")),
     afterRequest emptyWorld (ComparisonInput.mk [js "AWS"; js "Azure"] [js "cost"])
       (js "id-1")).
Proof.
  apply (@compareRoute_unconfigured sampleEngine sampleHost unconfiguredEnv paddedBody
           (ComparisonInput.mk [js "AWS"; js "Azure"] [js "cost"]) emptyWorld (js "id-1")).
  - by left.
  - reflexivity.
  - reflexivity.
Defined.

Section RouteStorage.
Context `{Engine} (env : Env).


(** Every call the completion client makes sends the prompt it was
    given. *)
Lemma callGrokWithRetry_sent (P : event → Prop) options maxRetries w :
  (∀ r, content r = GrokCompletionOptions.prompt options → P (Fetch r)) →
  (∀ ms, P (Delay ms)) →
  ∃ events,
    (callGrokWithRetry env options maxRetries w).2 = extend w events ∧ Forall P events.
Proof.
  intros Hf Hd. unfold callGrokWithRetry.
  destruct (getApiKey env) as [apiKey|e]; [|exists []; by rewrite extend_nil].
  destruct (Z.to_nat maxRetries) as [|n] eqn:En.
  { exists []. by rewrite extend_nil. }
  destruct (attempts_shape env (buildRequest apiKey options) maxRetries (S n) 1 w)
    as (k & _ & ->); [lia|lia|].
  eexists. split; [done|]. apply Forall_app. split.
  - apply retries_Forall; [by apply Hf | done].
  - repeat constructor. by apply Hf.
Qed.

Lemma executeComparison_sent input w :
  ∃ events,
    trace (executeComparison env input w).2
    = trace w
        ++ Query (InsertComparison (ComparisonInput.options input)
                    (ComparisonInput.constraints input)) :: events
    ∧ Forall (sentFor input) events.
Proof.
  destruct (executeComparison_cases env input w) as [[_ ->]|(id & _ & Hcases)].
  { by exists []. }
  destruct (callGrokWithRetry_sent (sentFor input) (promptFor input) MAX_RETRIES
              (afterRequest w input id)) as (events & Hw & Hsent); [done|done|].
  destruct Hcases as [(error & w2 & Hc & ->)|(raw & w2 & Hc & Hcases)];
    rewrite Hc in Hw; cbn [snd] in Hw; subst w2.
  { exists events. rows_simpl. by rewrite <- app_assoc. }
  destruct Hcases as [(detail & _ & ->)|[[_ ->]|(result & _ & Hcases)]];
    try (exists events; rows_simpl; by rewrite <- app_assoc).
  destruct Hcases as [[_ ->]|(id' & _ & ->)];
    (exists (events ++ [Query (InsertResult id (JSON_stringify (resultToValue result)))]);
     rows_simpl; rewrite <- !app_assoc; split; [done|];
     apply Forall_app; split; [done | by repeat constructor]).
Qed.
End RouteStorage.

(** X13. [POST /compare] reaches the database and
    the endpoint only with a validated request. Either it calls
    nothing, or the body passed validation as a request with at least
    two options and one constraint, all trimmed and non-empty; then the
    first call stores exactly that request, and every call of the
    endpoint sends the prompt built from it. *)
Theorem compareRoute_validated `{Engine} `{Host} (env : Env) (body : value) (w : World) :
  (compareRoute env body w).2 = w
  ∨ ∃ input events,
      validateComparisonRequest body = Return (Next input)
      ∧ validInput input
      ∧ trace (compareRoute env body w).2
        = trace w
            ++ Query (InsertComparison (ComparisonInput.options input)
                        (ComparisonInput.constraints input)) :: events
      ∧ Forall (sentFor input) events.
Proof.
  unfold compareRoute. pose proof (validateComparisonRequest_outcome body) as Hv.
  destruct (validateComparisonRequest body) as [[response|input]|e]; [by left| |by left].
  right. destruct (executeComparison_sent env input w) as (events & Ht & Hs).
  exists input, events. split; [done|]. split; [done|]. split; [|done].
  cbv match. rewrite <- Ht. f_equal.
  destruct (createComparison_cases env input w)
    as [(result & _ & ->)|[(message & code & statusCode & _ & ->)|[_ ->]]]; done.
Qed.

(** ** What the normalizer keeps *)

(** X14. A successful normalization returns as
    many options as the parsed [options] array has entries, at least
    one, in the same order: the option at each index carries the
    trimmed name of the entry at that index. *)
Theorem normalize_keeps_options `{Engine} (raw : value) (result : NormalizedComparisonResult) :
  normalizeGrokResponse raw = Return result →
  ∃ text parsed entries,
    raw = VStr text
    ∧ JSON_parse (extractJson text) = Some parsed
    ∧ getField parsed (js "options") = Some (VArr entries)
    ∧ entries ≠ []
    ∧ length (NormalizedComparisonResult.options result) = length entries
    ∧ ∀ i o,
        NormalizedComparisonResult.options result !! i = Some o →
        ∃ entry name,
          entries !! i = Some entry
          ∧ getField entry (js "name") = Some (VStr name)
          ∧ OptionAnalysis.name o = trim name.
Proof.
  intros Hn.
  apply normalizeGrokResponse_options_length in Hn
    as (text & parsed & entries & -> & Hp & Hf & Hne & Hm & Hlen).
  exists text, parsed, entries. repeat split; try done.
  intros i o Ho. apply mapIndexed_Return in Hm as [_ Hm].
  destruct (Hm i o Ho) as (entry & He & Hv). exists entry.
  apply validateOption_Return in Hv as (name & ps & cs & Hname & _ & _ & _ & _ & ->).
  by exists name.
Qed.

Lemma normalize_keeps_options_witness :
  ∃ text parsed entries,
    VStr mixedScores = VStr text
    ∧ JSON_parse (extractJson text) = Some parsed
    ∧ getField parsed (js "options") = Some (VArr entries)
    ∧ entries ≠ []
    ∧ length [scoredOption; OptionAnalysis.mk (js "B") [] [] ∅] = length entries
    ∧ ∀ i o,
        [scoredOption; OptionAnalysis.mk (js "B") [] [] ∅] !! i = Some o →
        ∃ entry name,
          entries !! i = Some entry
          ∧ getField entry (js "name") = Some (VStr name)
          ∧ OptionAnalysis.name o = trim name.
Proof.
  apply (@normalize_keeps_options sampleEngine (VStr mixedScores)
           (NormalizedComparisonResult.mk
              [scoredOption; OptionAnalysis.mk (js "B") [] [] ∅] [])).
  vm_compute. reflexivity.
Defined.

Section ScoresFacts.
Context `{Engine}.

Lemma assign_lookup acc key s k :
  k ≠ js "__proto__" →
  assign acc key s !! k = if decide (key = k) then Some s else acc !! k.
Proof.
  intros Hk. unfold assign. destruct (decide (key = js "__proto__")) as [->|Hp].
  - by rewrite decide_False.
  - destruct (decide (key = k)) as [->|Hne]; [by rewrite lookup_insert_eq|].
    by rewrite lookup_insert_ne.
Qed.

Lemma assign_proto acc key s : assign acc key s !! js "__proto__" = acc !! js "__proto__".
Proof.
  unfold assign. destruct (decide (key = js "__proto__")) as [->|Hp]; [done|].
  by rewrite lookup_insert_ne.
Qed.

Lemma lookupProperty_None k (props : list (jsstring * value)) :
  k ∉ props.*1 → lookupProperty k props = None.
Proof.
  induction props as [|[k' v] props IH]; [done|]. simpl.
  intros Hk. apply not_elem_of_cons in Hk as [Hne Hk].
  rewrite decide_False by done. by apply IH.
Qed.

(** What the reducer leaves under a key other than [__proto__]. *)
Lemma reduceScores_lookup es acc m k :
  reduceScores acc es = Return m →
  NoDup es.*1 →
  k ≠ js "__proto__" →
  match lookupProperty k es with
  | Some (VStr s) => m !! k = Some s
  | Some VNull | None => m !! k = acc !! k
  | Some v => ∃ s, toString v = Return s ∧ m !! k = Some s
  end.
Proof.
  intros Hr Hnd Hk. revert acc Hr Hnd.
  induction es as [|[key v] es IH]; intros acc Hr Hnd.
  { by injection Hr as <-. }
  rewrite reduceScores_cons in Hr. apply bind_Return in Hr as (acc' & Hacc & Hr).
  apply NoDup_cons in Hnd as [Hkey Hnd]. specialize (IH acc' Hr Hnd).
  cbn [lookupProperty]. destruct (decide (key = k)) as [->|Hne].
  - rewrite (lookupProperty_None k es Hkey) in IH. rewrite IH.
    destruct v as [|b|literal|s|elements|props];
      try (apply bind_Return in Hacc as (s & Hs & [= <-]); exists s; split; [done|];
           by rewrite assign_lookup, decide_True);
      injection Hacc as <-; [done|]. by rewrite assign_lookup, decide_True.
  - assert (acc' !! k = acc !! k) as Hsame.
    { destruct v as [|b|literal|s|elements|props];
        try (apply bind_Return in Hacc as (s & Hs & [= <-]);
             by rewrite assign_lookup, decide_False);
        injection Hacc as <-; [done|]. by rewrite assign_lookup, decide_False. }
    by rewrite <- Hsame.
Qed.

Lemma reduceScores_proto es acc m :
  reduceScores acc es = Return m → m !! js "__proto__" = acc !! js "__proto__".
Proof.
  revert acc. induction es as [|[key v] es IH]; intros acc Hr.
  { by injection Hr as <-. }
  rewrite reduceScores_cons in Hr. apply bind_Return in Hr as (acc' & Hacc & Hr).
  rewrite (IH acc' Hr).
  destruct v as [|b|literal|s|elements|props];
    try (apply bind_Return in Hacc as (s & Hs & [= <-]); apply assign_proto);
    injection Hacc as <-; [done | apply assign_proto].
Qed.
End ScoresFacts.

(** X15. For an accepted option whose [scores] is
    an object with distinct keys, the scores returned hold, under every
    key other than [__proto__]: the string itself for a string, nothing
    for [null] and for a key the object lacks, and the string
    conversion for any other value. Nothing is ever stored under
    [__proto__]. When [scores] is absent or is a string, a number, a
    boolean or [null], the scores returned are empty. *)
Theorem validateOption_scores `{Engine} (option : value) (index : nat) (o : OptionAnalysis) :
  validateOption option index = Return o →
  OptionAnalysis.scores o !! js "__proto__" = None
  ∧ (∀ props k,
       getField option (js "scores") = Some (VObj props) →
       NoDup props.*1 →
       k ≠ js "__proto__" →
       match lookupProperty k props with
       | Some (VStr s) => OptionAnalysis.scores o !! k = Some s
       | Some VNull | None => OptionAnalysis.scores o !! k = None
       | Some v => ∃ s, toString v = Return s ∧ OptionAnalysis.scores o !! k = Some s
       end)
  ∧ (match getField option (js "scores") with
     | Some (VArr _) | Some (VObj _) => True
     | _ => OptionAnalysis.scores o = ∅
     end).
Proof.
  intros Hv.
  apply validateOption_Return in Hv as (name & ps & cs & _ & _ & _ & _ & Hs & _).
  unfold scoresOf in Hs. split; [|split].
  - destruct (getField option (js "scores")) as [scores|]; [|by injection Hs as <-].
    destruct (truthy scores && typeofObject scores); [|by injection Hs as <-].
    by rewrite (reduceScores_proto _ _ _ Hs).
  - intros props k Hf Hnd Hk. rewrite Hf in Hs. cbn in Hs.
    apply (reduceScores_lookup props ∅ _ k Hs Hnd Hk).
  - destruct (getField option (js "scores")) as [[|b|literal|s|elements|props]|];
      try done; cbn in Hs; try (by injection Hs as <-).
    + destruct b; cbn in Hs; by injection Hs as <-.
    + rewrite andb_false_r in Hs. by injection Hs as <-.
    + rewrite andb_false_r in Hs. by injection Hs as <-.
Qed.

Lemma validateOption_scores_witness :
  OptionAnalysis.scores scoredOption !! js "cost" = Some (js "low")
  ∧ OptionAnalysis.scores scoredOption !! js "risk" = None
  ∧ OptionAnalysis.scores scoredOption !! js "__proto__" = None.
Proof.
  destruct (@validateOption_scores sampleEngine scoredEntry 0 scoredOption)
    as (Hproto & Hscores & _); [vm_compute; reflexivity|].
  split; [|split; [|exact Hproto]].
  - refine (Hscores _ (js "cost") eq_refl _ _).
    + apply (bool_decide_unpack _). by vm_compute.
    + discriminate.
  - refine (Hscores _ (js "risk") eq_refl _ _).
    + apply (bool_decide_unpack _). by vm_compute.
    + discriminate.
Defined.

(** ** The database module *)

Lemma held_app a b : held (a ++ b) = (held a + held b)%Z.
Proof.
  induction a as [|e a IH]; [done|].
  destruct e as [[|reason]|text ans|]; simpl; rewrite ?IH; lia.
Qed.

Lemma calls_app p a b : calls p (a ++ b) = calls p a + calls p b.
Proof. unfold calls. by rewrite List.filter_app, length_app. Qed.

(** X16. [checkConnection] returns [true] exactly
    when the pool hands out a client and the probe [SELECT 1] succeeds,
    and it never throws. It releases the client only after a successful
    probe: when the probe fails, the client stays checked out. *)
Theorem checkConnection_leak (db : PoolEnv) (log : list poolEvent) :
  ((checkConnection db log).1 = true
   ↔ connects db (calls isConnect log) = Done
     ∧ statements db (calls isClientQuery log) = Done)
  ∧ held (checkConnection db log).2
    = match connects db (calls isConnect log), statements db (calls isClientQuery log) with
      | Done, Failed _ => (held log + 1)%Z
      | _, _ => held log
      end
  ∧ ∃ events,
      (checkConnection db log).2 = log ++ events
      ∧ (Release ∈ events ↔ (checkConnection db log).1 = true).
Proof.
  unfold checkConnection, connect, clientQuery. cbv zeta.
  rewrite calls_app. change (calls isClientQuery [Connect _]) with 0. rewrite Nat.add_0_r.
  destruct (connects db (calls isConnect log)) as [|r1];
    [destruct (statements db (calls isClientQuery log)) as [|r2]|]; cbn [fst snd].
  - split; [done|]. split; [rewrite !held_app; simpl; lia|].
    eexists. rewrite <- !app_assoc. split; [done|]. split; [done|].
    intros _. apply elem_of_app. right. apply elem_of_app. right.
    by apply list_elem_of_singleton.
  - split; [split; [done | by intros [_ ?]]|]. split; [rewrite !held_app; simpl; lia|].
    eexists. rewrite <- !app_assoc. split; [done|]. split; [|done].
    intros Hr. apply elem_of_app in Hr as [Hr|Hr];
      apply list_elem_of_singleton in Hr; discriminate.
  - split; [split; [done | by intros [? _]]|]. split; [rewrite !held_app; simpl; lia|].
    eexists. split; [done|]. split; [|done].
    intros Hr. apply list_elem_of_singleton in Hr. discriminate.
Qed.

(** X17. [initializeDatabase] resolves exactly
    when the pool hands out a client and both tables are created, and
    rejects with the reason of the first call that fails. It creates
    [comparisons] before [comparison_results], which refers to it, and
    does not send the second statement when the first fails. Whatever
    the statements answer, it releases the client it took, once, as its
    last call. *)
Theorem initializeDatabase_releases (db : PoolEnv) (log : list poolEvent) :
  held (initializeDatabase db log).2 = held log
  ∧ ((initializeDatabase db log).1 = Done
     ↔ connects db (calls isConnect log) = Done
       ∧ statements db (calls isClientQuery log) = Done
       ∧ statements db (S (calls isClientQuery log)) = Done)
  ∧ match connects db (calls isConnect log) with
    | Failed reason =>
        initializeDatabase db log = (Failed reason, log ++ [Connect (Failed reason)])
    | Done =>
        ∃ a sent,
          initializeDatabase db log
          = (a, log ++ [Connect Done; ClientQuery CREATE_COMPARISONS
                                        (statements db (calls isClientQuery log))]
                  ++ sent ++ [Release])
          ∧ (sent = []
             ∨ (statements db (calls isClientQuery log) = Done
                ∧ sent = [ClientQuery CREATE_COMPARISON_RESULTS
                            (statements db (S (calls isClientQuery log)))]))
          ∧ match statements db (calls isClientQuery log) with
            | Failed reason => a = Failed reason ∧ sent = []
            | Done => a = statements db (S (calls isClientQuery log)) ∧ sent ≠ []
            end
    end.
Proof.
  unfold initializeDatabase, connect, clientQuery. cbv zeta.
  rewrite !calls_app. change (calls isClientQuery [Connect _]) with 0.
  change (calls isClientQuery [ClientQuery _ _]) with 1.
  rewrite Nat.add_0_r, Nat.add_1_r.
  destruct (connects db (calls isConnect log)) as [|r1]; cbn [fst snd].
  2: { split; [rewrite held_app; simpl; lia|]. split; [|done].
       split; [done | by intros [? _]]. }
  destruct (statements db (calls isClientQuery log)) as [|r2]; cbn [fst snd].
  2: { split; [rewrite !held_app; simpl; lia|]. split.
       - split; [done | by intros (_ & ? & _)].
       - exists (Failed r2), []. rewrite <- !app_assoc. split; [done|]. split; [by left | done]. }
  destruct (statements db (S (calls isClientQuery log))) as [|r3]; cbn [fst snd].
  - split; [rewrite !held_app; simpl; lia|]. split; [done|].
    exists Done, [ClientQuery CREATE_COMPARISON_RESULTS Done].
    rewrite <- !app_assoc. split; [done|]. split; [by right | done].
  - split; [rewrite !held_app; simpl; lia|]. split.
    + split; [done | by intros (_ & _ & ?)].
    + exists (Failed r3), [ClientQuery CREATE_COMPARISON_RESULTS (Failed r3)].
      rewrite <- !app_assoc. split; [done|]. split; [by right | done].
Qed.

(** ** The health check *)

Lemma checkConnection_true (db : PoolEnv) (log : list poolEvent) :
  (checkConnection db log).1 = true
  ↔ connects db (calls isConnect log) = Done
    ∧ statements db (calls isClientQuery log) = Done.
Proof.
  unfold checkConnection, connect, clientQuery. cbv zeta.
  rewrite calls_app. change (calls isClientQuery [Connect _]) with 0. rewrite Nat.add_0_r.
  destruct (connects db (calls isConnect log)) as [|r1];
    [destruct (statements db (calls isClientQuery log)) as [|r2]|]; cbn [fst snd].
  - done.
  - split; [done | by intros [_ ?]].
  - split; [done | by intros [? _]].
Qed.

(** X18. [healthCheck] answers 200 and [healthy]
    exactly when the database probe succeeds and, with a configured
    credential, [GET /models] gets a success status; otherwise it
    answers 503 and [unhealthy]. The fields [database] and [grokApi]
    tell which of the two probes succeeded, and the timestamp is the
    time of the clock. Without a credential no request is sent to the
    endpoint. *)
Theorem healthCheck_contract `{Engine} (env : HealthEnv) (w : HealthWorld) :
  ∃ db grok : bool,
    (healthCheck env w).1
    = HttpResponse.mk (if db && grok then 200 else 503)%Z
        (HealthPayload (if db && grok then js "healthy" else js "unhealthy")
           (if db then js "connected" else js "disconnected")
           (if grok then js "connected" else js "disconnected")
           (now (base env)))
    ∧ (db = true
       ↔ connects (pool env) (calls isConnect (poolLog w)) = Done
         ∧ statements (pool env) (calls isClientQuery (poolLog w)) = Done)
    ∧ (grok = true
       ↔ ∃ apiKey status body,
           getApiKey (base env) = Return apiKey
           ∧ models env (length (probes w)) = Response status body
           ∧ ok status = true)
    ∧ probes (healthCheck env w).2
      = match getApiKey (base env) with
        | Return apiKey => probes w ++ [js "Bearer " ++ apiKey]
        | Throw _ => probes w
        end.
Proof.
  unfold healthCheck.
  pose proof (checkConnection_true (pool env) (poolLog w)) as Hdb.
  destruct (checkConnection (pool env) (poolLog w)) as [db log'].
  destruct (checkGrokConnection env (probes w)) as [grok probes'] eqn:Hgrok.
  exists db, grok. cbn [fst snd probes]. split; [by destruct db, grok|]. split; [exact Hdb|].
  unfold checkGrokConnection in Hgrok.
  destruct (getApiKey (base env)) as [apiKey|e].
  - cbv zeta in Hgrok.
    destruct (models env (length (probes w))) as [reason|status body];
      injection Hgrok as <- <-.
    + split; [|done]. split; [done | by intros (? & ? & ? & _ & ? & _)].
    + split; [|done]. split.
      * intros Hok. by exists apiKey, status, body.
      * by intros (? & ? & ? & _ & [= <- _] & ?).
  - injection Hgrok as <- <-. split; [|done].
    split; [done | by intros (? & ? & ? & ? & _)].
Qed.

(** ** The comparison form *)

Lemma length_delete_ge {A} (l : list A) i : length l - 1 ≤ length (delete i l).
Proof.
  revert i. induction l as [|x l IH]; intros [|i]; simpl; try lia.
  specialize (IH i). lia.
Qed.

(** X19. Whatever the user does with the form (adding,
    removing and editing fields, submitting), it keeps at least two
    option fields and at least one constraint field. *)
Theorem form_invariant (f : Form) :
  reachable f → 2 ≤ length (Form.options f) ∧ 1 ≤ length (Form.constraints f).
Proof.
  induction 1 as [|f f' _ [Ho Hc] Hstep]; [simpl; lia|].
  destruct Hstep as [f|f index|f index value Hi|f|f index|f index value Hi|f];
    cbn [addOption addConstraint updateOption updateConstraint Form.options Form.constraints].
  - rewrite length_app. simpl. lia.
  - unfold removeOption. destruct (2 <? length (Form.options f)) eqn:E; [|done].
    apply Nat.ltb_lt in E. cbn [Form.options Form.constraints].
    pose proof (length_delete_ge (Form.options f) index). lia.
  - by rewrite length_insert.
  - rewrite length_app. simpl. lia.
  - unfold removeConstraint. destruct (1 <? length (Form.constraints f)) eqn:E; [|done].
    apply Nat.ltb_lt in E. cbn [Form.options Form.constraints].
    pose proof (length_delete_ge (Form.constraints f) index). lia.
  - by rewrite length_insert.
  - unfold handleSubmit, validate. cbv zeta.
    by repeat case_match.
Qed.

Lemma form_invariant_witness :
  2 ≤ length (Form.options (removeOption 0 (updateOption 1 (js "GCP") (addOption initialForm))))
  ∧ 1 ≤ length (Form.constraints
                   (removeOption 0 (updateOption 1 (js "GCP") (addOption initialForm)))).
Proof.
  apply form_invariant.
  eapply reachable_step; [|apply step_removeOption].
  eapply reachable_step; [|apply step_updateOption; simpl; lia].
  eapply reachable_step; [|apply step_addOption].
  apply reachable_initial.
Defined.

Lemma filter_notBlank_Forall (l : list jsstring) :
  Forall (λ s, trim s ≠ []) (List.filter notBlank l).
Proof.
  apply Forall_forall. intros s Hs. apply list_elem_of_In, List.filter_In in Hs as [_ Hs].
  unfold notBlank in Hs. apply negb_true_iff in Hs. by apply isEmpty_false.
Qed.

Lemma filter_sublist {A} (p : A → bool) (l : list A) : sublist (List.filter p l) l.
Proof.
  induction l as [|x l IH]; simpl; [constructor|].
  destruct (p x); by constructor.
Qed.

(** What [handleSubmit] passes on, and when. *)
Lemma handleSubmit_cases (f : Form) :
  (2 ≤ length (List.filter notBlank (Form.options f))
   ∧ 1 ≤ length (List.filter notBlank (Form.constraints f))
   ∧ handleSubmit f
     = (Form.mk (Form.options f) (Form.constraints f) None None,
        Some (ComparisonInput.mk (List.filter notBlank (Form.options f))
                (List.filter notBlank (Form.constraints f)))))
  ∨ ((length (List.filter notBlank (Form.options f)) < 2
      ∨ length (List.filter notBlank (Form.constraints f)) < 1)
     ∧ handleSubmit f
       = (Form.mk (Form.options f) (Form.constraints f)
            (if length (List.filter notBlank (Form.options f)) <? 2
             then Some (js "Please provide at least 2 options to compare") else None)
            (if length (List.filter notBlank (Form.constraints f)) <? 1
             then Some (js "Please provide at least 1 constraint") else None),
          None)).
Proof.
  unfold handleSubmit, validate. cbv zeta.
  destruct (Nat.ltb_spec (length (List.filter notBlank (Form.options f))) 2) as [Ho|Ho];
    destruct (Nat.ltb_spec (length (List.filter notBlank (Form.constraints f))) 1)
      as [Hc|Hc];
    cbn [negb].
  - right. split; [by left | done].
  - right. split; [by left | done].
  - right. split; [by right | done].
  - left. done.
Qed.

(** X20. [handleSubmit] passes a request on exactly when at
    least two option fields and one constraint field are not blank. The
    request holds the fields that are not blank, as typed and in their
    order, and the error messages are cleared. Otherwise nothing is
    passed on, the fields are kept, and the message of each list that
    is too short is set. *)
Theorem form_submit (f : Form) :
  match (handleSubmit f).2 with
  | Some request =>
      ComparisonInput.options request = List.filter notBlank (Form.options f)
      ∧ ComparisonInput.constraints request = List.filter notBlank (Form.constraints f)
      ∧ sublist (ComparisonInput.options request) (Form.options f)
      ∧ sublist (ComparisonInput.constraints request) (Form.constraints f)
      ∧ 2 ≤ length (ComparisonInput.options request)
      ∧ 1 ≤ length (ComparisonInput.constraints request)
      ∧ Forall (λ s, trim s ≠ []) (ComparisonInput.options request)
      ∧ Forall (λ s, trim s ≠ []) (ComparisonInput.constraints request)
      ∧ (handleSubmit f).1 = Form.mk (Form.options f) (Form.constraints f) None None
  | None =>
      (length (List.filter notBlank (Form.options f)) < 2
       ∨ length (List.filter notBlank (Form.constraints f)) < 1)
      ∧ Form.options (handleSubmit f).1 = Form.options f
      ∧ Form.constraints (handleSubmit f).1 = Form.constraints f
      ∧ (Form.optionsError (handleSubmit f).1
         = Some (js "Please provide at least 2 options to compare")
         ↔ length (List.filter notBlank (Form.options f)) < 2)
      ∧ (Form.constraintsError (handleSubmit f).1
         = Some (js "Please provide at least 1 constraint")
         ↔ length (List.filter notBlank (Form.constraints f)) < 1)
  end.
Proof.
  destruct (handleSubmit_cases f) as [(Ho & Hc & ->)|[Hshort ->]]; cbn [fst snd].
  - cbn [ComparisonInput.options ComparisonInput.constraints].
    repeat split; try done; try apply filter_sublist; apply filter_notBlank_Forall.
  - cbn [Form.options Form.constraints Form.optionsError Form.constraintsError].
    repeat split; try done.
    + destruct (_ <? 2) eqn:E; [by apply Nat.ltb_lt in E | done].
    + intros Hlt. apply Nat.ltb_lt in Hlt. by rewrite Hlt.
    + destruct (_ <? 1) eqn:E; [by apply Nat.ltb_lt in E | done].
    + intros Hlt. apply Nat.ltb_lt in Hlt. by rewrite Hlt.
Qed.

(** X21. A request that the form passes on,
    written as JSON and parsed again, passes the validation of the
    backend: the middleware calls [next()] with the same options and
    constraints, trimmed, and [POST /compare] never answers it with
    400. *)
Theorem form_request_accepted `{Engine} `{Host} (f : Form) (request : ComparisonInput) :
  (handleSubmit f).2 = Some request →
  ∃ body,
    JSON_parse (JSON_stringify (requestBody request)) = Some body
    ∧ validateComparisonRequest body
      = Return (Next (ComparisonInput.mk (trim <$> ComparisonInput.options request)
                        (trim <$> ComparisonInput.constraints request)))
    ∧ ∀ env w, HttpResponse.status (compareRoute env body w).1 ≠ 400%Z.
Proof.
  intros Hs. exists (requestBody request).
  assert (validateComparisonRequest (requestBody request)
          = Return (Next (ComparisonInput.mk (trim <$> ComparisonInput.options request)
                            (trim <$> ComparisonInput.constraints request)))) as Hv.
  { destruct (handleSubmit_cases f) as [(Ho & Hc & Hr)|[_ Hr]]; rewrite Hr in Hs; [|done].
    injection Hs as <-. apply validateComparisonRequest_Next.
    eexists _, _. repeat split; try done; apply filter_notBlank_Forall. }
  split; [|split; [exact Hv|]].
  - apply JSON_parse_stringify. constructor.
    + apply (bool_decide_unpack _). by vm_compute.
    + apply Forall_cons. split; [apply printable_strings|].
      apply Forall_cons. split; [apply printable_strings | constructor].
  - intros env w. unfold compareRoute. rewrite Hv.
    destruct (createComparison_cases env
                (ComparisonInput.mk (trim <$> ComparisonInput.options request)
                   (trim <$> ComparisonInput.constraints request)) w)
      as [(result & _ & ->)|[(message & code & statusCode & Hr & ->)|[_ ->]]];
      cbn [fst HttpResponse.status internalError]; [done| |done].
    destruct (executeComparison env _ w) as [c w'] eqn:Hrun. cbn [fst] in Hr. subst c.
    destruct (executeComparison_Throw env _ w w' _ Hrun)
      as [E|[[error E]|[E|[E|E]]]]; try discriminate E; by injection E as _ _ ->.
Qed.

Lemma form_request_accepted_witness :
  ∃ body,
    JSON_parse
      (@JSON_stringify sampleEngine
         (requestBody (ComparisonInput.mk [js " AWS"; js "Azure "] [js " cost "])))
    = Some body
    ∧ @validateComparisonRequest sampleEngine sampleHost body
      = Return (Next (ComparisonInput.mk
                        (trim <$> [js " AWS"; js "Azure "]) (trim <$> [js " cost "])))
    ∧ ∀ env w,
        HttpResponse.status (@compareRoute sampleEngine sampleHost env body w).1 ≠ 400%Z.
Proof.
  apply (@form_request_accepted sampleEngine sampleHost filledForm
           (ComparisonInput.mk [js " AWS"; js "Azure "] [js " cost "])).
  reflexivity.
Defined.

(** ** The result table *)

Lemma foldl_setAdd set keys :
  NoDup set →
  NoDup (foldl setAdd set keys)
  ∧ ∀ k, k ∈ foldl setAdd set keys ↔ k ∈ set ∨ k ∈ keys.
Proof.
  revert set. induction keys as [|key keys IH]; intros set Hnd; simpl.
  - split; [done|]. intros k. split; [by left | intros [?|?%elem_of_nil]; done].
  - assert (NoDup (setAdd set key) ∧ ∀ k, k ∈ setAdd set key ↔ k ∈ set ∨ k = key)
      as [Hnd' Hin'].
    { unfold setAdd. destruct (decide (key ∈ set)) as [Hin|Hout].
      - split; [done|]. intros k. split; [by left | intros [?| ->]; done].
      - split; [|intros k; by rewrite elem_of_app, list_elem_of_singleton].
        apply NoDup_app. repeat split; [done| |apply NoDup_singleton].
        intros x Hx ->%list_elem_of_singleton. done. }
    destruct (IH _ Hnd') as [Hnd'' Hin'']. split; [done|].
    intros k. rewrite Hin'', Hin', elem_of_cons.
    split; [intros [[?|?]|?] | intros [?|[?|?]]]; auto.
Qed.

Lemma allConstraints_spec options :
  NoDup (allConstraints options)
  ∧ ∀ k, k ∈ allConstraints options
         ↔ ∃ o, o ∈ options ∧ is_Some (OptionAnalysis.scores o !! k).
Proof.
  unfold allConstraints.
  assert (∀ set,
            NoDup set →
            NoDup (foldl (λ set o, foldl setAdd set (scoreKeys o)) set options)
            ∧ ∀ k, k ∈ foldl (λ set o, foldl setAdd set (scoreKeys o)) set options
                   ↔ k ∈ set ∨ ∃ o, o ∈ options ∧ is_Some (OptionAnalysis.scores o !! k))
    as Hgen.
  { induction options as [|o options IH]; intros set Hnd; simpl.
    - split; [done|]. intros k. split; [by left|]. intros [?|(? & ?%elem_of_nil & _)]; done.
    - destruct (foldl_setAdd set (scoreKeys o) Hnd) as [Hnd' Hin'].
      destruct (IH _ Hnd') as [Hnd'' Hin'']. split; [done|].
      intros k. rewrite Hin'', Hin'. unfold scoreKeys.
      rewrite list_elem_of_fmap. split.
      + intros [[Hk|([k' s] & -> & Hks)]|(o' & Ho' & Hs)].
        * by left.
        * right. exists o. split; [by left|].
          apply elem_of_map_to_list in Hks. by exists s.
        * right. exists o'. split; [by right | done].
      + intros [Hk|(o' & Ho' & [s Hs])]; [by left; left|].
        apply elem_of_cons in Ho' as [->|Ho'].
        * left. right. exists (k, s). split; [done|]. by apply elem_of_map_to_list.
        * right. exists o'. split; [done | by exists s]. }
  destruct (Hgen [] (NoDup_nil_2 (A:=jsstring))) as [Hnd Hin]. split; [done|].
  intros k. rewrite Hin. split; [intros [?%elem_of_nil|?]; done | by right].
Qed.

Lemma fmap_fst_pair {A B} (f : A → B) (l : list A) : ((λ x, (x, f x)) <$> l).*1 = l.
Proof. induction l as [|x l IH]; [done|]. cbn. f_equal. exact IH. Qed.

(** X22. The component renders nothing for no options.
    Otherwise the table has one column per option, in order, and
    exactly one row per key that the scores of some option hold, with
    one cell per option. A cell holds the score of its option under the
    key of its row when that score is not empty; it holds the
    placeholder when the score is empty, and when it is missing and the
    key is no member of [Object.prototype]. *)
Theorem table_rows (options : list OptionAnalysis) :
  match ComparisonResult options with
  | None => options = []
  | Some table =>
      options ≠ []
      ∧ Table.header table = OptionAnalysis.name <$> options
      ∧ NoDup (Table.rows table).*1
      ∧ (∀ k, k ∈ (Table.rows table).*1
              ↔ ∃ o, o ∈ options ∧ is_Some (OptionAnalysis.scores o !! k))
      ∧ ∀ k cells,
          (k, cells) ∈ Table.rows table →
          length cells = length options
          ∧ ∀ i o,
              options !! i = Some o →
              cells !! i
              = Some match OptionAnalysis.scores o !! k with
                     | Some s => if isEmpty s then Text PLACEHOLDER else Text s
                     | None =>
                         if decide (k ∈ objectPrototypeNames) then Inherited k
                         else Text PLACEHOLDER
                     end
  end.
Proof.
  unfold ComparisonResult. destruct options as [|o options]; [done|].
  cbn [length Nat.eqb]. cbv zeta. cbn [Table.header Table.rows].
  destruct (allConstraints_spec (o :: options)) as [Hnd Hin].
  split; [done|]. split; [done|].
  assert (((λ constraint, (constraint, (λ o0, cellOf o0 constraint) <$> o :: options))
             <$> allConstraints (o :: options)).*1 = allConstraints (o :: options)) as ->.
  { apply fmap_fst_pair. }
  split; [done|]. split; [done|].
  intros k cells Hk. apply list_elem_of_fmap in Hk as (k' & Heq & _).
  assert (cells = (λ o0, cellOf o0 k) <$> (o :: options)) as ->
    by (injection Heq as -> ->; reflexivity).
  split; [by rewrite length_fmap|].
  intros i o' Ho'. rewrite list_lookup_fmap, Ho'. done.
Qed.

(** ** Text around the object *)

Lemma hasFencedBlock_infix (x s y : jsstring) :
  hasFencedBlock s → hasFencedBlock (x ++ s ++ y).
Proof.
  intros (a & b & c & ->). exists (x ++ a), b, (c ++ y). by rewrite <- !app_assoc.
Qed.

Lemma trim_infix (s : jsstring) : ∃ u v, s = u ++ trim s ++ v.
Proof.
  destruct (trimStart_spec s) as (u & Hu & _).
  destruct (trimEnd_prefix (trimStart s)) as (v & Hv & _).
  exists u, v. unfold trim. by rewrite <- Hv.
Qed.

Lemma extractJson_object (m : jsstring) :
  ¬ hasFencedBlock ([chr "{"] ++ m ++ [chr "}"]) →
  extractJson ([chr "{"] ++ m ++ [chr "}"]) = [chr "{"] ++ m ++ [chr "}"].
Proof.
  intros Hnf. apply (extractJson_braces _ [] m []); [done|].
  split; [by rewrite app_nil_r|]. split; apply not_elem_of_nil.
Qed.

Lemma normalizeGrokResponse_extract `{Engine} (raw text : jsstring) :
  raw ≠ [] → text ≠ [] → extractJson raw = text → extractJson text = text →
  normalizeGrokResponse (VStr raw) = normalizeGrokResponse (VStr text).
Proof.
  intros Hr Ht Hraw Htext. unfold normalizeGrokResponse.
  apply isEmpty_false in Hr, Ht. rewrite Hr, Ht. cbv zeta. by rewrite Hraw, Htext.
Qed.

(** X23. Normalization sees only the object of a
    reply. When the reply has no fenced block, whatever precedes the
    first opening brace and follows the last closing brace is ignored.
    When it has one, everything outside its interior is ignored,
    provided the interior, once trimmed, opens and closes with a
    brace. *)
Theorem normalize_ignores_prose `{Engine} :
  (∀ raw a m c,
     ¬ hasFencedBlock raw → braceSpan raw a m c →
     normalizeGrokResponse (VStr raw)
     = normalizeGrokResponse (VStr ([chr "{"] ++ m ++ [chr "}"])))
  ∧ (∀ raw pre tag body post m,
       fencedBlock raw pre tag body post →
       trim body = [chr "{"] ++ m ++ [chr "}"] →
       normalizeGrokResponse (VStr raw) = normalizeGrokResponse (VStr (trim body))).
Proof.
  split.
  - intros raw a m c Hnf Hs.
    assert (¬ hasFencedBlock ([chr "{"] ++ m ++ [chr "}"])) as Hnf'.
    { intros Hf. apply Hnf. destruct Hs as (-> & _).
      replace (a ++ [chr "{"] ++ m ++ [chr "}"] ++ c)
        with (a ++ ([chr "{"] ++ m ++ [chr "}"]) ++ c) by (by rewrite <- !app_assoc).
      by apply hasFencedBlock_infix. }
    apply normalizeGrokResponse_extract.
    + destruct Hs as (-> & _). by destruct a.
    + done.
    + by eapply extractJson_braces.
    + by apply extractJson_object.
  - intros raw pre tag body post m Hb Ht.
    assert (¬ hasFencedBlock body) as Hnf.
    { destruct Hb as (rest & _ & _ & [_ Hfirst]). intros (a & b & c & ->).
      apply Hfirst. exists a, (b ++ FENCE ++ c ++ take 2 FENCE). by rewrite <- !app_assoc. }
    assert (¬ hasFencedBlock (trim body)) as Hnf'.
    { intros Hf. apply Hnf. destruct (trim_infix body) as (u & v & Hbody).
      rewrite Hbody. by apply hasFencedBlock_infix. }
    apply normalizeGrokResponse_extract.
    + destruct Hb as (rest & [-> _] & _). destruct pre; done.
    + by rewrite Ht.
    + by eapply extractJson_fenced.
    + rewrite Ht in *. by apply extractJson_object.
Qed.

Lemma normalize_ignores_prose_witness :
  normalizeGrokResponse (H := sampleEngine) (VStr proseExample)
  = normalizeGrokResponse (H := sampleEngine)
      (VStr (jsq "{'options':[{'name':'A','pros':[],'cons':[],'scores':{}}]}")).
Proof.
  refine (proj1 (@normalize_ignores_prose sampleEngine) proseExample
            (js "Here is the comparison: ")
            (jsq "'options':[{'name':'A','pros':[],'cons':[],'scores':{}}]")
            (js " Hope it helps.") _ _).
  - intros Hf. apply hasFencedBlock_matchFence in Hf as [m Hm]. by vm_compute in Hm.
  - split; [reflexivity|]. split; apply (bool_decide_unpack _); by vm_compute.
Defined.

(** ** From the route to the page *)

Lemma printable_values {A} (f : A → value) (l : list A) :
  (∀ x, printable (f x)) → printable (VArr (f <$> l)).
Proof.
  intros Hf. constructor. apply Forall_forall. intros v Hv.
  apply list_elem_of_fmap in Hv as (x & -> & _). apply Hf.
Qed.

Lemma printable_payloadToValue p : printable (payloadToValue p).
Proof.
  destruct p as [result|error message|error message details|status database grokApi ts];
    cbn [payloadToValue]; apply printable_obj;
    try (apply (bool_decide_unpack _); by vm_compute).
  - apply Forall_cons. split; [constructor|].
    apply Forall_cons. split; [apply printable_values, printable_optionToValue|].
    apply Forall_cons. split; [apply printable_values, printable_tradeOffToValue|].
    apply Forall_cons. split; [constructor | apply Forall_nil_2].
  - apply Forall_cons. split; [constructor|].
    apply Forall_cons. split; [constructor | apply Forall_nil_2].
  - apply Forall_cons. split; [constructor|].
    apply Forall_cons. split; [constructor|].
    apply Forall_cons. split; [apply printable_strings | apply Forall_nil_2].
  - repeat (apply Forall_cons; split; [constructor|]). apply Forall_nil_2.
Qed.

Section PageFacts.
Context `{Engine}.

(** A response with a success status: the page takes its body as the
    result and moves to the result route. *)
Lemma submitComparison_ok response page :
  ok (HttpResponse.status response) = true →
  submitComparison (serve response) page
  = Page.mk (Some (payloadToValue (HttpResponse.body response))) false None (js "/result").
Proof.
  intros Hok. unfold submitComparison, fetchApi, fetchApiTry, serve.
  rewrite (JSON_parse_stringify _ (printable_payloadToValue _)), Hok. done.
Qed.

(** A response with another status and a message that is not empty:
    the page shows the message and stays where it is. *)
Lemma submitComparison_error status error message rest page :
  ok status = false →
  message ≠ [] →
  NoDup ((js "error", VStr error) :: (js "message", VStr message) :: rest).*1 →
  Forall (λ p, printable p.2) rest →
  submitComparison
    (Response status
       (JSON_stringify
          (VObj ((js "error", VStr error) :: (js "message", VStr message) :: rest))))
    page
  = Page.mk (Page.comparisonResult page) false (Some message) (Page.route page).
Proof.
  intros Hok Hm Hnd Hrest. unfold submitComparison, fetchApi, fetchApiTry.
  rewrite JSON_parse_stringify.
  2: { apply printable_obj; [done|]. by repeat (apply Forall_cons; split; [constructor|]). }
  rewrite Hok. cbn [negb getField lookupProperty].
  rewrite decide_False by done. rewrite decide_True by done. cbn [truthy].
  apply isEmpty_false in Hm. rewrite Hm. done.
Qed.
End PageFacts.

(** X24. What the home page does with the answer of
    [POST /compare], sent as JSON. For a comparison it takes the body
    as the result, clears the error and moves to [/result]. For every
    other answer it stays where it is, keeps the result it had and
    shows the message of the answer, which for a rejected request is the
    general message without the details. In all cases it ends not
    loading. *)
Theorem page_shows_answer `{Engine} `{Host} (env : Env) (body : value) (w : World)
    (page : Page) :
  submitComparison (serve (compareRoute env body w).1) page
  = match HttpResponse.body (compareRoute env body w).1 with
    | ComparisonPayload result =>
        Page.mk (Some (payloadToValue (ComparisonPayload result))) false None (js "/result")
    | ErrorPayload _ message | ValidationPayload _ message _ =>
        Page.mk (Page.comparisonResult page) false (Some message) (Page.route page)
    | HealthPayload _ _ _ _ => page
    end.
Proof.
  pose proof (compareRoute_answers env body w) as Hc.
  destruct (compareRoute env body w).1 as [status payload].
  cbn [HttpResponse.body HttpResponse.status] in *.
  destruct payload as [result|error message|error message details|? ? ? ?]; [| | |done].
  - destruct Hc as (-> & _). by rewrite submitComparison_ok.
  - unfold serve. cbn [HttpResponse.body HttpResponse.status payloadToValue].
    destruct Hc as [(-> & -> & Hm)|[(-> & -> & detail & ->)|[(-> & -> & ->)|(-> & -> & ->)]]];
      try (destruct Hm as [-> | ->]);
      (apply submitComparison_error;
       [done | done | apply (bool_decide_unpack _); by vm_compute | constructor]).
  - unfold serve. cbn [HttpResponse.body HttpResponse.status payloadToValue].
    destruct Hc as (-> & -> & -> & _ & _).
    apply submitComparison_error;
      [done | done | apply (bool_decide_unpack _); by vm_compute |].
    apply Forall_cons. split; [apply printable_strings | constructor].
Qed.

(** X25. [fetchApi] resolves exactly for a response
    with a success status whose body is JSON, and then with the parsed
    body. A body that is not JSON gives the error [parse_error] with
    status 500, whatever the status of the response. A response with
    another status and a body other than [null] gives an
    [ApiRequestError] with that status, unless its message has no
    string conversion. A failed [fetch] gives [network_error] with
    status 0 when the message of its [TypeError] contains [fetch], and
    that [TypeError] otherwise. Apart from its own error, the only
    thing [fetchApi] throws is a [TypeError] whose message does not
    contain [fetch]. *)
Theorem fetchApi_contract `{Engine} (o : outcome) :
  (∀ data,
     fetchApi o = Resolved data
     ↔ ∃ status body,
         o = Response status body ∧ ok status = true ∧ JSON_parse body = Some data)
  ∧ (∀ status body,
       o = Response status body → JSON_parse body = None →
       fetchApi o
       = RejectedWith
           (ApiRequestError (js "Invalid response from server") 500
              (Some (VStr (js "parse_error")))))
  ∧ (∀ status body data message,
       o = Response status body → JSON_parse body = Some data → ok status = false →
       data ≠ VNull →
       match getField data (js "message") with
       | Some m => if truthy m then toString m else Return (js "An error occurred")
       | None => Return (js "An error occurred")
       end = Return message →
       fetchApi o
       = RejectedWith (ApiRequestError message status (getField data (js "error"))))
  ∧ (∀ reason,
       o = Rejected reason →
       fetchApi o
       = if includes (js "fetch") reason then
           RejectedWith
             (ApiRequestError
                (js "Unable to connect to the server. Please check your connection.") 0
                (Some (VStr (js "network_error"))))
         else RejectedWith (Thrown (TypeError reason)))
  ∧ (∀ e,
       fetchApi o = RejectedWith (Thrown e) →
       ∃ msg, e = TypeError msg ∧ includes (js "fetch") msg = false).
Proof.
  assert (∀ msg e,
            fetchApiCatch (RejectedWith (Thrown (TypeError msg))) = RejectedWith (Thrown e) →
            ∃ msg, e = TypeError msg ∧ includes (js "fetch") msg = false) as Hcatch.
  { intros msg e. cbn [fetchApiCatch].
    destruct (includes (js "fetch") msg) eqn:Ei; [done|]. intros [= <-]. by exists msg. }
  assert (∀ msg data,
            fetchApiCatch (RejectedWith (Thrown (TypeError msg))) ≠ Resolved data) as Hnot.
  { intros msg data. cbn [fetchApiCatch]. by destruct (includes (js "fetch") msg). }
  unfold fetchApi, fetchApiTry. split; [|split; [|split; [|split]]].
  - intros data. destruct o as [reason|status body].
    { split; [by intros ?%Hnot | by intros (? & ? & ? & _)]. }
    destruct (JSON_parse body) as [data'|] eqn:Ep.
    2: { split; [done | by intros (? & ? & [= <- <-] & _ & ?); congruence]. }
    destruct (ok status) eqn:Eok; cbn [negb].
    + split; [intros [= <-]; by exists status, body|].
      intros (? & ? & [= <- <-] & _ & ?). cbn. congruence.
    + split; [|intros (? & ? & [= <- <-] & ? & _); congruence].
      destruct data' as [|b|literal|s|elements|props]; try by intros ?%Hnot.
      all: cbn [getField]; try done.
      destruct (lookupProperty (js "message") props) as [m|]; [|done].
      destruct (truthy m); [|done].
      destruct (toString m) as [text|e] eqn:Et; [done|].
      rewrite (toString_Throw m e Et). by intros ?%Hnot.
  - intros status body -> ->. done.
  - intros status body data message -> -> -> Hnull Hm.
    cbn [negb]. destruct data; try done; by rewrite Hm.
  - intros reason ->. done.
  - intros e. destruct o as [reason|status body]; [apply Hcatch|].
    destruct (JSON_parse body) as [data|] eqn:Ep; [|done].
    destruct (ok status) eqn:Eok; cbn [negb]; [done|].
    destruct data as [|b|literal|s|elements|props]; try apply Hcatch; try done.
    cbn [getField].
    destruct (lookupProperty (js "message") props) as [m|]; [|done].
    destruct (truthy m); [|done].
    destruct (toString m) as [text|e'] eqn:Et; [done|].
    rewrite (toString_Throw m e' Et). apply Hcatch.
Qed.

(** ** A completion without content *)

(** X26. When the endpoint answers the
    first call with a success payload whose message has no content, or
    a content that is empty or is not a string, the comparison fails as
    a normalization failure, not as a failure of the AI service:
    [executeComparison] makes that one call, does not retry, stores no
    result and throws the error with status 502 and the code
    [normalization_error]. *)
Theorem executeComparison_empty_content `{Engine} (env : Env) (input : ComparisonInput)
    (w : World) (id apiKey : jsstring) (status : Z) (body : jsstring)
    (data message : value) :
  database env (queryCount w) = Inserted id →
  getApiKey env = Return apiKey →
  endpoint env (fetchCount w) = Response status body →
  ok status = true →
  JSON_parse body = Some data →
  messageOf data = Some message →
  (∀ s, contentOf message = VStr s → s = []) →
  executeComparison env input w
  = (Throw (ComparisonServiceError (js "Failed to process AI response. Please try again.")
              (js "normalization_error") 502),
     extend (afterRequest w input id) [Fetch (buildRequest apiKey (promptFor input))]).
Proof.
  intros Hdb Hkey Hout Hok Hparse Hmsg Hcontent.
  assert (data ≠ VNull) as Hnull by (intros ->; done).
  assert (callGrokWithRetry env (promptFor input) MAX_RETRIES (afterRequest w input id)
          = (Return (contentOf message),
             extend (afterRequest w input id)
               [Fetch (buildRequest apiKey (promptFor input))])) as Hcall.
  { unfold callGrokWithRetry. rewrite Hkey.
    change (Z.to_nat MAX_RETRIES) with 3.
    erewrite attempts_success; try done; [by rewrite Hmsg|].
    unfold fetchCount, afterRequest. cbn [trace].
    fold (count isFetch (trace w ++ [Query (InsertComparison (ComparisonInput.options input)
                                              (ComparisonInput.constraints input))])).
    rewrite count_app. change (count isFetch [Query _]) with 0.
    rewrite Nat.add_0_r. exact Hout. }
  destruct (executeComparison_cases env input w) as [[Hr _]|(id0 & Hid & Hcases)];
    [congruence|].
  assert (id0 = id) as -> by congruence.
  destruct Hcases as [(error & w2 & Hc & _)|(raw & w2 & Hc & Hcases)]; [congruence|].
  rewrite Hcall in Hc. injection Hc as <- <-.
  assert (∃ detail, normalizeGrokResponse (contentOf message)
                    = Throw (NormalizationError detail)) as [detail Hn].
  { unfold normalizeGrokResponse.
    destruct (contentOf message) as [|b|literal|s|elements|props] eqn:Ec;
      try by eexists.
    rewrite (Hcontent s eq_refl). by eexists. }
  destruct Hcases as [(detail' & _ & Hrun)|[[Hn' _]|(result & Hn' & _)]];
    [exact Hrun | congruence | congruence].
Qed.

Lemma executeComparison_empty_content_witness :
  @executeComparison sampleEngine silentEnv twoOptions emptyWorld
  = (Throw (ComparisonServiceError (js "Failed to process AI response. Please try again.")
              (js "normalization_error") 502),
     extend (afterRequest emptyWorld twoOptions (js "id-1"))
       [Fetch (buildRequest (js "key") (promptFor twoOptions))]).
Proof.
  refine (@executeComparison_empty_content sampleEngine silentEnv twoOptions emptyWorld
            (js "id-1") (js "key") 200 messageWithoutContent
            (VObj [(js "choices", VArr [VObj [(js "message", VObj [])]])])
            (VObj []) _ _ _ _ _ _ _).
  - reflexivity.
  - reflexivity.
  - reflexivity.
  - reflexivity.
  - vm_compute. reflexivity.
  - reflexivity.
  - intros s Hs. by injection Hs as <-.
Defined.
